(** * NEXO unified player: playback-session orchestration

  A shallow embedding of the parts of the player that keep session
  state: the persistent storage helpers ([utils/storage.ts]), the live
  stream loader ([components/Player.tsx]) and the event handlers and
  effects of the [UnifiedPlayer] component (subtitle registry, download
  queue, chapter based skip-intro, resume prompt, position recorder).

  Conventions.
  - A JavaScript [number] is a rational [Q]: every finite double is one.
    [NaN], the infinities and the rounding of binary64 arithmetic are not
    modelled.
  - React state is passed explicitly: a handler or an effect takes the
    state it reads and returns the state it sets.
  - A JavaScript object used as a dictionary is a [gmap]; a [Map] keyed
    by strings whose iteration order is observed is an association list
    in insertion order. *)

From Stdlib Require Import QArith Qround Lqa Ascii String List Sorted Permutation Lia.
From stdpp Require Import gmap strings list fin_maps pretty.

Set Warnings "-register-all".

(** ** JavaScript primitives used by the sources *)

Module JS.

Abbreviation number := Q (only parsing).

(** [a > b] and [a < b] on numbers. *)
Definition num_gt (a b : number) : bool := negb (Qle_bool a b).
Definition num_lt (a b : number) : bool := num_gt b a.

(** Truthiness of a number: only [0] is falsy ([NaN] is not modelled). *)
Definition truthy_number (a : number) : bool := negb (Qeq_bool a 0).

(** Truthiness of a string: only the empty string is falsy. *)
Definition truthy_string (s : string) : bool :=
  match s with
  | EmptyString => false
  | String _ _ => true
  end.

(** [x || null] for a value that is a number or [undefined]. *)
Definition or_null (x : option number) : option number :=
  match x with
  | Some a => if truthy_number a then Some a else None
  | None => None
  end.

(** [a || b] on strings. *)
Definition or_string (a b : string) : string :=
  if truthy_string a then a else b.

(** [String.prototype.toLowerCase], on the ASCII letters: [A] to [Z] are
    folded and every other character is kept.  It stands for the method
    only where ASCII text is looked for (the word [intro] in a chapter
    name); where the method is applied to text of any script it is a
    parameter of the definition. *)
Definition lower_ascii (c : ascii) : ascii :=
  let n := nat_of_ascii c in
  if (Nat.leb 65 n && Nat.leb n 90)%bool then ascii_of_nat (n + 32) else c.

Fixpoint toLowerCase (s : string) : string :=
  match s with
  | EmptyString => EmptyString
  | String c rest => String (lower_ascii c) (toLowerCase rest)
  end.

(** [String.prototype.startsWith] and [String.prototype.includes]. *)
Fixpoint startsWith (s pre : string) {struct pre} : bool :=
  match pre, s with
  | EmptyString, _ => true
  | String _ _, EmptyString => false
  | String p pre', String c s' => Ascii.eqb c p && startsWith s' pre'
  end.

Fixpoint includes (s sub : string) : bool :=
  startsWith s sub ||
  match s with
  | EmptyString => false
  | String _ s' => includes s' sub
  end.

(** [encodeURIComponent]: every byte of the UTF-8 text that is not an
    unreserved mark is written [%XX] with upper-case hexadecimal digits. *)
Definition unreserved (c : ascii) : bool :=
  let n := nat_of_ascii c in
  (Nat.leb 65 n && Nat.leb n 90) || (Nat.leb 97 n && Nat.leb n 122)
  || (Nat.leb 48 n && Nat.leb n 57)
  || existsb (Ascii.eqb c) ["-"; "_"; "."; "!"; "~"; "*"; "'"; "("; ")"]%char.

Definition hex_digit (n : nat) : ascii :=
  if Nat.ltb n 10 then ascii_of_nat (48 + n) else ascii_of_nat (55 + n).

Fixpoint encodeURIComponent (s : string) : string :=
  match s with
  | EmptyString => EmptyString
  | String c rest =>
      if unreserved c then String c (encodeURIComponent rest)
      else
        let n := nat_of_ascii c in
        String "%" (String (hex_digit (n / 16)) (String (hex_digit (n mod 16))
          (encodeURIComponent rest)))
  end.

(** A string held by [localStorage], seen through [JSON.parse]: the
    empty string, a non-empty text that [JSON.parse] rejects, or the JSON
    text of a value of the type the reader expects. *)
Inductive text (A : Type) : Type :=
| EmptyText
| BadText (raw : string)
| JsonText (value : A).
Arguments EmptyText {A}.
Arguments BadText {A} raw.
Arguments JsonText {A} value.

(** [!stored] for a string. *)
Definition falsy_text {A} (t : text A) : bool :=
  match t with
  | EmptyText => true
  | _ => false
  end.

(** [JSON.parse]: [None] stands for the [SyntaxError] it throws. *)
Definition JSON_parse {A} (t : text A) : option A :=
  match t with
  | JsonText v => Some v
  | _ => None
  end.

Definition JSON_stringify {A} (v : A) : text A := JsonText v.

(** A parsed JSON value of unknown shape ([any]). *)
Inductive json : Type :=
| JNull
| JBool (b : bool)
| JNumber (n : number)
| JString (s : string)
| JArray (items : list json)
| JObject (fields : list (string * json)).

(** [Array.isArray(parsed)], giving the elements when it holds. *)
Definition as_array (v : json) : option (list json) :=
  match v with
  | JArray items => Some items
  | _ => None
  end.

End JS.

Import JS.

(** ** utils/storage.ts *)

Module Storage.

Definition EXAMPLE_MAGNET : string :=
  "magnet:?xt=urn:btih:7943AA61FAF369A2106790BFAE6002D6438B2B57&dn=Robin%20Hood%202025%20S01E03%20XviD-AFG&tr=udp%3A%2F%2Ftracker.opentrackr.org%3A1337&tr=udp%3A%2F%2Fopen.stealth.si%3A80%2Fannounce&tr=udp%3A%2F%2Ftracker.torrent.eu.org%3A451%2Fannounce&tr=udp%3A%2F%2Ftracker.bittor.pw%3A1337%2Fannounce&tr=udp%3A%2F%2Fpublic.popcorn-tracker.org%3A6969%2Fannounce&tr=udp%3A%2F%2Ftracker.dler.org%3A6969%2Fannounce&tr=udp%3A%2F%2Fexodus.desync.com%3A6969&tr=udp%3A%2F%2Fopen.demonii.com%3A1337%2Fannounce".

(** [type PlaybackPositions = { [mediaId: string]: number }].  The keys
    are media identities as the player forms them ([local-file-...],
    [iptv-channel-...], [torrent-...]); none of them names a property
    inherited from [Object.prototype], so [positions[mediaId]] is the
    lookup of an own property. *)
Abbreviation PlaybackPositions := (gmap string Q) (only parsing).

(** The two [localStorage] entries read and written here, each one
    [None] when [getItem] returns [null]:
    [PLAYBACK_POSITION_KEY = 'nexo_playback_positions'] and
    [RECENT_MAGNETS_KEY = 'nexo_recent_magnets']. *)
Record localStorage : Type := {
  nexo_playback_positions : option (text PlaybackPositions);
  nexo_recent_magnets : option (text json)
}.

Definition setItem_PLAYBACK_POSITION_KEY
    (value : text PlaybackPositions) (ls : localStorage) : localStorage :=
  {| nexo_playback_positions := Some value;
     nexo_recent_magnets := nexo_recent_magnets ls |}.

Definition getPlaybackPosition (ls : localStorage) (mediaId : string)
  : option number :=
  match nexo_playback_positions ls with
  | None => None
  | Some stored =>
      if falsy_text stored then None
      else match JSON_parse stored with
           | Some positions => or_null (positions !! mediaId)
           | None => None
           end
  end.

Definition setPlaybackPosition (ls : localStorage) (mediaId : string)
    (time : number) : localStorage :=
  let positions : PlaybackPositions :=
    match nexo_playback_positions ls with
    | None => ∅
    | Some stored =>
        if falsy_text stored then ∅
        else match JSON_parse stored with
             | Some parsed => parsed
             | None => ∅
             end
    end in
  setItem_PLAYBACK_POSITION_KEY
    (JSON_stringify (<[mediaId := time]> positions)) ls.

Definition clearPlaybackPosition (ls : localStorage) (mediaId : string)
  : localStorage :=
  match nexo_playback_positions ls with
  | None => ls
  | Some stored =>
      if falsy_text stored then ls
      else match JSON_parse stored with
           | Some positions =>
               setItem_PLAYBACK_POSITION_KEY
                 (JSON_stringify (delete mediaId positions)) ls
           | None => ls
           end
  end.

Definition getRecentMagnets (ls : localStorage) : list json :=
  match nexo_recent_magnets ls with
  | None => [JString EXAMPLE_MAGNET]
  | Some stored =>
      match JSON_parse stored with
      | Some parsed =>
          match as_array parsed with
          | Some items => items
          | None => []
          end
      | None => []
      end
  end.

End Storage.

(** ** types.ts *)

Module Types.

Record SubtitleTrack : Type := {
  src : string;
  label : string;
  srclang : string
}.

Record Chapter : Type := {
  timestamp : number;
  name : string
}.

End Types.

(** ** The media element, as far as the player reads and writes it *)

Module DOM.

Inductive TextTrackMode : Type := disabled | hidden | showing.

Record CueTimes : Type := {
  startTime : number;
  endTime : number
}.

(** A cue is a mutable object: [identity] is what tells two cue objects
    apart (the key of a [Map<TextTrackCue, _>]), [timing] its current
    [startTime] and [endTime]. *)
Record TextTrackCue : Type := {
  identity : positive;
  timing : CueTimes
}.

(** [cues] is [None] while [track.cues] is [null]. *)
Record TextTrack : Type := {
  kind : string;
  label : string;
  language : string;
  mode : TextTrackMode;
  cues : option (list TextTrackCue)
}.

(** [play_calls] counts the calls of [video.play()]; assigning
    [video.currentTime] is modelled as storing the value. *)
Record HTMLVideoElement : Type := {
  currentTime : number;
  duration : number;
  textTracks : list TextTrack;
  play_calls : nat
}.

Definition set_currentTime (t : number) (v : HTMLVideoElement) : HTMLVideoElement :=
  {| currentTime := t; duration := duration v;
     textTracks := textTracks v; play_calls := play_calls v |}.

Definition set_textTracks (ts : list TextTrack) (v : HTMLVideoElement) : HTMLVideoElement :=
  {| currentTime := currentTime v; duration := duration v;
     textTracks := ts; play_calls := play_calls v |}.

Definition play (v : HTMLVideoElement) : HTMLVideoElement :=
  {| currentTime := currentTime v; duration := duration v;
     textTracks := textTracks v; play_calls := S (play_calls v) |}.

Definition set_mode (m : TextTrackMode) (t : TextTrack) : TextTrack :=
  {| kind := kind t; label := label t; language := language t;
     mode := m; cues := cues t |}.

Definition set_cues (cs : list TextTrackCue) (t : TextTrack) : TextTrack :=
  {| kind := kind t; label := label t; language := language t;
     mode := mode t; cues := Some cs |}.

End DOM.

(** ** A [Map] with string keys, in insertion order *)

Module JSMap.

(** [map.set(k, v)]: an existing key keeps its place and takes the new
    value, a new key goes last. *)
Fixpoint set {V} (k : string) (v : V) (m : list (string * V)) : list (string * V) :=
  match m with
  | [] => [(k, v)]
  | (k', v') :: rest =>
      if String.eqb k' k then (k', v) :: rest else (k', v') :: set k v rest
  end.

(** [new Map(entries)] *)
Definition of_entries {V} (entries : list (string * V)) : list (string * V) :=
  fold_left (fun m kv => set (fst kv) (snd kv) m) entries [].

Fixpoint get {V} (k : string) (m : list (string * V)) : option V :=
  match m with
  | [] => None
  | (k', v') :: rest => if String.eqb k' k then Some v' else get k rest
  end.

Definition values {V} (m : list (string * V)) : list V := map snd m.

End JSMap.

(** ** The torrent engine's file handle *)

Module WebTorrent.

Record TorrentFile : Type := {
  name : string;
  length : N
}.

End WebTorrent.

(** ** The [UnifiedPlayer] component *)

Module UnifiedPlayer.

(** *** Chapters and the skip-intro button *)

(** [chapters.find(c => c.name.toLowerCase().includes('intro'))] *)
Definition find_intro (chapters : list Types.Chapter) : option Types.Chapter :=
  find (fun c => includes (toLowerCase (Types.name c)) "intro") chapters.

(** [intro ? chapters.find(c => c.timestamp > intro.timestamp) : null] *)
Definition find_introEnd (chapters : list Types.Chapter)
    (intro : option Types.Chapter) : option Types.Chapter :=
  match intro with
  | Some i => find (fun c => num_gt (Types.timestamp c) (Types.timestamp i)) chapters
  | None => None
  end.

(** The condition under which [onTimeUpdate] shows the button:
    [intro && introEnd && time > intro.timestamp && time < introEnd.timestamp]. *)
Definition isInIntroWindow (chapters : list Types.Chapter) (time : number) : bool :=
  let intro := find_intro chapters in
  let introEnd := find_introEnd chapters intro in
  match intro, introEnd with
  | Some i, Some e =>
      num_gt time (Types.timestamp i) && num_lt time (Types.timestamp e)
  | _, _ => false
  end.

(** The write that a pending 15 s timer will perform: the [mediaId] and
    the [time] its closure captured. *)
Record PendingWrite : Type := {
  captured_mediaId : option string;
  captured_time : number
}.

(** The state that the [timeupdate] listener sets. *)
Record TimeState : Type := {
  currentTime : number;
  showSkipIntro : bool;
  timeUpdateTimeoutRef : option PendingWrite
}.

Definition onTimeUpdate (chapters : option (list Types.Chapter))
    (mediaId : option string) (video : DOM.HTMLVideoElement)
    (s : TimeState) : TimeState :=
  let time := DOM.currentTime video in
  {| currentTime := time;
     showSkipIntro :=
       match chapters with
       | Some chs => isInIntroWindow chs time
       | None => showSkipIntro s
       end;
     timeUpdateTimeoutRef :=
       match timeUpdateTimeoutRef s with
       | None => Some {| captured_mediaId := mediaId; captured_time := time |}
       | Some pending => Some pending
       end |}.

(** The body of the function handed to [setTimeout], without its last
    line (which resets the ref); [duration] is [video.duration] read when
    the timer fires. *)
Definition timeUpdateTimeout_callback (mediaId : option string)
    (time duration : number) (ls : Storage.localStorage) : Storage.localStorage :=
  match mediaId with
  | Some id =>
      if truthy_string id && num_gt time 0 && num_gt duration 0 then
        if num_gt (time / duration) (95 # 100)
        then Storage.clearPlaybackPosition ls id
        else Storage.setPlaybackPosition ls id time
      else ls
  | None => ls
  end.

(** The timer fires: the pending write runs and the ref is reset. *)
Definition timeUpdateTimeout_fires (video : DOM.HTMLVideoElement)
    (s : TimeState) (ls : Storage.localStorage) : TimeState * Storage.localStorage :=
  match timeUpdateTimeoutRef s with
  | Some pending =>
      ({| currentTime := currentTime s; showSkipIntro := showSkipIntro s;
          timeUpdateTimeoutRef := None |},
       timeUpdateTimeout_callback (captured_mediaId pending)
         (captured_time pending) (DOM.duration video) ls)
  | None => (s, ls)
  end.

(** [handleSkipIntro]: the video element and [showSkipIntro] afterwards. *)
Definition handleSkipIntro (chapters : option (list Types.Chapter))
    (video : option DOM.HTMLVideoElement) (shown : bool)
  : option DOM.HTMLVideoElement * bool :=
  match chapters, video with
  | Some chs, Some v =>
      match find_introEnd chs (find_intro chs) with
      | Some introEnd => (Some (DOM.set_currentTime (Types.timestamp introEnd) v), false)
      | None => (video, shown)
      end
  | _, _ => (video, shown)
  end.

(** *** Resume prompt *)

(** [mediaId] falsy: [null] or the empty string. *)
Definition truthy_mediaId (mediaId : option string) : option string :=
  match mediaId with
  | Some id => if truthy_string id then Some id else None
  | None => None
  end.

(** The effect that runs when [mediaId] is set: the video element and
    [resumeTime] afterwards. *)
Definition resumeEffect (ls : Storage.localStorage) (mediaId : option string)
    (video : option DOM.HTMLVideoElement) (resumeTime : option number)
  : option DOM.HTMLVideoElement * option number :=
  match truthy_mediaId mediaId with
  | None => (video, resumeTime)
  | Some id =>
      match Storage.getPlaybackPosition ls id with
      | Some savedTime =>
          if truthy_number savedTime && num_gt savedTime 5
          then (video, Some savedTime)
          else (option_map DOM.play video, resumeTime)
      | None => (option_map DOM.play video, resumeTime)
      end
  end.

Definition handleResumePlayback (resume : bool)
    (video : option DOM.HTMLVideoElement) (resumeTime : option number)
  : option DOM.HTMLVideoElement * option number :=
  match video with
  | None => (None, resumeTime)
  | Some v =>
      let v' :=
        match resumeTime with
        | Some t => if resume && truthy_number t then DOM.set_currentTime t v else v
        | None => v
        end in
      (Some (DOM.play v'), None)
  end.

(** [renderResumePrompt] returns the prompt unless [!resumeTime]. *)
Definition renderResumePrompt (resumeTime : option number) : option number :=
  match resumeTime with
  | Some t => if truthy_number t then Some t else None
  | None => None
  end.

(** *** Subtitle registry *)

(** [`embedded-${i}-${track.label}-${track.language}`] *)
Definition embedded_src (i : nat) (track : DOM.TextTrack) : string :=
  "embedded-" +:+ pretty i +:+ "-" +:+ DOM.label track +:+ "-" +:+ DOM.language track.

Definition is_subtitle_kind (track : DOM.TextTrack) : bool :=
  String.eqb (DOM.kind track) "subtitles" || String.eqb (DOM.kind track) "captions".

Definition embeddedTracks (textTracks : list DOM.TextTrack) : list Types.SubtitleTrack :=
  imap (fun i track =>
          {| Types.src := embedded_src i track;
             Types.label := or_string (or_string (DOM.label track) (DOM.language track))
                              ("Track " +:+ pretty (i + 1));
             Types.srclang := DOM.language track |})
       (List.filter is_subtitle_kind textTracks).

(** [handleTracks], for the text tracks: the new value of
    [availableSubtitleTracks]. *)
Definition handleTracks (subtitleTracks : list Types.SubtitleTrack)
    (video : DOM.HTMLVideoElement) : list Types.SubtitleTrack :=
  let combined := subtitleTracks ++ embeddedTracks (DOM.textTracks video) in
  JSMap.values (JSMap.of_entries (map (fun item => (Types.label item, item)) combined)).

(** [isTrackActive] in the visibility effect. *)
Definition isTrackActive (activeSubtitleTrack : option Types.SubtitleTrack)
    (i : nat) (textTrack : DOM.TextTrack) : bool :=
  match activeSubtitleTrack with
  | Some active =>
      String.eqb (DOM.label textTrack) (Types.label active)
      || String.eqb (embedded_src i textTrack) (Types.src active)
  | None => false
  end.

(** The effect on [activeSubtitleTrack] that sets every track's mode. *)
Definition visibilityEffect (activeSubtitleTrack : option Types.SubtitleTrack)
    (video : option DOM.HTMLVideoElement) : option DOM.HTMLVideoElement :=
  match video with
  | Some v =>
      Some (DOM.set_textTracks
              (imap (fun i textTrack =>
                       DOM.set_mode (if isTrackActive activeSubtitleTrack i textTrack
                                     then DOM.showing else DOM.hidden) textTrack)
                    (DOM.textTracks v)) v)
  | None => None
  end.

(** [originalCueTimesRef.current.has(track.cues[0])]; on an empty cue list
    [track.cues[0]] is [undefined], which is no key of the map. *)
Definition has_first_cue (originals : gmap positive DOM.CueTimes)
    (cues : list DOM.TextTrackCue) : bool :=
  match cues with
  | c :: _ =>
      match originals !! DOM.identity c with
      | Some _ => true
      | None => false
      end
  | [] => false
  end.

(** The first [forEach] of [applyOffset]: every cue's current times are
    stored under the cue. *)
Definition rememberCues (originals : gmap positive DOM.CueTimes)
    (cues : list DOM.TextTrackCue) : gmap positive DOM.CueTimes :=
  fold_left (fun m cue => <[DOM.identity cue := DOM.timing cue]> m) cues originals.

(** The second [forEach] of [applyOffset], for one cue. *)
Definition shiftCue (originals : gmap positive DOM.CueTimes) (offset : number)
    (cue : DOM.TextTrackCue) : DOM.TextTrackCue :=
  match originals !! DOM.identity cue with
  | Some original =>
      {| DOM.identity := DOM.identity cue;
         DOM.timing := {| DOM.startTime := DOM.startTime original + offset;
                          DOM.endTime := DOM.endTime original + offset |} |}
  | None => cue
  end.

(** The body of [applyOffset] under [if (track?.cues)]: the new value of
    [originalCueTimesRef.current] and the cues as rewritten. *)
Definition applyOffset_cues (offset : number)
    (originals : gmap positive DOM.CueTimes) (cues : list DOM.TextTrackCue)
  : gmap positive DOM.CueTimes * list DOM.TextTrackCue :=
  let originals' :=
    if has_first_cue originals cues then originals
    else rememberCues originals cues in
  (originals', map (shiftCue originals' offset) cues).

Fixpoint replace_first {A} (p : A -> bool) (y : A) (l : list A) : list A :=
  match l with
  | [] => []
  | x :: rest => if p x then y :: rest else x :: replace_first p y rest
  end.

(** [applyOffset]: the track is the first text track with the label of the
    active subtitle track. *)
Definition applyOffset (activeSubtitleTrack : Types.SubtitleTrack) (offset : number)
    (originals : gmap positive DOM.CueTimes) (video : DOM.HTMLVideoElement)
  : gmap positive DOM.CueTimes * DOM.HTMLVideoElement :=
  let same_label t := String.eqb (DOM.label t) (Types.label activeSubtitleTrack) in
  match find same_label (DOM.textTracks video) with
  | Some track =>
      match DOM.cues track with
      | Some cues =>
          let '(originals', cues') := applyOffset_cues offset originals cues in
          (originals',
           DOM.set_textTracks
             (replace_first same_label (DOM.set_cues cues' track) (DOM.textTracks video))
             video)
      | None => (originals, video)
      end
  | None => (originals, video)
  end.

(** The effect on [subtitleSettings.offset] and [activeSubtitleTrack].  A
    track whose [cues] are still [null] gets a one-shot [load] listener
    instead; nothing is rewritten until that event. *)
Definition offsetEffect (activeSubtitleTrack : option Types.SubtitleTrack)
    (offset : number) (originals : gmap positive DOM.CueTimes)
    (video : option DOM.HTMLVideoElement)
  : gmap positive DOM.CueTimes * option DOM.HTMLVideoElement :=
  match video, activeSubtitleTrack with
  | Some v, Some active =>
      let '(originals', v') := applyOffset active offset originals v in
      (originals', Some v')
  | _, _ => (originals, video)
  end.

(** *** Download queue *)

Inductive Status : Type := Queued | Preparing | Downloading | Done | Error.

Record DownloadQueueItem : Type := {
  file : WebTorrent.TorrentFile;
  status : Status;
  error : option string;
  url : option string
}.

Definition in_flight (item : DownloadQueueItem) : bool :=
  match status item with
  | Preparing | Downloading => true
  | _ => false
  end.

Definition is_queued (item : DownloadQueueItem) : bool :=
  match status item with
  | Queued => true
  | _ => false
  end.

Definition named (fileName : string) (item : DownloadQueueItem) : bool :=
  String.eqb (WebTorrent.name (file item)) fileName.

(** [q.map(i => i.file.name === fileName ? f(i) : i)] *)
Definition update_named (fileName : string)
    (f : DownloadQueueItem -> DownloadQueueItem) (q : list DownloadQueueItem)
  : list DownloadQueueItem :=
  map (fun i => if named fileName i then f i else i) q.

Definition mark_preparing (i : DownloadQueueItem) : DownloadQueueItem :=
  {| file := file i; status := Preparing; error := error i; url := url i |}.

Definition mark_error (message : string) (i : DownloadQueueItem) : DownloadQueueItem :=
  {| file := file i; status := Error; error := Some message; url := url i |}.

Definition mark_downloading (u : string) (i : DownloadQueueItem) : DownloadQueueItem :=
  {| file := file i; status := Downloading; error := error i; url := Some u |}.

Definition mark_done (i : DownloadQueueItem) : DownloadQueueItem :=
  {| file := file i; status := Done; error := error i; url := url i |}.

(** The synchronous part of the queue effect: the queue afterwards and the
    file whose [getBlobURL] was called, if any. *)
Definition downloadQueueEffect (downloadQueue : list DownloadQueueItem)
  : list DownloadQueueItem * option WebTorrent.TorrentFile :=
  if existsb in_flight downloadQueue then (downloadQueue, None)
  else
    match find is_queued downloadQueue with
    | Some nextInQueue =>
        (update_named (WebTorrent.name (file nextInQueue)) mark_preparing downloadQueue,
         Some (file nextInQueue))
    | None => (downloadQueue, None)
    end.

(** The callback given to [getBlobURL] for the file named [fileName]: the
    successive values of the queue, one per [setDownloadQueue] call.
    [err] is [err.message] when [err] is not [null]. *)
Definition getBlobURL_callback (fileName : string)
    (err : option string) (blobUrl : option string)
    (q : list DownloadQueueItem) : list (list DownloadQueueItem) :=
  match err, blobUrl with
  | None, Some u =>
      if truthy_string u then
        let q1 := update_named fileName (mark_downloading u) q in
        let q2 := update_named fileName mark_done q1 in
        [q1; q2]
      else [update_named fileName (mark_error "Failed") q]
  | None, None => [update_named fileName (mark_error "Failed") q]
  | Some message, _ =>
      [update_named fileName (mark_error (or_string message "Failed")) q]
  end.

(** [handleAddToDownloadQueue]: the test reads [downloadQueue], the value
    in the render that made the handler; the function given to
    [setDownloadQueue] receives [prev], the state at the time React applies
    it, and when the test finds the name the state stays as it is. *)
Definition handleAddToDownloadQueue (downloadQueue prev : list DownloadQueueItem)
    (f : WebTorrent.TorrentFile) : list DownloadQueueItem :=
  if existsb (named (WebTorrent.name f)) downloadQueue then prev
  else prev ++ [{| file := f; status := Queued; error := None; url := None |}].

(** The state of the queue: [downloadQueue] is the state that the next
    function given to [setDownloadQueue] receives and the next render
    shows; [rendered] is the value of the variable [downloadQueue] in the
    render committed last, which is what the handlers of that render read;
    [outstanding] lists the [getBlobURL] calls that have not called back
    yet (by file name). *)
Record QueueState : Type := {
  rendered : list DownloadQueueItem;
  downloadQueue : list DownloadQueueItem;
  outstanding : list string
}.

Inductive QueueEvent : Type :=
| Enqueue (f : WebTorrent.TorrentFile)
| RunEffect
| BlobCallback (fileName : string) (err : option string) (blobUrl : option string).

Fixpoint remove_one (x : string) (l : list string) : list string :=
  match l with
  | [] => []
  | y :: rest => if String.eqb y x then rest else y :: remove_one x rest
  end.

(** One event: the states the queue goes through, the last one being the
    state after the event.  [Enqueue] is a call of the handler made by the
    render committed last: it tests that render's value and appends to the
    state.  [RunEffect] is React committing a render of the state, whose
    value the handlers read from then on, and running the queue effect of
    that render, its [setDownloadQueue] applied before anything else
    happens.  A callback only arrives for an outstanding call, once;
    otherwise nothing happens; its functions are applied to the state and
    no render is committed in between.  Emptying the queue (the close
    button of the queue panel, a change of media) is not among the
    events. *)
Definition queue_step (e : QueueEvent) (s : QueueState) : list QueueState :=
  match e with
  | Enqueue f =>
      [{| rendered := rendered s;
          downloadQueue := handleAddToDownloadQueue (rendered s) (downloadQueue s) f;
          outstanding := outstanding s |}]
  | RunEffect =>
      let '(q, started) := downloadQueueEffect (downloadQueue s) in
      [{| rendered := downloadQueue s;
          downloadQueue := q;
          outstanding :=
            match started with
            | Some f => outstanding s ++ [WebTorrent.name f]
            | None => outstanding s
            end |}]
  | BlobCallback fileName err blobUrl =>
      if existsb (String.eqb fileName) (outstanding s) then
        map (fun q => {| rendered := rendered s;
                         downloadQueue := q;
                         outstanding := remove_one fileName (outstanding s) |})
            (getBlobURL_callback fileName err blobUrl (downloadQueue s))
      else [s]
  end.

(** All the states visited while the events happen one after the other,
    starting with [s] itself. *)
Fixpoint queue_run (events : list QueueEvent) (s : QueueState) : list QueueState :=
  match events with
  | [] => [s]
  | e :: rest =>
      let visited := queue_step e s in
      s :: removelast visited ++ queue_run rest (List.last visited s)
  end.

Definition initialQueue : QueueState :=
  {| rendered := []; downloadQueue := []; outstanding := [] |}.

Definition in_flight_count (q : list DownloadQueueItem) : nat :=
  List.length (List.filter in_flight q).

End UnifiedPlayer.

(** ** components/Player.tsx: the live-stream loader *)

Module Hls.

(** [Hls.ErrorTypes], [Hls.ErrorDetails] and the payload of
    [Hls.Events.ERROR], as far as the handler reads them. *)
Inductive ErrorTypes : Type :=
| NETWORK_ERROR | MEDIA_ERROR | KEY_SYSTEM_ERROR | MUX_ERROR | OTHER_ERROR.

Inductive ErrorDetails : Type :=
| MANIFEST_LOAD_ERROR
| OTHER_DETAIL (detail : string).

Record ErrorData : Type := {
  type : ErrorTypes;
  details : ErrorDetails;
  fatal : bool;
  response : option (N * string)
}.

Definition type_text (t : ErrorTypes) : string :=
  match t with
  | NETWORK_ERROR => "networkError"
  | MEDIA_ERROR => "mediaError"
  | KEY_SYSTEM_ERROR => "keySystemError"
  | MUX_ERROR => "muxError"
  | OTHER_ERROR => "otherError"
  end.

Definition details_text (d : ErrorDetails) : string :=
  match d with
  | MANIFEST_LOAD_ERROR => "manifestLoadError"
  | OTHER_DETAIL detail => detail
  end.

(** An instance made by [new Hls(hlsConfig)]: the URL given to
    [loadSource] and the calls of its recovery methods. *)
Record Instance : Type := {
  source : string;
  startLoad_calls : nat;
  recoverMediaError_calls : nat
}.

Definition startLoad (h : Instance) : Instance :=
  {| source := source h; startLoad_calls := S (startLoad_calls h);
     recoverMediaError_calls := recoverMediaError_calls h |}.

Definition recoverMediaError (h : Instance) : Instance :=
  {| source := source h; startLoad_calls := startLoad_calls h;
     recoverMediaError_calls := S (recoverMediaError_calls h) |}.

End Hls.

Module Player.

(** What the browser offers: [Hls.isSupported()] and whether
    [video.canPlayType('application/vnd.apple.mpegurl')] is non-empty. *)
Record Platform : Type := {
  Hls_isSupported : bool;
  canPlayType_mpegurl : bool
}.

Inductive ConsoleEntry : Type :=
| console_error (message : string)
| console_warn (message : string).

(** The variables of the effect and what it has done so far: [hls] holds
    the live instance together with the [isProxyAttempt] of the
    [attemptLoad] call that made it (the value its [ERROR] listener
    closed over); [requested] lists, oldest first, every URL handed to
    [hls.loadSource] or to [video.src]. *)
Record LoaderState : Type := {
  isMounted : bool;
  hls : option (Hls.Instance * bool);
  video_src : option string;
  requested : list string;
  console : list ConsoleEntry
}.

Definition proxy : string := "https://api.allorigins.win/raw?url=".

Definition attemptLoad (platform : Platform) (urlToLoad : string)
    (isProxyAttempt : bool) (s : LoaderState) : LoaderState :=
  if negb (isMounted s) then s
  else if Hls_isSupported platform then
    {| isMounted := isMounted s;
       hls := Some ({| Hls.source := urlToLoad; Hls.startLoad_calls := 0;
                       Hls.recoverMediaError_calls := 0 |}, isProxyAttempt);
       video_src := video_src s;
       requested := requested s ++ [urlToLoad];
       console := console s |}
  else if canPlayType_mpegurl platform then
    {| isMounted := isMounted s;
       hls := hls s;
       video_src := Some urlToLoad;
       requested := requested s ++ [urlToLoad];
       console := console s |}
  else s.

Definition log (entries : list ConsoleEntry) (s : LoaderState) : LoaderState :=
  {| isMounted := isMounted s; hls := hls s; video_src := video_src s;
     requested := requested s; console := console s ++ entries |}.

Definition with_hls (f : Hls.Instance -> Hls.Instance) (s : LoaderState) : LoaderState :=
  {| isMounted := isMounted s;
     hls := option_map (fun hp => (f (fst hp), snd hp)) (hls s);
     video_src := video_src s; requested := requested s; console := console s |}.

Definition bool_text (b : bool) : string := if b then "true" else "false".

Definition is_manifest_load_error (data : Hls.ErrorData) : bool :=
  match Hls.type data, Hls.details data with
  | Hls.NETWORK_ERROR, Hls.MANIFEST_LOAD_ERROR => true
  | _, _ => false
  end.

(** The [Hls.Events.ERROR] listener installed by
    [attemptLoad(_, isProxyAttempt)]. *)
Definition onError (platform : Platform) (originalUrl : string)
    (isProxyAttempt : bool) (data : Hls.ErrorData) (s : LoaderState) : LoaderState :=
  let s1 :=
    log ([console_error ("HLS.js error: type: " +:+ Hls.type_text (Hls.type data)
                         +:+ ", details: " +:+ Hls.details_text (Hls.details data)
                         +:+ ", fatal: " +:+ bool_text (Hls.fatal data))]
         ++ match Hls.response data with
            | Some (code, text) =>
                [console_error ("- Response code: " +:+ pretty code);
                 console_error ("- Response text: " +:+ text)]
            | None => []
            end) s in
  if is_manifest_load_error data && negb isProxyAttempt then
    let s2 := log [console_warn
                     "Direct manifest load failed (likely CORS). Retrying with proxy..."] s1 in
    let proxiedUrl := proxy +:+ encodeURIComponent originalUrl in
    attemptLoad platform proxiedUrl true s2
  else if Hls.fatal data then
    match Hls.type data with
    | Hls.NETWORK_ERROR =>
        with_hls Hls.startLoad
          (log [console_error "Fatal network error encountered, trying to recover..."] s1)
    | Hls.MEDIA_ERROR =>
        with_hls Hls.recoverMediaError
          (log [console_error "Fatal media error encountered, trying to recover..."] s1)
    | _ => log [console_error "Unrecoverable HLS.js error."] s1
    end
  else s1.

(** The effect for a channel whose URL is [originalUrl], with the video
    element mounted. *)
Definition start (platform : Platform) (originalUrl : string) : LoaderState :=
  attemptLoad platform originalUrl false
    {| isMounted := true; hls := None; video_src := None;
       requested := []; console := [] |}.

(** What can happen to a started loader.  [HlsError] is an
    [Hls.Events.ERROR] of the live instance and reaches the listener that
    instance was given.  [VideoError] is the media element's own [error]
    event, the only sign of a failed load when the element plays the
    stream natively; the effect registers no listener for it. *)
Inductive LoaderEvent : Type :=
| HlsError (data : Hls.ErrorData)
| VideoError.

Definition dispatch (platform : Platform) (originalUrl : string)
    (e : LoaderEvent) (s : LoaderState) : LoaderState :=
  match e with
  | HlsError data =>
      match hls s with
      | Some (_, isProxyAttempt) => onError platform originalUrl isProxyAttempt data s
      | None => s
      end
  | VideoError => s
  end.

Definition dispatch_all (platform : Platform) (originalUrl : string)
    (events : list LoaderEvent) (s : LoaderState) : LoaderState :=
  fold_left (fun st e => dispatch platform originalUrl e st) events s.

(** A manifest-load failure, as the platform reports it. *)
Definition manifestLoadFailure (fatal : bool) : LoaderEvent :=
  HlsError {| Hls.type := Hls.NETWORK_ERROR; Hls.details := Hls.MANIFEST_LOAD_ERROR;
              Hls.fatal := fatal; Hls.response := None |}.

End Player.

(** ** Vocabulary of the statements *)

Module Spec.

(** The chapter's name contains "intro", whatever the case of its letters. *)
Definition names_intro (c : Types.Chapter) : Prop :=
  exists pre post, toLowerCase (Types.name c) = pre +:+ "intro" +:+ post.

(** [intro] is the first chapter of the list, in list order, whose name
    contains "intro". *)
Definition first_intro (chapters : list Types.Chapter) (intro : Types.Chapter) : Prop :=
  exists before after,
    chapters = before ++ intro :: after /\
    names_intro intro /\
    Forall (fun c => ~ names_intro c) before.

(** [next] is a chapter strictly after [intro] by timestamp, and no chapter
    strictly after [intro] comes before it. *)
Definition next_after (chapters : list Types.Chapter) (intro next : Types.Chapter) : Prop :=
  In next chapters /\
  (Types.timestamp intro < Types.timestamp next)%Q /\
  forall c, In c chapters ->
    (Types.timestamp intro < Types.timestamp c)%Q ->
    (Types.timestamp next <= Types.timestamp c)%Q.

Definition ascending (chapters : list Types.Chapter) : Prop :=
  Sorted (fun a b => (Types.timestamp a <= Types.timestamp b)%Q) chapters.

(** No position is on record for [mediaId]: nothing is stored, or what is
    stored is empty or does not parse, or it parses to positions without an
    entry for [mediaId]. *)
Definition no_record (ls : Storage.localStorage) (mediaId : string) : Prop :=
  match Storage.nexo_playback_positions ls with
  | None => True
  | Some EmptyText | Some (BadText _) => True
  | Some (JsonText positions) => positions !! mediaId = None
  end.

(** The track added last under the label [l]. *)
Definition latest_labelled (l : string) (tracks : list Types.SubtitleTrack)
  : option Types.SubtitleTrack :=
  find (fun t => String.eqb (Types.label t) l) (rev tracks).

(** The entry that [handleTracks] makes of a track. *)
Definition labelled (item : Types.SubtitleTrack) : string * Types.SubtitleTrack :=
  (Types.label item, item).

Definition file_name (item : UnifiedPlayer.DownloadQueueItem) : string :=
  WebTorrent.name (UnifiedPlayer.file item).

(** The outstanding calls account for the items in flight: with no
    [getBlobURL] call outstanding no item is in flight; otherwise exactly
    one call is outstanding, an item of its file's name is in flight and
    no item of another name is. *)
Definition flight_accounted (s : UnifiedPlayer.QueueState) : Prop :=
  match UnifiedPlayer.outstanding s with
  | [] =>
      forall i, In i (UnifiedPlayer.downloadQueue s) -> UnifiedPlayer.in_flight i = false
  | [n] =>
      (exists i, In i (UnifiedPlayer.downloadQueue s) /\
                 UnifiedPlayer.named n i = true /\ UnifiedPlayer.in_flight i = true) /\
      (forall i, In i (UnifiedPlayer.downloadQueue s) ->
                 UnifiedPlayer.in_flight i = true -> UnifiedPlayer.named n i = true)
  | _ => False
  end.

(** What holds of the download queue between two events as long as no file
    name has been enqueued twice: file names are not repeated and the
    outstanding calls account for the items in flight. *)
Definition queue_invariant (s : UnifiedPlayer.QueueState) : Prop :=
  NoDup (map file_name (UnifiedPlayer.downloadQueue s)) /\ flight_accounted s.

(** The render committed last shows every file name of the queue. *)
Definition rendered_current (s : UnifiedPlayer.QueueState) : Prop :=
  forall i, In i (UnifiedPlayer.downloadQueue s) ->
    existsb (UnifiedPlayer.named (file_name i)) (UnifiedPlayer.rendered s) = true.

(** The events in which a render is committed between any two calls of the
    handler; [stale] says that the handler was called since the last
    render. *)
Fixpoint rendered_between_enqueues (stale : bool)
    (events : list UnifiedPlayer.QueueEvent) : bool :=
  match events with
  | [] => true
  | UnifiedPlayer.Enqueue _ :: rest => negb stale && rendered_between_enqueues true rest
  | UnifiedPlayer.RunEffect :: rest => rendered_between_enqueues false rest
  | UnifiedPlayer.BlobCallback _ _ _ :: rest => rendered_between_enqueues stale rest
  end.


(** The cue moved by [offset] from its present times. *)
Definition shifted (offset : Q) (c : DOM.TextTrackCue) : DOM.TextTrackCue :=
  {| DOM.identity := DOM.identity c;
     DOM.timing := {| DOM.startTime := DOM.startTime (DOM.timing c) + offset;
                      DOM.endTime := DOM.endTime (DOM.timing c) + offset |} |}.

(** The loader after its only proxy retry: still mounted, the requests
    made are [requested], and the live instance is the proxied one. *)
Definition proxied_session (originalUrl : string) (requested : list string)
    (s : Player.LoaderState) : Prop :=
  Player.isMounted s = true /\
  Player.requested s = requested /\
  exists h, Player.hls s = Some (h, true) /\
            Hls.source h = Player.proxy +:+ encodeURIComponent originalUrl.

End Spec.

(** ** Sample data *)

Module Examples.
Import Types UnifiedPlayer.

Definition sample_chapters : list Chapter :=
  [ {| timestamp := 0; name := "Intro" |};
    {| timestamp := 90; name := "Episode" |};
    {| timestamp := 1200; name := "Credits" |} ].

Definition video_at (t : Q) : DOM.HTMLVideoElement :=
  {| DOM.currentTime := t; DOM.duration := 1500; DOM.textTracks := [];
     DOM.play_calls := 0 |}.

Definition idle_TimeState : TimeState :=
  {| currentTime := 0; showSkipIntro := false; timeUpdateTimeoutRef := None |}.

Definition movie_id : string := "local-file-movie.mp4-1000-1700000000000".

(** A storage whose only content is the position [t] recorded for [id]. *)
Definition storage_with_position (id : string) (t : Q) : Storage.localStorage :=
  {| Storage.nexo_playback_positions := Some (JSON_stringify (<[id := t]> ∅));
     Storage.nexo_recent_magnets := None |}.

Definition storage_with_magnets (stored : option (text json)) : Storage.localStorage :=
  {| Storage.nexo_playback_positions := None;
     Storage.nexo_recent_magnets := stored |}.

(** An external subtitle file [English.srt] and the text track of the same
    label that the media element lists. *)
Definition english_external : SubtitleTrack :=
  {| src := "blob:nexo/1f0c"; label := "English"; srclang := "en" |}.

Definition english_textTrack : DOM.TextTrack :=
  {| DOM.kind := "subtitles"; DOM.label := "English"; DOM.language := "en";
     DOM.mode := DOM.disabled; DOM.cues := None |}.

Definition video_with_tracks (tracks : list DOM.TextTrack) : DOM.HTMLVideoElement :=
  {| DOM.currentTime := 0; DOM.duration := 1500; DOM.textTracks := tracks;
     DOM.play_calls := 0 |}.

(** The text track of a second [English] subtitle stream. *)
Definition english_embedded : DOM.TextTrack :=
  {| DOM.kind := "subtitles"; DOM.label := "English"; DOM.language := "eng";
     DOM.mode := DOM.disabled; DOM.cues := None |}.

Definition file_a : WebTorrent.TorrentFile :=
  {| WebTorrent.name := "episode-01.mkv"; WebTorrent.length := 734003200 |}.

Definition file_b : WebTorrent.TorrentFile :=
  {| WebTorrent.name := "episode-02.mkv"; WebTorrent.length := 734003200 |}.


Definition cue (id : positive) (startTime endTime : Q) : DOM.TextTrackCue :=
  {| DOM.identity := id;
     DOM.timing := {| DOM.startTime := startTime; DOM.endTime := endTime |} |}.

(** A video whose only text track is labelled [English] and lists [cues]. *)
Definition video_with_cues (cues : list DOM.TextTrackCue) : DOM.HTMLVideoElement :=
  video_with_tracks
    [ {| DOM.kind := "subtitles"; DOM.label := "English"; DOM.language := "en";
         DOM.mode := DOM.showing; DOM.cues := Some cues |} ].

Definition hls_platform : Player.Platform :=
  {| Player.Hls_isSupported := true; Player.canPlayType_mpegurl := false |}.

(** A browser without Media Source Extensions that plays HLS by itself. *)
Definition native_platform : Player.Platform :=
  {| Player.Hls_isSupported := false; Player.canPlayType_mpegurl := true |}.

Definition channel_url : string := "http://tv.example/live/one.m3u8".

End Examples.

(** ** The rest of types.ts *)

Module MoreTypes.

Record Channel : Type := {
  name : string;
  url : string;
  logo : option string;
  group : option string;
  tvgId : option string
}.

Record FavoritePlaylist : Type := {
  playlist_name : string;
  playlist_url : string;
  epgUrl : option string
}.

Inductive SubtitleSize : Type := small | normal | large.
Inductive SubtitleColor : Type := white | yellow.

Record SubtitleSettings : Type := {
  size : SubtitleSize;
  color : SubtitleColor;
  background : bool;
  offset : number
}.

(** [start] and [end] are UNIX timestamps in milliseconds. *)
Record EpgProgram : Type := {
  title : string;
  desc : option string;
  start : number;
  end_ : number
}.

(** [type EpgData = Map<string, EpgProgram[]>], in insertion order. *)
Abbreviation EpgData := (list (string * list EpgProgram)) (only parsing).

End MoreTypes.

(** ** How a call ends *)

Module Run.

(** A call returns a value or throws; the only exception met in the code
    modelled with it is the [SyntaxError] of an unguarded [JSON.parse]. *)
Inductive completion (A : Type) : Type :=
| Returned (value : A)
| Threw.
Arguments Returned {A} value.
Arguments Threw {A}.

Definition bind {A B} (c : completion A) (k : A -> completion B) : completion B :=
  match c with
  | Returned a => k a
  | Threw => Threw
  end.

(** [stored ? JSON.parse(stored) : fallback], with no [try] around it. *)
Definition parse_or {A} (stored : option (text A)) (fallback : A) : completion A :=
  match stored with
  | None => Returned fallback
  | Some t =>
      if falsy_text t then Returned fallback
      else match JSON_parse t with
           | Some v => Returned v
           | None => Threw
           end
  end.

End Run.

(** ** utils/storage.ts: the expiring caches *)

Module Cache.

(** [interface CachedData<T>] and [interface Cache<T>]. *)
Record CachedData (T : Type) : Type := {
  data : T;
  expiresAt : number
}.
Arguments data {T} _.
Arguments expiresAt {T} _.

Abbreviation Cache T := (gmap string (CachedData T)) (only parsing).

Definition PLAYLIST_CACHE_DURATION_MS : number := 1 * 60 * 60 * 1000.
Definition GEMINI_CACHE_DURATION_MS : number := 7 * 24 * 60 * 60 * 1000.

(** [getFromCache(key, url)], on the [localStorage] entry of [key]: what
    it returns ([None] for [null]) and the entry afterwards.  [now] is the
    value of [Date.now()]. *)
Definition getFromCache {T} (now : number) (stored : option (text (Cache T)))
    (url : string) : option T * option (text (Cache T)) :=
  match stored with
  | None => (None, None)
  | Some t =>
      if falsy_text t then (None, stored)
      else
        match JSON_parse t with
        | Some cache =>
            match cache !! url with
            | Some entry =>
                if num_lt now (expiresAt entry) then (Some (data entry), stored)
                else (None, Some (JSON_stringify (delete url cache)))
            | None => (None, stored)
            end
        | None => (None, None)
        end
  end.

(** [saveToCache(key, url, data, durationMs)]: the entry of [key]
    afterwards. *)
Definition saveToCache {T} (now : number) (stored : option (text (Cache T)))
    (url : string) (value : T) (durationMs : number) : option (text (Cache T)) :=
  let cache : Cache T :=
    match stored with
    | None => ∅
    | Some t =>
        if falsy_text t then ∅
        else match JSON_parse t with
             | Some parsed => parsed
             | None => ∅
             end
    end in
  Some (JSON_stringify
          (<[url := {| data := value; expiresAt := now + durationMs |}]> cache)).

(** The playlist cache, on the entry of [IPTV_PLAYLIST_CACHE_KEY]. *)
Definition getPlaylistFromCache (now : number)
    (stored : option (text (Cache (list MoreTypes.Channel)))) (url : string) :=
  getFromCache now stored url.

Definition cachePlaylist (now : number)
    (stored : option (text (Cache (list MoreTypes.Channel)))) (url : string)
    (channels : list MoreTypes.Channel) :=
  saveToCache now stored url channels PLAYLIST_CACHE_DURATION_MS.

(** The chapter cache, on the entry of [GEMINI_CHAPTERS_CACHE_KEY]. *)
Definition getChaptersFromCache (now : number)
    (stored : option (text (Cache (list Types.Chapter)))) (key : string) :=
  getFromCache now stored key.

Definition cacheChapters (now : number)
    (stored : option (text (Cache (list Types.Chapter)))) (key : string)
    (chapters : list Types.Chapter) :=
  saveToCache now stored key chapters GEMINI_CACHE_DURATION_MS.



End Cache.

(** ** utils/storage.ts: subtitle settings and last watched media *)

Module Settings.
Import MoreTypes.

(** What [JSON.parse] gives for the stored settings: an object that may
    lack any of the fields. *)
Record StoredSettings : Type := {
  stored_size : option SubtitleSize;
  stored_color : option SubtitleColor;
  stored_background : option bool;
  stored_offset : option number
}.

Definition defaultSubtitleSettings : SubtitleSettings :=
  {| size := normal; color := white; background := true; offset := 0 |}.

(** [{ ...defaults, ...parsed }] *)
Definition spread (defaults : SubtitleSettings) (parsed : StoredSettings)
  : SubtitleSettings :=
  {| size := default (size defaults) (stored_size parsed);
     color := default (color defaults) (stored_color parsed);
     background := default (background defaults) (stored_background parsed);
     offset := default (offset defaults) (stored_offset parsed) |}.

Definition getSubtitleSettings (stored : option (text StoredSettings))
  : SubtitleSettings :=
  match stored with
  | None => defaultSubtitleSettings
  | Some t =>
      if falsy_text t then defaultSubtitleSettings
      else match JSON_parse t with
           | Some parsed => spread defaultSubtitleSettings parsed
           | None => defaultSubtitleSettings
           end
  end.

(** [JSON.stringify(settings)] writes every field. *)
Definition setSubtitleSettings (settings : SubtitleSettings)
  : option (text StoredSettings) :=
  Some (JSON_stringify
          {| stored_size := Some (size settings);
             stored_color := Some (color settings);
             stored_background := Some (background settings);
             stored_offset := Some (offset settings) |}).

End Settings.

(** ** utils/storage.ts: playlist history and recent magnets *)

Module History.
Import Run.

Definition MAX_RECENT_MAGNETS : nat := 5.

(** [history.length > max ? history.slice(0, max) : history] *)
Definition capped {A} (max : nat) (l : list A) : list A :=
  if Nat.ltb max (List.length l) then firstn max l else l.

Definition getIptvHistory (stored : option (text (list string)))
  : completion (list string) :=
  parse_or stored [].


Definition removeIptvUrl (stored : option (text (list string))) (url : string)
  : completion (option (text (list string))) :=
  bind (getIptvHistory stored) (fun history =>
    Returned (Some (JSON_stringify
                      (List.filter (fun h => negb (String.eqb h url)) history)))).

Definition setItem_RECENT_MAGNETS_KEY (value : text json)
    (ls : Storage.localStorage) : Storage.localStorage :=
  {| Storage.nexo_playback_positions := Storage.nexo_playback_positions ls;
     Storage.nexo_recent_magnets := Some value |}.

(** [m !== magnet] for an element of the parsed array. *)
Definition differs_from (magnet : string) (m : json) : bool :=
  match m with
  | JString s => negb (String.eqb s magnet)
  | _ => true
  end.

Definition addRecentMagnet (ls : Storage.localStorage) (magnet : string)
  : Storage.localStorage :=
  if negb (startsWith magnet "magnet:?") then ls
  else
    let recents := Storage.getRecentMagnets ls in
    let recents := List.filter (differs_from magnet) recents in
    let recents := JString magnet :: recents in
    setItem_RECENT_MAGNETS_KEY
      (JSON_stringify (JArray (capped MAX_RECENT_MAGNETS recents))) ls.

End History.

(** ** utils/storage.ts and hooks/useFavorites.ts: favorites *)

Module Favorites.
Import Run MoreTypes.

Definition getFavoritePlaylists (stored : option (text (list FavoritePlaylist)))
  : completion (list FavoritePlaylist) :=
  parse_or stored [].

Definition setFavoritePlaylists (playlists : list FavoritePlaylist)
  : option (text (list FavoritePlaylist)) :=
  Some (JSON_stringify playlists).

Definition has_url (u : string) (fav : FavoritePlaylist) : bool :=
  String.eqb (playlist_url fav) u.

(** Each of the three functions below gives the entry of
    [FAVORITE_PLAYLISTS_KEY] afterwards. *)
Definition addFavoritePlaylist (stored : option (text (list FavoritePlaylist)))
    (playlist : FavoritePlaylist)
  : completion (option (text (list FavoritePlaylist))) :=
  bind (getFavoritePlaylists stored) (fun favorites =>
    if negb (existsb (has_url (playlist_url playlist)) favorites)
    then Returned (setFavoritePlaylists (favorites ++ [playlist]))
    else Returned stored).

Definition removeFavoritePlaylist (stored : option (text (list FavoritePlaylist)))
    (u : string) : completion (option (text (list FavoritePlaylist))) :=
  bind (getFavoritePlaylists stored) (fun favorites =>
    Returned (setFavoritePlaylists
                (List.filter (fun fav => negb (has_url u fav)) favorites))).

(** [newEpgUrl || fav.epgUrl] *)
Definition or_epgUrl (newEpgUrl old : option string) : option string :=
  match newEpgUrl with
  | Some s => if truthy_string s then Some s else old
  | None => old
  end.

Definition updateFavoritePlaylist (stored : option (text (list FavoritePlaylist)))
    (u newName : string) (newEpgUrl : option string)
  : completion (option (text (list FavoritePlaylist))) :=
  bind (getFavoritePlaylists stored) (fun favorites =>
    Returned (setFavoritePlaylists
                (map (fun fav =>
                        if has_url u fav
                        then {| playlist_name := newName;
                                playlist_url := playlist_url fav;
                                epgUrl := or_epgUrl newEpgUrl (epgUrl fav) |}
                        else fav) favorites))).

Definition getFavoriteChannels (stored : option (text (list Channel)))
  : completion (list Channel) :=
  parse_or stored [].

Definition setFavoriteChannels (channels : list Channel)
  : option (text (list Channel)) :=
  Some (JSON_stringify channels).

(** [useFavorites]: [isFavorite] and [toggleFavorite] over the [favorites]
    state; the toggle gives the new state and the entry of
    [FAVORITE_CHANNELS_KEY]. *)
Definition isFavorite (favorites : list Channel) (channel : Channel) : bool :=
  existsb (fun fav => String.eqb (url fav) (url channel)) favorites.

Definition toggleFavorite (favorites : list Channel) (channel : Channel)
  : list Channel * option (text (list Channel)) :=
  let updatedFavorites :=
    if isFavorite favorites channel
    then List.filter (fun fav => negb (String.eqb (url fav) (url channel))) favorites
    else favorites ++ [channel] in
  (updatedFavorites, setFavoriteChannels updatedFavorites).

End Favorites.

(** ** More of the [UnifiedPlayer] component *)

Module Controls.

(** [Math.min] and [Math.max] of two numbers. *)
Definition Math_min (a b : number) : number := if num_lt b a then b else a.
Definition Math_max (a b : number) : number := if num_gt b a then b else a.

(** Truncation toward zero and the remainder [a % b] it defines. *)
Definition truncate (x : number) : Z := Z.quot (Qnum x) (Z.pos (Qden x)).
Definition remainder (a b : number) : number := a - b * inject_Z (truncate (a / b)).

(** The parts that [formatTimeRemaining] pushes, for whole numbers of
    hours, minutes and seconds. *)
Definition time_parts (hours minutes seconds : Z) : list string :=
  (if (0 <? hours)%Z then [pretty hours +:+ "h"] else [])
  ++ (if (0 <? minutes)%Z then [pretty minutes +:+ "m"] else [])
  ++ (if (hours =? 0)%Z && (0 <? seconds)%Z then [pretty seconds +:+ "s"] else []).

(** [formatTimeRemaining], for a finite number of seconds. *)
Definition formatTimeRemaining (totalSeconds : number) : string :=
  if num_lt totalSeconds 0 then "∞"
  else if num_lt totalSeconds 1 then "Done"
  else
    let hours := Qfloor (totalSeconds / 3600) in
    let minutes := Qfloor (remainder totalSeconds 3600 / 60) in
    let seconds := Qfloor (remainder totalSeconds 60) in
    or_string (String.concat " " (time_parts hours minutes seconds)) "...".






(** The seek targets of the arrow keys: [Math.max(0, currentTime - 5)] and
    [Math.min(duration, currentTime + 5)]. *)
Definition arrowLeft_target (currentTime : number) : number :=
  Math_max 0 (currentTime - 5).

Definition arrowRight_target (duration currentTime : number) : number :=
  Math_min duration (currentTime + 5).

(** [handleTogglePriority], on the set of prioritized file names. *)
Definition handleTogglePriority (prev : gset string) (fileName : string) : gset string :=
  if bool_decide (fileName ∈ prev) then prev ∖ {[fileName]} else prev ∪ {[fileName]}.

(** The effect on [prioritizedFiles], for a torrent with files: for each
    file, [true] when [select()] is called on it and [false] when
    [deselect()] is. *)
Definition prioritySelection (prioritizedFiles : gset string)
    (files : list WebTorrent.TorrentFile) : list bool :=
  if bool_decide (0 < size prioritizedFiles) then
    map (fun f => bool_decide (WebTorrent.name f ∈ prioritizedFiles)) files
  else map (fun _ => true) files.

(** [Array.prototype.sort(compare)]: the sort is stable, so for a
    comparator that orders consistently its result is the one of this
    insertion sort. *)
Fixpoint sort_insert {A} (compare : A -> A -> Z) (x : A) (l : list A) : list A :=
  match l with
  | [] => [x]
  | y :: rest =>
      if (compare x y <=? 0)%Z then x :: y :: rest
      else y :: sort_insert compare x rest
  end.

Definition Array_sort {A} (compare : A -> A -> Z) (l : list A) : list A :=
  fold_right (sort_insert compare) [] l.

(** [displayedFiles]; [toLowerCase] is [String.prototype.toLowerCase] and
    [localeCompare] the collation, both as the browser has them. *)
Definition displayedFiles (toLowerCase : string -> string)
    (localeCompare : string -> string -> Z)
    (files : option (list WebTorrent.TorrentFile))
    (torrentFileFilter torrentFileSort : string) : list WebTorrent.TorrentFile :=
  match files with
  | None => []
  | Some files =>
      let filtered :=
        List.filter
          (fun f => includes (toLowerCase (WebTorrent.name f))
                             (toLowerCase torrentFileFilter)) files in
      if String.eqb torrentFileSort "name_asc" then
        Array_sort (fun a b => localeCompare (WebTorrent.name a) (WebTorrent.name b)) filtered
      else if String.eqb torrentFileSort "name_desc" then
        Array_sort (fun a b => localeCompare (WebTorrent.name b) (WebTorrent.name a)) filtered
      else if String.eqb torrentFileSort "size_desc" then
        Array_sort (fun a b => (Z.of_N (WebTorrent.length b) - Z.of_N (WebTorrent.length a))%Z)
                   filtered
      else if String.eqb torrentFileSort "size_asc" then
        Array_sort (fun a b => (Z.of_N (WebTorrent.length a) - Z.of_N (WebTorrent.length b))%Z)
                   filtered
      else filtered
  end.

(** The media identities, as the component forms them. *)
Definition local_mediaId (fileName : string) (fileSize lastModified : N) : string :=
  "local-file-" +:+ fileName +:+ "-" +:+ pretty fileSize +:+ "-" +:+ pretty lastModified.

Definition iptv_mediaId (channelUrl : string) : string :=
  "iptv-channel-" +:+ channelUrl.

Definition torrent_mediaId (infoHash fileName : string) : string :=
  "torrent-" +:+ infoHash +:+ "-" +:+ fileName.

(** The names that every object inherits from [Object.prototype]. *)
Definition Object_prototype_names : list string :=
  [ "constructor"; "hasOwnProperty"; "isPrototypeOf"; "propertyIsEnumerable";
    "toLocaleString"; "toString"; "valueOf"; "__proto__";
    "__defineGetter__"; "__defineSetter__"; "__lookupGetter__"; "__lookupSetter__" ].

End Controls.

(** ** The programme guide in the sidebar and the media information *)

Module Guide.
Import MoreTypes.

(** [a >= b] on numbers. *)
Definition num_ge (a b : number) : bool := Qle_bool b a.

Definition on_air (now : number) (p : EpgProgram) : bool :=
  num_ge now (start p) && num_lt now (end_ p).

(** [epgData.get(channel.tvgId)], under the guards on [epgData] and
    [channel.tvgId] that both hooks have. *)
Definition channelPrograms (channel : Channel) (epgData : option EpgData)
  : option (list EpgProgram) :=
  match epgData, tvgId channel with
  | Some epg, Some id => if truthy_string id then JSMap.get id epg else None
  | _, _ => None
  end.

(** [useCurrentProgram] of the sidebar: the programme on air and how far
    it has run, in percent. *)
Definition useCurrentProgram (now : number) (channel : Channel)
    (epgData : option EpgData) : option EpgProgram * number :=
  let program :=
    match channelPrograms channel epgData with
    | Some programs => find (on_air now) programs
    | None => None
    end in
  let progress :=
    match program with
    | None => 0%Q
    | Some p =>
        let duration := (end_ p - start p)%Q in
        let elapsed := (now - start p)%Q in
        (elapsed / duration * 100)%Q
    end in
  (program, progress).

(** [findPrograms] of [useEpgForChannel]: the programme on air and the
    one that follows. *)
Definition findPrograms (now : number) (channel : Channel)
    (epgData : option EpgData) : option EpgProgram * option EpgProgram :=
  match channelPrograms channel epgData with
  | None => (None, None)
  | Some programs =>
      let current := find (on_air now) programs in
      let next :=
        match current with
        | Some c => find (fun p => num_ge (start p) (end_ c)) programs
        | None => None
        end in
      (current, next)
  end.

End Guide.

(** Sample data of the programme guide. *)
Module GuideExamples.
Import MoreTypes.

Definition channel_one : Channel :=
  {| name := "One"; url := "http://tv.example/live/one.m3u8"; logo := None;
     group := None; tvgId := Some "one.tv" |}.

Definition news : EpgProgram :=
  {| title := "News"; desc := None; start := 0; end_ := 1800000 |}.

Definition weather : EpgProgram :=
  {| title := "Weather"; desc := None; start := 1800000; end_ := 2100000 |}.

Definition guide_one : list (string * list EpgProgram) :=
  [("one.tv", [news; weather])].

End GuideExamples.

(** Sample files of a torrent. *)
Module FileExamples.

Definition trailer : WebTorrent.TorrentFile :=
  {| WebTorrent.name := "Trailer.mp4"; WebTorrent.length := 52428800 |}.

Definition feature : WebTorrent.TorrentFile :=
  {| WebTorrent.name := "Feature.mkv"; WebTorrent.length := 2147483648 |}.

Definition extras : WebTorrent.TorrentFile :=
  {| WebTorrent.name := "Extras.mkv"; WebTorrent.length := 734003200 |}.

End FileExamples.

(* ================================================================== *)
(** * Properties *)
(* ================================================================== *)

(** ** Numbers, strings and lists *)

Lemma num_gt_spec (a b : Q) : num_gt a b = true <-> (b < a)%Q.
Proof.
  unfold num_gt. rewrite negb_true_iff. split.
  - intros H. apply Qnot_le_lt. intros Hle.
    apply Qle_bool_iff in Hle. congruence.
  - intros H. destruct (Qle_bool a b) eqn:E; [|reflexivity].
    apply Qle_bool_iff in E. exfalso. exact (Qlt_not_le _ _ H E).
Qed.

Lemma num_lt_spec (a b : Q) : num_lt a b = true <-> (a < b)%Q.
Proof. unfold num_lt. apply num_gt_spec. Qed.

Lemma num_gt_false (a b : Q) : num_gt a b = false <-> (a <= b)%Q.
Proof.
  unfold num_gt. rewrite negb_false_iff. apply Qle_bool_iff.
Qed.

Lemma truthy_number_gt5 (t : Q) : (5 < t)%Q -> truthy_number t = true.
Proof.
  intros H. unfold truthy_number. rewrite negb_true_iff.
  destruct (Qeq_bool t 0) eqn:E; [|reflexivity].
  apply Qeq_bool_iff in E. rewrite E in H. discriminate H.
Qed.

Lemma startsWith_spec (s pre : string) :
  startsWith s pre = true <-> exists post, s = pre +:+ post.
Proof.
  revert s. induction pre as [|p pre IH]; intros s; simpl.
  - split; [intros _; exists s; reflexivity | reflexivity].
  - destruct s as [|c s].
    + split; [discriminate | intros [post H]; discriminate H].
    + rewrite andb_true_iff, Ascii.eqb_eq, IH. split.
      * intros [-> [post ->]]. exists post. reflexivity.
      * intros [post H]. injection H as -> ->. split; [reflexivity | eauto].
Qed.

Lemma includes_spec (s sub : string) :
  includes s sub = true <-> exists pre post, s = pre +:+ sub +:+ post.
Proof.
  induction s as [|c s IH].
  - simpl. rewrite orb_false_r, startsWith_spec. split.
    + intros [post H]. exists EmptyString, post. exact H.
    + intros [pre [post H]]. destruct pre; [|discriminate H].
      exists post. exact H.
  - cbn [includes]. rewrite orb_true_iff, startsWith_spec, IH. split.
    + intros [[post H] | [pre [post H]]].
      * exists EmptyString, post. exact H.
      * exists (String c pre), post. simpl. rewrite H. reflexivity.
    + intros [pre [post H]]. destruct pre as [|c' pre].
      * left. exists post. exact H.
      * right. simpl in H. injection H as _ H. exists pre, post. exact H.
Qed.

Lemma find_first_split {A} (f : A -> bool) (l : list A) (x : A) :
  find f l = Some x <->
  exists l1 l2, l = l1 ++ x :: l2 /\ f x = true /\ Forall (fun y => f y = false) l1.
Proof.
  induction l as [|a l IH]; simpl.
  - split; [discriminate|]. intros (l1 & l2 & H & _). destruct l1; discriminate H.
  - destruct (f a) eqn:Fa.
    + split.
      * intros [= ->]. exists [], l. repeat split; [assumption | constructor].
      * intros (l1 & l2 & H & Hx & Hall). destruct l1 as [|b l1].
        -- injection H as -> _. reflexivity.
        -- injection H as -> _. inversion Hall; congruence.
    + rewrite IH. split.
      * intros (l1 & l2 & -> & Hx & Hall). exists (a :: l1), l2.
        repeat split; [assumption | constructor; assumption].
      * intros (l1 & l2 & H & Hx & Hall). destruct l1 as [|b l1].
        -- injection H as -> _. congruence.
        -- injection H as -> ->. inversion Hall; subst. exists l1, l2. auto.
Qed.

Lemma StronglySorted_after {A} (R : A -> A -> Prop) (l1 l2 : list A) (x : A) :
  StronglySorted R (l1 ++ x :: l2) -> forall y, In y l2 -> R x y.
Proof.
  induction l1 as [|a l1 IH]; simpl; intros HS y Hy.
  - inversion HS as [|? ? _ Hall]; subst.
    rewrite List.Forall_forall in Hall. auto.
  - inversion HS; subst. eauto.
Qed.

Lemma ascending_strongly (chapters : list Types.Chapter) :
  Spec.ascending chapters ->
  StronglySorted (fun a b => (Types.timestamp a <= Types.timestamp b)%Q) chapters.
Proof.
  apply Sorted_StronglySorted. intros a b c. apply Qle_trans.
Qed.

(** ** Chapters: the skip-intro window *)

Section intro_window.
Import Types UnifiedPlayer Spec Examples.

Lemma names_intro_find (c : Chapter) :
  includes (toLowerCase (name c)) "intro" = true <-> names_intro c.
Proof. apply includes_spec. Qed.

Lemma find_intro_first (chapters : list Chapter) (intro : Chapter) :
  find_intro chapters = Some intro <-> first_intro chapters intro.
Proof.
  unfold find_intro, first_intro. rewrite find_first_split.
  split; intros (l1 & l2 & -> & Hx & Hall); exists l1, l2;
    (split; [reflexivity|]); rewrite names_intro_find in *;
    (split; [assumption|]); eapply Forall_impl; try exact Hall;
    intros c Hc; cbv beta in *.
  - rewrite <- names_intro_find. congruence.
  - rewrite <- names_intro_find in Hc.
    destruct (includes (toLowerCase (name c)) "intro"); [tauto | reflexivity].
Qed.

Lemma find_introEnd_next (chapters : list Chapter) (intro e : Chapter) :
  ascending chapters ->
  find_introEnd chapters (Some intro) = Some e ->
  next_after chapters intro e.
Proof.
  intros Hsorted Hfind. simpl in Hfind.
  destruct (find_some _ _ Hfind) as [Hin Hgt].
  apply num_gt_spec in Hgt.
  apply find_first_split in Hfind as (l1 & l2 & Heq & _ & Hall).
  repeat split; [assumption | assumption |].
  intros c Hc Hlt. subst chapters.
  apply in_app_or in Hc as [Hc | [<- | Hc]].
  - rewrite List.Forall_forall in Hall. apply Hall in Hc.
    apply num_gt_false in Hc. exfalso. exact (Qlt_not_le _ _ Hlt Hc).
  - apply Qle_refl.
  - apply ascending_strongly in Hsorted.
    exact (StronglySorted_after _ _ _ _ Hsorted c Hc).
Qed.

Lemma next_after_find (chapters : list Chapter) (intro next : Chapter) :
  next_after chapters intro next ->
  exists e, find_introEnd chapters (Some intro) = Some e /\
            (timestamp next <= timestamp e)%Q.
Proof.
  intros (Hin & Hlt & Hmin). simpl.
  destruct (find (fun c => num_gt (timestamp c) (timestamp intro)) chapters)
    as [e|] eqn:Hfind.
  - exists e. split; [reflexivity|].
    destruct (find_some _ _ Hfind) as [He Hgt]. apply num_gt_spec in Hgt. auto.
  - pose proof (find_none _ _ Hfind next Hin) as Hno. cbv beta in Hno.
    apply num_gt_false in Hno. exfalso. exact (Qlt_not_le _ _ Hlt Hno).
Qed.

Lemma isInIntroWindow_open (chapters : list Chapter) (time : Q) :
  ascending chapters ->
  isInIntroWindow chapters time = true <->
  exists intro next,
    first_intro chapters intro /\ next_after chapters intro next /\
    (timestamp intro < time)%Q /\ (time < timestamp next)%Q.
Proof.
  intros Hsorted. unfold isInIntroWindow. split.
  - destruct (find_intro chapters) as [i|] eqn:Hi; [|discriminate].
    destruct (find_introEnd chapters (Some i)) as [e|] eqn:He; [|discriminate].
    rewrite andb_true_iff, num_gt_spec, num_lt_spec. intros [H1 H2].
    exists i, e. repeat split; try assumption.
    + apply find_intro_first in Hi. exact Hi.
    + apply (find_introEnd_next chapters i e Hsorted He).
    + apply (find_introEnd_next chapters i e Hsorted He).
    + apply (find_introEnd_next chapters i e Hsorted He).
  - intros (intro & next & Hfirst & Hnext & H1 & H2).
    apply find_intro_first in Hfirst. rewrite Hfirst.
    destruct (next_after_find _ _ _ Hnext) as (e & -> & Hle).
    rewrite andb_true_iff, num_gt_spec, num_lt_spec. split; [assumption|].
    eapply Qlt_le_trans; eassumption.
Qed.

(** C2, as the code has it.  For chapters in ascending order of timestamp,
    a [timeupdate] at playback time [t] shows the skip button exactly when
    the list has a first chapter whose name contains "intro" (whatever the
    case), a next chapter strictly after it by timestamp, and [t] lies
    strictly between the two timestamps: the window is open at both ends.
    If no chapter follows the intro chapter there is no window and the skip
    action does nothing. *)
Theorem skip_intro_window (chapters : list Chapter) (mediaId : option string)
    (video : DOM.HTMLVideoElement) (s : TimeState) :
  ascending chapters ->
  (showSkipIntro (onTimeUpdate (Some chapters) mediaId video s) = true <->
   exists intro next,
     first_intro chapters intro /\ next_after chapters intro next /\
     (timestamp intro < DOM.currentTime video)%Q /\
     (DOM.currentTime video < timestamp next)%Q) /\
  ((forall intro c, first_intro chapters intro -> In c chapters ->
      ~ (timestamp intro < timestamp c)%Q) ->
   showSkipIntro (onTimeUpdate (Some chapters) mediaId video s) = false /\
   forall v shown, handleSkipIntro (Some chapters) v shown = (v, shown)).
Proof.
  intros Hsorted. split.
  - cbn [onTimeUpdate showSkipIntro]. apply isInIntroWindow_open. exact Hsorted.
  - intros Hnone.
    assert (Hend : find_introEnd chapters (find_intro chapters) = None).
    { destruct (find_intro chapters) as [i|] eqn:Hi; [|reflexivity].
      destruct (find_introEnd chapters (Some i)) as [e|] eqn:He; [|reflexivity].
      exfalso. apply find_intro_first in Hi.
      destruct (find_introEnd_next _ _ _ Hsorted He) as (Hin & Hlt & _).
      exact (Hnone i e Hi Hin Hlt). }
    split.
    + cbn [onTimeUpdate showSkipIntro]. unfold isInIntroWindow. rewrite Hend.
      destruct (find_intro chapters); reflexivity.
    + intros v shown. unfold handleSkipIntro. rewrite Hend.
      destruct v; reflexivity.
Qed.

Lemma sample_chapters_ascending : ascending sample_chapters.
Proof.
  unfold ascending, sample_chapters.
  repeat (constructor; try (cbn; discriminate)).
Qed.

Lemma sample_chapters_intro :
  first_intro sample_chapters {| timestamp := 0; name := "Intro" |} /\
  next_after sample_chapters {| timestamp := 0; name := "Intro" |}
    {| timestamp := 90; name := "Episode" |}.
Proof.
  split.
  - exists [], [ {| timestamp := 90; name := "Episode" |};
                 {| timestamp := 1200; name := "Credits" |} ].
    split; [reflexivity|]. split; [|constructor].
    exists "", "". reflexivity.
  - split; [right; left; reflexivity|]. split; [reflexivity|].
    intros c [<- | [<- | [<- | []]]]; cbn; intros H; try discriminate; exact H.
Qed.

Lemma skip_intro_window_witness :
  ascending sample_chapters /\
  showSkipIntro (onTimeUpdate (Some sample_chapters) None (video_at 45) idle_TimeState)
  = true.
Proof.
  split; [exact sample_chapters_ascending|].
  apply (skip_intro_window sample_chapters None (video_at 45) idle_TimeState
           sample_chapters_ascending).
  exists {| timestamp := 0; name := "Intro" |}, {| timestamp := 90; name := "Episode" |}.
  split; [apply sample_chapters_intro|]. split; [apply sample_chapters_intro|].
  split; reflexivity.
Defined.

(** C2, as stated, fails at the start of the window: with the chapters
    [Intro] at 0, [Episode] at 90 and [Credits] at 1200 and playback at
    [t = 0], the time lies in the half-open interval from 0 to 90, yet the
    button is not shown. *)
Lemma skip_intro_window_excludes_start :
  ascending sample_chapters /\
  ~ (showSkipIntro (onTimeUpdate (Some sample_chapters) None (video_at 0) idle_TimeState)
     = true <->
     exists intro next,
       first_intro sample_chapters intro /\ next_after sample_chapters intro next /\
       (timestamp intro <= DOM.currentTime (video_at 0))%Q /\
       (DOM.currentTime (video_at 0) < timestamp next)%Q).
Proof.
  split; [exact sample_chapters_ascending|]. intros [_ H].
  assert (Hshown : showSkipIntro
            (onTimeUpdate (Some sample_chapters) None (video_at 0) idle_TimeState) = true).
  { apply H.
    exists {| timestamp := 0; name := "Intro" |}, {| timestamp := 90; name := "Episode" |}.
    split; [apply sample_chapters_intro|]. split; [apply sample_chapters_intro|].
    split; [cbn; discriminate | reflexivity]. }
  discriminate Hshown.
Qed.

End intro_window.

(** ** Storage helpers *)

Section storage_facts.
Import Storage Spec Examples.

Lemma getPlaybackPosition_set (ls : localStorage) (id id' : string) (t : Q) :
  getPlaybackPosition (setPlaybackPosition ls id t) id' =
  if decide (id = id') then or_null (Some t) else getPlaybackPosition ls id'.
Proof.
  unfold getPlaybackPosition, setPlaybackPosition. cbn.
  destruct (decide (id = id')) as [->|Hne].
  - rewrite lookup_insert_eq. reflexivity.
  - rewrite lookup_insert_ne by assumption.
    destruct (nexo_playback_positions ls) as [[| |positions]|]; reflexivity.
Qed.

Lemma getPlaybackPosition_clear (ls : localStorage) (id id' : string) :
  getPlaybackPosition (clearPlaybackPosition ls id) id' =
  if decide (id = id') then None else getPlaybackPosition ls id'.
Proof.
  unfold getPlaybackPosition, clearPlaybackPosition.
  destruct (nexo_playback_positions ls) as [[| |positions]|] eqn:E; cbn;
    rewrite ?E; cbn; try (destruct (decide (id = id')); reflexivity).
  destruct (decide (id = id')) as [->|Hne].
  - rewrite lookup_delete_eq. reflexivity.
  - rewrite lookup_delete_ne by assumption. reflexivity.
Qed.

Lemma getPlaybackPosition_no_record (ls : localStorage) (mediaId : string) :
  no_record ls mediaId -> getPlaybackPosition ls mediaId = None.
Proof.
  unfold no_record, getPlaybackPosition.
  destruct (nexo_playback_positions ls) as [[| |positions]|]; cbn;
    try reflexivity.
  intros ->. reflexivity.
Qed.

(** C9. Reading the recent-magnets list: with no stored entry the result
    is the one-element list holding the built-in example magnet; a stored
    entry that parses to an array is returned as it is, so a stored empty
    array gives the empty list and not the example; a stored entry that
    does not parse, or parses to something that is not an array, gives the
    empty list. *)
Theorem getRecentMagnets_cases (ls : localStorage) :
  (nexo_recent_magnets ls = None ->
   getRecentMagnets ls = [JString EXAMPLE_MAGNET]) /\
  (forall stored items,
     nexo_recent_magnets ls = Some stored ->
     JSON_parse stored = Some (JArray items) ->
     getRecentMagnets ls = items) /\
  (forall stored,
     nexo_recent_magnets ls = Some stored ->
     JSON_parse stored = None \/
     (exists parsed, JSON_parse stored = Some parsed /\ as_array parsed = None) ->
     getRecentMagnets ls = []).
Proof.
  unfold getRecentMagnets. repeat split.
  - intros ->. reflexivity.
  - intros stored items -> ->. reflexivity.
  - intros stored -> [-> | (parsed & -> & ->)]; reflexivity.
Qed.

Lemma getRecentMagnets_cases_witness :
  getRecentMagnets (storage_with_magnets None) = [JString EXAMPLE_MAGNET] /\
  getRecentMagnets (storage_with_magnets (Some (JsonText (JArray [])))) = [] /\
  getRecentMagnets
    (storage_with_magnets (Some (JsonText (JArray [JString "magnet:?xt=urn:btih:abc"]))))
  = [JString "magnet:?xt=urn:btih:abc"] /\
  getRecentMagnets (storage_with_magnets (Some (BadText "[oops"))) = [] /\
  getRecentMagnets (storage_with_magnets (Some (JsonText (JObject [])))) = [].
Proof.
  split; [|split; [|split; [|split]]].
  - apply (proj1 (getRecentMagnets_cases (storage_with_magnets None))). reflexivity.
  - apply (proj1 (proj2 (getRecentMagnets_cases
                           (storage_with_magnets (Some (JsonText (JArray []))))))
             (JsonText (JArray [])) []); reflexivity.
  - apply (proj1 (proj2 (getRecentMagnets_cases
                           (storage_with_magnets
                              (Some (JsonText (JArray [JString "magnet:?xt=urn:btih:abc"]))))))
             (JsonText (JArray [JString "magnet:?xt=urn:btih:abc"]))
             [JString "magnet:?xt=urn:btih:abc"]); reflexivity.
  - apply (proj2 (proj2 (getRecentMagnets_cases
                           (storage_with_magnets (Some (BadText "[oops")))))
             (BadText "[oops")); [reflexivity|]. left. reflexivity.
  - apply (proj2 (proj2 (getRecentMagnets_cases
                           (storage_with_magnets (Some (JsonText (JObject []))))))
             (JsonText (JObject []))); [reflexivity|].
    right. exists (JObject []). split; reflexivity.
Defined.

(** C10. A recorded position of [0] cannot be told from no record: after
    [setPlaybackPosition mediaId 0], whatever the storage held before,
    [getPlaybackPosition mediaId] is absent. *)
Theorem getPlaybackPosition_after_set_zero (ls : localStorage) (mediaId : string) :
  getPlaybackPosition (setPlaybackPosition ls mediaId 0) mediaId = None.
Proof.
  rewrite getPlaybackPosition_set. rewrite decide_True by reflexivity. reflexivity.
Qed.

End storage_facts.

(** ** The position recorder *)

Section position_recorder.
Import Storage UnifiedPlayer Spec Examples.

Lemma finished_ratio_positive (time duration : Q) :
  (0 < duration)%Q -> (95 # 100 < time / duration)%Q -> (0 < time)%Q.
Proof.
  intros Hd Hr.
  assert (Hne : ~ (duration == 0)%Q).
  { intros E. rewrite E in Hd. discriminate Hd. }
  assert (H : ((95 # 100) * duration < time / duration * duration)%Q).
  { apply Qmult_lt_compat_r; assumption. }
  assert (E : (time / duration * duration == time)%Q) by (field; assumption).
  rewrite E in H.
  eapply Qlt_trans; [|exact H].
  apply Qmult_lt_0_compat; [reflexivity | assumption].
Qed.

(** C5, as the code has it.  A playback-time update that finds no write
    pending is the one the timer will write, with the time it carried and the duration read when
    the timer fires.  When that write runs for a media identity, with a
    known duration and [time / duration > 0.95], the stored position of
    that identity is cleared and none is recorded: recalling it afterwards
    gives nothing.  Whatever the arguments, a position that can be recalled
    after the write and could not before is the written [time], and then
    [time / duration > 0.95] does not hold.  Recalling an identity that has
    no record returns absent. *)
Theorem finished_position_cleared_not_recorded :
  (forall (chapters : option (list Types.Chapter)) (mediaId : option string)
          (video later : DOM.HTMLVideoElement) (s : TimeState) (ls : localStorage),
     timeUpdateTimeoutRef s = None ->
     snd (timeUpdateTimeout_fires later (onTimeUpdate chapters mediaId video s) ls)
     = timeUpdateTimeout_callback mediaId (DOM.currentTime video)
         (DOM.duration later) ls) /\
  (forall (ls : localStorage) (mediaId : string) (time duration : Q),
     mediaId <> "" -> (0 < duration)%Q -> (95 # 100 < time / duration)%Q ->
     timeUpdateTimeout_callback (Some mediaId) time duration ls
     = clearPlaybackPosition ls mediaId /\
     getPlaybackPosition
       (timeUpdateTimeout_callback (Some mediaId) time duration ls) mediaId = None) /\
  (forall (ls : localStorage) (mediaId : option string) (time duration : Q)
          (id : string) (t : Q),
     getPlaybackPosition (timeUpdateTimeout_callback mediaId time duration ls) id
     = Some t ->
     getPlaybackPosition ls id = Some t \/
     (mediaId = Some id /\ t = time /\ ~ (95 # 100 < time / duration)%Q)) /\
  (forall (ls : localStorage) (mediaId : string),
     no_record ls mediaId -> getPlaybackPosition ls mediaId = None).
Proof.
  split; [|split; [|split]].
  - intros chapters mediaId video later s ls Hidle.
    unfold timeUpdateTimeout_fires, onTimeUpdate. cbn. rewrite Hidle. reflexivity.
  - intros ls mediaId time duration Hid Hd Hr.
    assert (Hbranch : timeUpdateTimeout_callback (Some mediaId) time duration ls
                      = clearPlaybackPosition ls mediaId).
    { unfold timeUpdateTimeout_callback.
      assert (truthy_string mediaId = true) as ->
        by (destruct mediaId; [congruence | reflexivity]).
      assert (num_gt time 0 = true) as ->
        by (apply num_gt_spec; eapply finished_ratio_positive; eassumption).
      assert (num_gt duration 0 = true) as -> by (apply num_gt_spec; assumption).
      assert (num_gt (time / duration) (95 # 100) = true) as ->
        by (apply num_gt_spec; assumption).
      reflexivity. }
    split; [exact Hbranch|].
    rewrite Hbranch, getPlaybackPosition_clear, decide_True by reflexivity.
    reflexivity.
  - intros ls mediaId time duration id t.
    unfold timeUpdateTimeout_callback.
    destruct mediaId as [m|]; [|auto].
    destruct (truthy_string m && num_gt time 0 && num_gt duration 0); [|auto].
    destruct (num_gt (time / duration) (95 # 100)) eqn:Hr.
    + rewrite getPlaybackPosition_clear.
      destruct (decide (m = id)); [discriminate | auto].
    + rewrite getPlaybackPosition_set.
      destruct (decide (m = id)) as [->|]; [|auto].
      intros H. right. split; [reflexivity|]. split.
      * cbn in H. destruct (truthy_number time); congruence.
      * apply num_gt_false in Hr. intros Hlt. exact (Qlt_not_le _ _ Hlt Hr).
  - exact getPlaybackPosition_no_record.
Qed.

Lemma finished_position_cleared_not_recorded_witness :
  getPlaybackPosition (storage_with_position movie_id 50) movie_id = Some 50%Q /\
  getPlaybackPosition
    (snd (timeUpdateTimeout_fires (video_at 1450)
            (onTimeUpdate None (Some movie_id) (video_at 1450) idle_TimeState)
            (storage_with_position movie_id 50)))
    movie_id = None /\
  getPlaybackPosition (storage_with_position movie_id 50) "iptv-channel-http://tv/1.m3u8"
  = None.
Proof.
  split; [reflexivity|]. split.
  - rewrite (proj1 finished_position_cleared_not_recorded None (Some movie_id)
               (video_at 1450) (video_at 1450) idle_TimeState
               (storage_with_position movie_id 50) eq_refl).
    apply (proj1 (proj2 finished_position_cleared_not_recorded)
             (storage_with_position movie_id 50) movie_id 1450%Q 1500%Q);
      [discriminate | reflexivity | reflexivity].
  - apply (proj2 (proj2 (proj2 finished_position_cleared_not_recorded))
             (storage_with_position movie_id 50) "iptv-channel-http://tv/1.m3u8").
    reflexivity.
Defined.

(** C5, as stated, fails for an update that arrives while a write is
    pending.  With 50 stored for the movie and the write of an update at
    700 seconds pending, an update at 1450 of 1500 seconds, which is past
    0.95 of the duration, leaves the pending write as it is; when the timer
    fires, the position of the movie is not cleared: 700 is recorded. *)
Lemma finished_update_while_pending :
  (95 # 100 < DOM.currentTime (video_at 1450) / DOM.duration (video_at 1450))%Q /\
  timeUpdateTimeoutRef
    (onTimeUpdate None (Some movie_id) (video_at 1450)
       (onTimeUpdate None (Some movie_id) (video_at 700) idle_TimeState))
  = Some {| captured_mediaId := Some movie_id; captured_time := 700 |} /\
  getPlaybackPosition
    (snd (timeUpdateTimeout_fires (video_at 1450)
            (onTimeUpdate None (Some movie_id) (video_at 1450)
               (onTimeUpdate None (Some movie_id) (video_at 700) idle_TimeState))
            (storage_with_position movie_id 50)))
    movie_id
  = Some 700%Q /\
  getPlaybackPosition
    (snd (timeUpdateTimeout_fires (video_at 1450)
            (onTimeUpdate None (Some movie_id) (video_at 1450)
               (onTimeUpdate None (Some movie_id) (video_at 700) idle_TimeState))
            (storage_with_position movie_id 50)))
    movie_id
  <> None.
Proof.
  split; [reflexivity|]. split; [reflexivity|]. split; [reflexivity|]. discriminate.
Qed.

End position_recorder.

(** ** The resume prompt *)

Section resume_prompt.
Import Storage UnifiedPlayer Spec Examples.

(** C4, as the code has it.  With the video element mounted, when the
    position recalled for the current media identity is strictly greater
    than 5 seconds the resume prompt is shown with that time.  Answering
    "resume" sets the playback time to the saved time; answering "restart"
    leaves the playback time where it is (no seek is made); either answer
    starts playback and discards the offer, after which no prompt is shown
    and a further answer seeks nowhere. *)
Theorem resume_offer_flow (ls : localStorage) (mediaId : string)
    (v : DOM.HTMLVideoElement) (previous : option Q) (savedTime : Q) :
  mediaId <> "" ->
  getPlaybackPosition ls mediaId = Some savedTime ->
  (5 < savedTime)%Q ->
  let offer := snd (resumeEffect ls (Some mediaId) (Some v) previous) in
  resumeEffect ls (Some mediaId) (Some v) previous = (Some v, Some savedTime) /\
  renderResumePrompt offer = Some savedTime /\
  handleResumePlayback true (Some v) offer
  = (Some (DOM.play (DOM.set_currentTime savedTime v)), None) /\
  handleResumePlayback false (Some v) offer = (Some (DOM.play v), None) /\
  renderResumePrompt None = None /\
  (forall resume v', handleResumePlayback resume (Some v') None
                     = (Some (DOM.play v'), None)).
Proof.
  intros Hid Hsaved Hgt offer.
  assert (Htruthy : truthy_number savedTime = true) by (apply truthy_number_gt5; assumption).
  assert (Heff : resumeEffect ls (Some mediaId) (Some v) previous
                 = (Some v, Some savedTime)).
  { unfold resumeEffect, truthy_mediaId.
    assert (truthy_string mediaId = true) as ->
      by (destruct mediaId; [congruence | reflexivity]).
    rewrite Hsaved, Htruthy.
    assert (num_gt savedTime 5 = true) as -> by (apply num_gt_spec; assumption).
    reflexivity. }
  subst offer. rewrite Heff. cbn [snd].
  split; [reflexivity|]. split.
  - unfold renderResumePrompt. rewrite Htruthy. reflexivity.
  - split; [|split; [|split]].
    + unfold handleResumePlayback. cbn [andb]. rewrite Htruthy. reflexivity.
    + reflexivity.
    + reflexivity.
    + intros resume v'. reflexivity.
Qed.

Lemma resume_offer_flow_witness :
  resumeEffect (storage_with_position movie_id 42) (Some movie_id)
    (Some (video_at 0)) None = (Some (video_at 0), Some 42%Q) /\
  handleResumePlayback true (Some (video_at 0)) (Some 42%Q)
  = (Some (DOM.play (DOM.set_currentTime 42 (video_at 0))), None).
Proof.
  pose proof (resume_offer_flow (storage_with_position movie_id 42) movie_id
                (video_at 0) None 42%Q) as H.
  cbv zeta in H.
  destruct H as (Heff & _ & Hresume & _); [discriminate | reflexivity | reflexivity |].
  split; [exact Heff|]. rewrite Heff in Hresume. exact Hresume.
Defined.

(** C4, as stated, fails for "restart": with the position 42 recalled and
    the offer shown while playback stands at 30 seconds, answering
    "restart" leaves the playback time at 30; it is not moved to 0. *)
Lemma restart_does_not_seek_to_zero :
  getPlaybackPosition (storage_with_position movie_id 42) movie_id = Some 42%Q /\
  resumeEffect (storage_with_position movie_id 42) (Some movie_id)
    (Some (video_at 30)) None = (Some (video_at 30), Some 42%Q) /\
  option_map DOM.currentTime
    (fst (handleResumePlayback false (Some (video_at 30)) (Some 42%Q))) = Some 30%Q /\
  ~ (30 == 0)%Q.
Proof.
  split; [reflexivity|]. split; [reflexivity|]. split; [reflexivity|].
  intros H. discriminate H.
Qed.

End resume_prompt.

(** ** A [Map] in insertion order *)

Section jsmap_facts.
Context {V : Type}.

Lemma JSMap_get_set (k k' : string) (v : V) (m : list (string * V)) :
  JSMap.get k (JSMap.set k' v m) = if String.eqb k' k then Some v else JSMap.get k m.
Proof.
  induction m as [|[k0 v0] m IH]; cbn.
  - destruct (String.eqb k' k); reflexivity.
  - destruct (String.eqb k0 k') eqn:E0; cbn.
    + apply String.eqb_eq in E0. rewrite E0.
      destruct (String.eqb k' k); reflexivity.
    + destruct (String.eqb k0 k) eqn:E1; [|exact IH].
      apply String.eqb_eq in E1. rewrite E1 in E0.
      rewrite String.eqb_sym, E0. reflexivity.
Qed.

Lemma JSMap_keys_set (k : string) (v : V) (m : list (string * V)) :
  map fst (JSMap.set k v m) =
  if existsb (fun k0 => String.eqb k0 k) (map fst m) then map fst m
  else map fst m ++ [k].
Proof.
  induction m as [|[k0 v0] m IH]; cbn; [reflexivity|].
  destruct (String.eqb k0 k) eqn:E; cbn; [reflexivity|].
  rewrite IH. destruct (existsb _ (map fst m)); reflexivity.
Qed.

Lemma JSMap_set_NoDup (k : string) (v : V) (m : list (string * V)) :
  NoDup (map fst m) -> NoDup (map fst (JSMap.set k v m)).
Proof.
  intros Hnd. rewrite JSMap_keys_set.
  destruct (existsb _ (map fst m)) eqn:E; [assumption|].
  apply NoDup_app. split; [assumption|]. split; [|apply NoDup_singleton].
  intros x Hx Hk. apply list_elem_of_singleton in Hk. subst x.
  apply list_elem_of_In in Hx.
  assert (existsb (fun k0 => String.eqb k0 k) (map fst m) = true).
  { apply existsb_exists. exists k. split; [assumption | apply String.eqb_refl]. }
  congruence.
Qed.

Lemma JSMap_get_In (k : string) (v : V) (m : list (string * V)) :
  NoDup (map fst m) -> (In (k, v) m <-> JSMap.get k m = Some v).
Proof.
  induction m as [|[k0 v0] m IH]; cbn; intros Hnd.
  - split; [contradiction | discriminate].
  - apply NoDup_cons in Hnd as [Hnotin Hnd].
    destruct (String.eqb k0 k) eqn:E.
    + apply String.eqb_eq in E. subst k0. split.
      * intros [[= ->] | Hin]; [reflexivity|].
        exfalso. apply Hnotin. apply list_elem_of_In.
        apply (in_map fst) in Hin. exact Hin.
      * intros [= ->]. left. reflexivity.
    + apply String.eqb_neq in E. rewrite <- (IH Hnd). split.
      * intros [[= -> _] | Hin]; [congruence | assumption].
      * intros Hin. right. assumption.
Qed.

End jsmap_facts.

Lemma find_snoc {A} (f : A -> bool) (l : list A) (x : A) :
  find f (l ++ [x]) =
  match find f l with
  | Some y => Some y
  | None => if f x then Some x else None
  end.
Proof.
  induction l as [|a l IH]; cbn; [reflexivity|].
  destruct (f a); [reflexivity | exact IH].
Qed.

Lemma find_app_found {A} (f : A -> bool) (l1 l2 : list A) (x : A) :
  In x l1 -> f x = true -> exists y, find f (l1 ++ l2) = Some y /\ In y l1.
Proof.
  induction l1 as [|a l1 IH]; cbn; [contradiction|].
  intros [-> | Hin] Hx.
  - rewrite Hx. eauto.
  - destruct (f a); [eauto|].
    destruct (IH Hin Hx) as (y & Hy & Hin'). eauto.
Qed.

(** ** Subtitle registry: merging external and embedded tracks *)

Section subtitle_merge.
Import Types UnifiedPlayer Spec Examples.

Lemma of_entries_get (k : string) (tracks : list SubtitleTrack)
    (m : list (string * SubtitleTrack)) :
  JSMap.get k (fold_left (fun m kv => JSMap.set (fst kv) (snd kv) m)
                 (map labelled tracks) m) =
  match latest_labelled k tracks with
  | Some t => Some t
  | None => JSMap.get k m
  end.
Proof.
  revert m. induction tracks as [|x tracks IH]; intros m; cbn; [reflexivity|].
  rewrite IH, JSMap_get_set. unfold latest_labelled. cbn. rewrite find_snoc.
  destruct (find _ (rev tracks)); [reflexivity|].
  destruct (String.eqb (label x) k); reflexivity.
Qed.

Lemma of_entries_invariant (tracks : list SubtitleTrack)
    (m : list (string * SubtitleTrack)) :
  NoDup (map fst m) -> Forall (fun kv => fst kv = label (snd kv)) m ->
  let m' := fold_left (fun m kv => JSMap.set (fst kv) (snd kv) m)
              (map labelled tracks) m in
  NoDup (map fst m') /\ Forall (fun kv => fst kv = label (snd kv)) m'.
Proof.
  revert m. induction tracks as [|x tracks IH]; intros m Hnd Hkeys; cbn.
  - split; assumption.
  - apply IH.
    + apply JSMap_set_NoDup. assumption.
    + clear IH Hnd. induction m as [|[k0 v0] m IHm]; cbn.
      * constructor; [reflexivity | constructor].
      * inversion Hkeys as [|? ? Hk Hrest]; subst. cbn in Hk.
        destruct (String.eqb k0 (label x)) eqn:E.
        -- apply String.eqb_eq in E. constructor; [cbn; congruence | assumption].
        -- constructor; [assumption | apply IHm; assumption].
Qed.

Lemma handleTracks_In (subtitleTracks : list SubtitleTrack)
    (video : DOM.HTMLVideoElement) (t : SubtitleTrack) :
  In t (handleTracks subtitleTracks video) <->
  latest_labelled (label t)
    (subtitleTracks ++ embeddedTracks (DOM.textTracks video)) = Some t.
Proof.
  unfold handleTracks, JSMap.values, JSMap.of_entries.
  set (combined := subtitleTracks ++ embeddedTracks (DOM.textTracks video)).
  change (map (fun item => (label item, item)) combined) with (map labelled combined).
  destruct (of_entries_invariant combined [] NoDup_nil_2 (List.Forall_nil _))
    as [Hnd Hkeys].
  cbv zeta in Hnd, Hkeys.
  set (m := fold_left _ (map labelled combined) []) in *.
  assert (Hget : JSMap.get (label t) m = latest_labelled (label t) combined).
  { subst m. rewrite of_entries_get.
    destruct (latest_labelled (label t) combined); reflexivity. }
  rewrite <- Hget, <- (JSMap_get_In (label t) t m Hnd). split.
  - intros Hin. apply in_map_iff in Hin as ([k v] & Hv & Hin). cbn in Hv. subst v.
    rewrite List.Forall_forall in Hkeys. pose proof (Hkeys _ Hin) as Hk.
    cbn in Hk. subst k. exact Hin.
  - intros Hin. apply in_map_iff. exists (label t, t). auto.
Qed.

Lemma handleTracks_labels_NoDup (subtitleTracks : list SubtitleTrack)
    (video : DOM.HTMLVideoElement) :
  NoDup (map label (handleTracks subtitleTracks video)).
Proof.
  unfold handleTracks, JSMap.values, JSMap.of_entries.
  set (combined := subtitleTracks ++ embeddedTracks (DOM.textTracks video)).
  change (map (fun item => (label item, item)) combined) with (map labelled combined).
  destruct (of_entries_invariant combined [] NoDup_nil_2 (List.Forall_nil _))
    as [Hnd Hkeys].
  cbv zeta in Hnd, Hkeys.
  set (m := fold_left _ (map labelled combined) []) in *.
  rewrite map_map.
  replace (map (fun x => label (snd x)) m) with (map fst m); [assumption|].
  apply map_ext_in. intros kv Hin.
  rewrite List.Forall_forall in Hkeys. exact (Hkeys kv Hin).
Qed.

(** C1, as the code has it.  The available-track list holds one track per
    label, namely the track added last under that label in the list of
    external tracks followed by the embedded ones.  So when an external
    and an embedded track share a label, the entry for that label is an
    embedded track: the embedded track takes precedence. *)
Theorem merged_tracks_embedded_wins (subtitleTracks : list SubtitleTrack)
    (video : DOM.HTMLVideoElement) :
  let embedded := embeddedTracks (DOM.textTracks video) in
  let available := handleTracks subtitleTracks video in
  NoDup (map label available) /\
  (forall t, In t available <->
             latest_labelled (label t) (subtitleTracks ++ embedded) = Some t) /\
  (forall x e, In x subtitleTracks -> In e embedded -> label x = label e ->
     exists e', In e' embedded /\ label e' = label x /\ In e' available /\
                forall t, In t available -> label t = label x -> t = e').
Proof.
  intros embedded available. split; [apply handleTracks_labels_NoDup|].
  split; [apply handleTracks_In|].
  intros x e Hx He Hlabel.
  assert (Hlatest : exists e', latest_labelled (label x) (subtitleTracks ++ embedded)
                               = Some e' /\ In e' embedded).
  { unfold latest_labelled. rewrite rev_app_distr.
    destruct (find_app_found (fun t => String.eqb (label t) (label x))
                (rev embedded) (rev subtitleTracks) e) as (y & Hy & Hin).
    - apply in_rev in He. exact He.
    - apply String.eqb_eq. congruence.
    - exists y. split; [exact Hy|]. apply in_rev. exact Hin. }
  destruct Hlatest as (e' & Hlatest & He').
  assert (Hlab : label e' = label x).
  { unfold latest_labelled in Hlatest. apply find_some in Hlatest as [_ H].
    apply String.eqb_eq in H. exact H. }
  exists e'. split; [exact He'|]. split; [exact Hlab|]. split.
  - apply handleTracks_In. fold embedded. rewrite Hlab. exact Hlatest.
  - intros t Ht Hlt. apply handleTracks_In in Ht. fold embedded in Ht.
    rewrite Hlt in Ht. congruence.
Qed.

Lemma merged_tracks_embedded_wins_witness :
  In english_external [english_external] /\
  exists e', In e' (embeddedTracks [english_textTrack]) /\
             In e' (handleTracks [english_external]
                      (video_with_tracks [english_textTrack])).
Proof.
  split; [left; reflexivity|].
  destruct (proj2 (proj2 (merged_tracks_embedded_wins [english_external]
                            (video_with_tracks [english_textTrack])))
              english_external
              {| src := "embedded-0-English-en"; label := "English"; srclang := "en" |})
    as (e' & He' & _ & Hin & _).
  - left. reflexivity.
  - left. reflexivity.
  - reflexivity.
  - exists e'. split; assumption.
Defined.

(** C1, as stated, fails: the external track [English] and the embedded
    track of the same label are merged into a list that holds the embedded
    track only; the external track is not in it. *)
Lemma merged_tracks_external_lost :
  In english_external [english_external] /\
  In {| src := "embedded-0-English-en"; label := "English"; srclang := "en" |}
     (embeddedTracks [english_textTrack]) /\
  handleTracks [english_external] (video_with_tracks [english_textTrack])
  = [ {| src := "embedded-0-English-en"; label := "English"; srclang := "en" |} ] /\
  ~ In english_external
       (handleTracks [english_external] (video_with_tracks [english_textTrack])).
Proof.
  split; [left; reflexivity|]. split; [left; reflexivity|].
  split; [reflexivity|].
  intros [H | []]. discriminate H.
Qed.

End subtitle_merge.

(** ** Subtitle registry: visibility *)

Section subtitle_visibility.
Import Types UnifiedPlayer Spec Examples.

Lemma NoDup_map_lookup {A B} (f : A -> B) (l : list A) (i j : nat) (x y : A) :
  NoDup (map f l) -> l !! i = Some x -> l !! j = Some y -> f x = f y -> i = j.
Proof.
  revert i j. induction l as [|a l IH]; intros i j Hnd Hi Hj Hf; [discriminate Hi|].
  cbn in Hnd. apply NoDup_cons in Hnd as [Hnotin Hnd].
  assert (Hin : forall k z, l !! k = Some z -> f z ∈ map f l).
  { intros k z Hk. apply list_elem_of_In, in_map, list_elem_of_In.
    eapply list_elem_of_lookup_2. exact Hk. }
  destruct i as [|i], j as [|j]; cbn in Hi, Hj.
  - reflexivity.
  - injection Hi as <-. exfalso. apply Hnotin. rewrite Hf. eapply Hin. exact Hj.
  - injection Hj as <-. exfalso. apply Hnotin. rewrite <- Hf. eapply Hin. exact Hi.
  - f_equal. eapply IH; eassumption.
Qed.

(** C7, as the code has it.  After the selection is applied, every text
    track keeps its place, kind, label, language and cues; it is in
    [showing] mode when it matches the selection (it has the label of the
    selected track, or the embedded source name formed from its index,
    label and language is the selected track's source) and in [hidden] mode
    otherwise; with no selection every track is hidden.  When the labels of
    the text tracks are pairwise distinct and a track matched through its
    source name also has the selected label, at most one track is showing. *)
Theorem subtitle_visibility (active : option SubtitleTrack) (v : DOM.HTMLVideoElement) :
  exists v',
    visibilityEffect active (Some v) = Some v' /\
    List.length (DOM.textTracks v') = List.length (DOM.textTracks v) /\
    (forall i t, DOM.textTracks v !! i = Some t ->
       DOM.textTracks v' !! i
       = Some (DOM.set_mode (if isTrackActive active i t
                             then DOM.showing else DOM.hidden) t)) /\
    (active = None ->
     forall i t', DOM.textTracks v' !! i = Some t' -> DOM.mode t' = DOM.hidden) /\
    (forall a, active = Some a ->
       NoDup (map DOM.label (DOM.textTracks v)) ->
       (forall i t, DOM.textTracks v !! i = Some t ->
                    embedded_src i t = src a -> DOM.label t = label a) ->
       forall i j ti tj,
         DOM.textTracks v' !! i = Some ti -> DOM.textTracks v' !! j = Some tj ->
         DOM.mode ti = DOM.showing -> DOM.mode tj = DOM.showing -> i = j).
Proof.
  eexists. split; [reflexivity|]. cbn [DOM.textTracks DOM.set_textTracks].
  assert (Hlookup : forall i,
    imap (fun i textTrack =>
            DOM.set_mode (if isTrackActive active i textTrack
                          then DOM.showing else DOM.hidden) textTrack)
         (DOM.textTracks v) !! i =
    (fun t => DOM.set_mode (if isTrackActive active i t
                            then DOM.showing else DOM.hidden) t)
      <$> DOM.textTracks v !! i) by (intros i; apply list_lookup_imap).
  split; [apply length_imap|]. split; [|split].
  - intros i t Ht. rewrite Hlookup, Ht. reflexivity.
  - intros -> i t' Ht'. rewrite Hlookup in Ht'.
    apply fmap_Some in Ht' as (t & _ & ->). reflexivity.
  - intros a -> Hnd Hsrc i j ti tj Hi Hj Hsi Hsj.
    rewrite Hlookup in Hi, Hj.
    apply fmap_Some in Hi as (t1 & E1 & ->). apply fmap_Some in Hj as (t2 & E2 & ->).
    assert (Hlab : forall k t, DOM.textTracks v !! k = Some t ->
                     isTrackActive (Some a) k t = true -> DOM.label t = label a).
    { intros k t Hk Hact. cbn in Hact. apply orb_true_iff in Hact as [H | H];
        apply String.eqb_eq in H; [exact H | eauto]. }
    destruct (isTrackActive (Some a) i t1) eqn:A1; [|discriminate Hsi].
    destruct (isTrackActive (Some a) j t2) eqn:A2; [|discriminate Hsj].
    apply (NoDup_map_lookup DOM.label (DOM.textTracks v) i j t1 t2 Hnd E1 E2).
    rewrite (Hlab i t1 E1 A1), (Hlab j t2 E2 A2). reflexivity.
Qed.

Lemma subtitle_visibility_witness :
  exists v',
    visibilityEffect (Some english_external)
      (Some (video_with_tracks [english_textTrack])) = Some v' /\
    DOM.textTracks v' !! 0%nat = Some (DOM.set_mode DOM.showing english_textTrack).
Proof.
  destruct (subtitle_visibility (Some english_external)
              (video_with_tracks [english_textTrack]))
    as (v' & Heff & _ & Hmode & _).
  exists v'. split; [exact Heff|].
  apply (Hmode 0%nat english_textTrack). reflexivity.
Defined.

(** C7, as stated, fails when two text tracks carry the same label: with
    the track of the external file [English] and an embedded track also
    labelled [English], selecting the external track puts both in
    [showing] mode. *)
Lemma two_tracks_showing :
  option_map (fun v' => map DOM.mode (DOM.textTracks v'))
    (visibilityEffect (Some english_external)
       (Some (video_with_tracks [english_textTrack; english_embedded])))
  = Some [DOM.showing; DOM.showing].
Proof. reflexivity. Qed.

End subtitle_visibility.

(** ** Download queue *)

Section download_queue.
Import UnifiedPlayer Spec Examples.

Lemma filter_none {A} (f : A -> bool) (l : list A) :
  (forall x, In x l -> f x = false) -> List.filter f l = [].
Proof.
  induction l as [|a l IH]; cbn; intros H; [reflexivity|].
  rewrite (H a) by (left; reflexivity). apply IH. intros x Hx. apply H. right. exact Hx.
Qed.

Lemma In_removelast {A} (l : list A) (x : A) : In x (removelast l) -> In x l.
Proof.
  induction l as [|a l IH]; cbn; [contradiction|].
  destruct l as [|b l]; [contradiction|].
  intros [-> | H]; [left; reflexivity | right; apply IH; exact H].
Qed.

Lemma in_flight_count_named (n : string) (q : list DownloadQueueItem) :
  NoDup (map file_name q) ->
  (forall i, In i q -> in_flight i = true -> named n i = true) ->
  in_flight_count q <= 1.
Proof.
  unfold in_flight_count.
  induction q as [|a q IH]; cbn; intros Hnd Hnamed; [lia|].
  apply NoDup_cons in Hnd as [Hnotin Hnd].
  destruct (in_flight a) eqn:Ha.
  - rewrite filter_none; [cbn; lia|].
    intros x Hx. destruct (in_flight x) eqn:Hfx; [|reflexivity].
    exfalso. apply Hnotin. apply list_elem_of_In.
    assert (Hna : named n a = true) by (apply Hnamed; [left; reflexivity | exact Ha]).
    assert (Hnx : named n x = true) by (apply Hnamed; [right; exact Hx | exact Hfx]).
    unfold named in Hna, Hnx. apply String.eqb_eq in Hna, Hnx.
    replace (file_name a) with (file_name x) by (unfold file_name; congruence).
    apply in_map. exact Hx.
  - apply IH; [exact Hnd|]. intros i Hi. apply Hnamed. right. exact Hi.
Qed.

Lemma queue_invariant_count (s : QueueState) :
  queue_invariant s -> in_flight_count (downloadQueue s) <= 1.
Proof.
  intros [Hnd Hout]. unfold flight_accounted in Hout.
  destruct (outstanding s) as [|n [|m rest]]; [| |contradiction].
  - unfold in_flight_count. rewrite filter_none by exact Hout. cbn. lia.
  - destruct Hout as [_ Hnamed]. eapply in_flight_count_named; eassumption.
Qed.

Lemma update_named_names (n : string) (f : DownloadQueueItem -> DownloadQueueItem)
    (q : list DownloadQueueItem) :
  (forall i, file (f i) = file i) ->
  map file_name (update_named n f q) = map file_name q.
Proof.
  intros Hf. unfold update_named. rewrite map_map. apply map_ext.
  intros i. destruct (named n i); [|reflexivity].
  unfold file_name. rewrite Hf. reflexivity.
Qed.

Lemma update_named_in_flight (n : string) (f : DownloadQueueItem -> DownloadQueueItem)
    (q : list DownloadQueueItem) :
  (forall i, file (f i) = file i) ->
  (forall i, In i q -> in_flight i = true -> named n i = true) ->
  forall i', In i' (update_named n f q) -> in_flight i' = true -> named n i' = true.
Proof.
  intros Hf Hq i' Hin Hfl. unfold update_named in Hin.
  apply in_map_iff in Hin as (i & <- & Hi).
  destruct (named n i) eqn:Hn.
  - unfold named in *. rewrite Hf. exact Hn.
  - rewrite (Hq i Hi Hfl) in Hn. discriminate Hn.
Qed.

Lemma update_named_settled (n : string) (f : DownloadQueueItem -> DownloadQueueItem)
    (q : list DownloadQueueItem) :
  (forall i, in_flight (f i) = false) ->
  (forall i, In i q -> in_flight i = true -> named n i = true) ->
  forall i', In i' (update_named n f q) -> in_flight i' = false.
Proof.
  intros Hf Hq i' Hin. unfold update_named in Hin.
  apply in_map_iff in Hin as (i & <- & Hi).
  destruct (named n i) eqn:Hn; [apply Hf|].
  destruct (in_flight i) eqn:Hfl; [|reflexivity].
  rewrite (Hq i Hi Hfl) in Hn. discriminate Hn.
Qed.

(** An item of the updated queue comes from an item of the same file. *)
Lemma update_named_origin (n : string) (f : DownloadQueueItem -> DownloadQueueItem)
    (q : list DownloadQueueItem) (i' : DownloadQueueItem) :
  (forall i, file (f i) = file i) ->
  In i' (update_named n f q) ->
  exists i, In i q /\ file i' = file i /\
            (named n i = true /\ i' = f i \/ named n i = false /\ i' = i).
Proof.
  intros Hf Hin. unfold update_named in Hin.
  apply in_map_iff in Hin as (i & <- & Hi). exists i. split; [exact Hi|].
  destruct (named n i); [split; [apply Hf | left; auto] | split; [reflexivity | right; auto]].
Qed.

Lemma named_self (i : DownloadQueueItem) (q : list DownloadQueueItem) :
  In i q -> existsb (named (file_name i)) q = true.
Proof.
  intros Hi. apply existsb_exists. exists i. split; [exact Hi|].
  unfold named, file_name. apply String.eqb_refl.
Qed.

Lemma named_same_file (n : string) (i j : DownloadQueueItem) :
  file i = file j -> named n i = named n j.
Proof. intros H. unfold named. rewrite H. reflexivity. Qed.

Lemma existsb_named_file (i j : DownloadQueueItem) (q : list DownloadQueueItem) :
  file i = file j -> existsb (named (file_name i)) q = existsb (named (file_name j)) q.
Proof. intros H. unfold file_name. rewrite H. reflexivity. Qed.

Lemma enqueue_present (downloadQueue prev : list DownloadQueueItem)
    (f : WebTorrent.TorrentFile) :
  (exists item, In item downloadQueue /\ file_name item = WebTorrent.name f) ->
  handleAddToDownloadQueue downloadQueue prev f = prev.
Proof.
  intros (item & Hin & Hname). unfold handleAddToDownloadQueue.
  assert (existsb (named (WebTorrent.name f)) downloadQueue = true) as ->; [|reflexivity].
  apply existsb_exists. exists item. split; [exact Hin|].
  unfold named. apply String.eqb_eq. exact Hname.
Qed.

(** *** The outstanding calls account for the items in flight, in every run *)

Lemma enqueue_flight_accounted (s : QueueState) (f : WebTorrent.TorrentFile) :
  flight_accounted s ->
  flight_accounted
    {| rendered := rendered s;
       downloadQueue := handleAddToDownloadQueue (rendered s) (downloadQueue s) f;
       outstanding := outstanding s |}.
Proof.
  unfold flight_accounted, handleAddToDownloadQueue. cbn [downloadQueue outstanding].
  intros Hout.
  destruct (existsb (named (WebTorrent.name f)) (rendered s)); [exact Hout|].
  destruct (outstanding s) as [|n [|m rest]]; [| |contradiction].
  - intros i Hi. apply in_app_or in Hi as [Hi | [<- | []]]; [auto | reflexivity].
  - destruct Hout as [(i & Hi & Hn & Hfl) Hnamed]. split.
    + exists i. split; [apply in_or_app; left; exact Hi | auto].
    + intros i' Hi' Hfl'. apply in_app_or in Hi' as [Hi' | [<- | []]];
        [auto | discriminate Hfl'].
Qed.

Lemma effect_flight_accounted (s : QueueState) :
  flight_accounted s ->
  flight_accounted
    {| rendered := downloadQueue s;
       downloadQueue := fst (downloadQueueEffect (downloadQueue s));
       outstanding :=
         match snd (downloadQueueEffect (downloadQueue s)) with
         | Some f => outstanding s ++ [WebTorrent.name f]
         | None => outstanding s
         end |}.
Proof.
  unfold flight_accounted, downloadQueueEffect. cbn [downloadQueue outstanding].
  intros Hout.
  destruct (existsb in_flight (downloadQueue s)) eqn:E; [exact Hout|].
  assert (Hnone : forall i, In i (downloadQueue s) -> in_flight i = false).
  { intros i Hi. destruct (in_flight i) eqn:Hfl; [|reflexivity].
    assert (existsb in_flight (downloadQueue s) = true)
      by (apply existsb_exists; eauto).
    congruence. }
  destruct (find is_queued (downloadQueue s)) as [next|] eqn:Hfind; [|exact Hout].
  assert (Hempty : outstanding s = []).
  { destruct (outstanding s) as [|n [|m rest]]; [reflexivity | | contradiction].
    destruct Hout as [(i & Hi & _ & Hfl) _]. rewrite (Hnone i Hi) in Hfl.
    discriminate Hfl. }
  rewrite Hempty. cbn [fst snd app].
  apply find_some in Hfind as [Hin _]. split.
  - exists (mark_preparing next). split; [|split; [|reflexivity]].
    + unfold update_named. apply in_map_iff. exists next. split; [|exact Hin].
      unfold named. rewrite String.eqb_refl. reflexivity.
    + unfold named. cbn. apply String.eqb_refl.
  - apply update_named_in_flight; [reflexivity|].
    intros i Hi Hfl. rewrite (Hnone i Hi) in Hfl. discriminate Hfl.
Qed.

(** A callback arrives for the only outstanding call. *)
Lemma outstanding_single (s : QueueState) (fileName : string) :
  flight_accounted s ->
  existsb (String.eqb fileName) (outstanding s) = true ->
  outstanding s = [fileName] /\ remove_one fileName (outstanding s) = [] /\
  (exists i, In i (downloadQueue s) /\ named fileName i = true /\ in_flight i = true) /\
  (forall i, In i (downloadQueue s) -> in_flight i = true -> named fileName i = true).
Proof.
  unfold flight_accounted. intros Hout Hpending.
  destruct (outstanding s) as [|n [|m rest]]; [discriminate | | contradiction].
  cbn in Hpending. rewrite orb_false_r in Hpending.
  apply String.eqb_eq in Hpending. subst n.
  split; [reflexivity|]. split; [cbn; rewrite String.eqb_refl; reflexivity | exact Hout].
Qed.

(** What the callback leaves in the end: every item of the file's name
    updated by one function that keeps the file and ends the flight. *)
Lemma getBlobURL_callback_last (fileName : string) (err blobUrl : option string)
    (q : list DownloadQueueItem) :
  exists f,
    List.last (getBlobURL_callback fileName err blobUrl q) q = update_named fileName f q /\
    (forall i, file (f i) = file i) /\
    (forall i, in_flight (f i) = false) /\
    (forall i j, status (f i) = status (f j)) /\
    (forall i, status (f i) <> Queued).
Proof.
  assert (Herror : forall message,
    exists f,
      update_named fileName (mark_error message) q = update_named fileName f q /\
      (forall i, file (f i) = file i) /\
      (forall i, in_flight (f i) = false) /\
      (forall i j, status (f i) = status (f j)) /\
      (forall i, status (f i) <> Queued)).
  { intros message. exists (mark_error message).
    repeat split; intros; cbn; discriminate. }
  unfold getBlobURL_callback.
  destruct err as [message|]; [apply Herror|].
  destruct blobUrl as [u|]; [|apply Herror].
  destruct (truthy_string u); [|apply Herror].
  exists (fun i => mark_done (mark_downloading u i)).
  split; [|repeat split; intros; cbn; discriminate].
  cbn [List.last]. unfold update_named. rewrite map_map. apply map_ext.
  intros i. destruct (named fileName i) eqn:Hn; [|rewrite Hn; reflexivity].
  rewrite (named_same_file fileName (mark_downloading u i) i), Hn by reflexivity.
  reflexivity.
Qed.

Lemma last_map_nonempty {A B} (g : A -> B) (l : list A) (d : A) (d' : B) :
  l <> [] -> List.last (map g l) d' = g (List.last l d).
Proof.
  induction l as [|a l IH]; [congruence|]. intros _.
  destruct l as [|b l]; [reflexivity|]. apply IH. discriminate.
Qed.

Lemma callback_flight_accounted (s : QueueState) (fileName : string)
    (err blobUrl : option string) :
  flight_accounted s ->
  existsb (String.eqb fileName) (outstanding s) = true ->
  flight_accounted
    {| rendered := rendered s;
       downloadQueue :=
         List.last (getBlobURL_callback fileName err blobUrl (downloadQueue s))
           (downloadQueue s);
       outstanding := remove_one fileName (outstanding s) |}.
Proof.
  intros Hout Hpending.
  destruct (outstanding_single s fileName Hout Hpending) as (_ & Hrm & _ & Hnamed).
  destruct (getBlobURL_callback_last fileName err blobUrl (downloadQueue s))
    as (f & -> & Hfile & Hsettled & _).
  unfold flight_accounted. cbn [downloadQueue outstanding]. rewrite Hrm.
  apply update_named_settled; assumption.
Qed.

(** The state after a callback, as [queue_step] lists it. *)
Lemma callback_last_state (s : QueueState) (fileName : string)
    (err blobUrl : option string) :
  getBlobURL_callback fileName err blobUrl (downloadQueue s) <> [] ->
  List.last
    (map (fun q => {| rendered := rendered s; downloadQueue := q;
                      outstanding := remove_one fileName (outstanding s) |})
         (getBlobURL_callback fileName err blobUrl (downloadQueue s))) s
  = {| rendered := rendered s;
       downloadQueue :=
         List.last (getBlobURL_callback fileName err blobUrl (downloadQueue s))
           (downloadQueue s);
       outstanding := remove_one fileName (outstanding s) |}.
Proof.
  intros Hne.
  apply (last_map_nonempty
           (fun q => {| rendered := rendered s; downloadQueue := q;
                        outstanding := remove_one fileName (outstanding s) |})
           _ (downloadQueue s) s Hne).
Qed.

Lemma getBlobURL_callback_nonempty (fileName : string) (err blobUrl : option string)
    (q : list DownloadQueueItem) :
  getBlobURL_callback fileName err blobUrl q <> [].
Proof.
  unfold getBlobURL_callback.
  destruct err; [discriminate|]. destruct blobUrl as [u|]; [|discriminate].
  destruct (truthy_string u); discriminate.
Qed.

(** *** Runs in which a render is committed between two enqueues *)

Lemma enqueue_invariant (s : QueueState) (f : WebTorrent.TorrentFile) :
  queue_invariant s -> rendered_current s ->
  queue_invariant
    {| rendered := rendered s;
       downloadQueue := handleAddToDownloadQueue (rendered s) (downloadQueue s) f;
       outstanding := outstanding s |}.
Proof.
  intros [Hnd Hout] Hcurrent. split; [|apply enqueue_flight_accounted; exact Hout].
  cbn [downloadQueue]. unfold handleAddToDownloadQueue.
  destruct (existsb (named (WebTorrent.name f)) (rendered s)) eqn:E; [exact Hnd|].
  rewrite map_app. cbn. apply NoDup_app. split; [exact Hnd|].
  split; [|apply NoDup_singleton].
  intros x Hx Hf. apply list_elem_of_singleton in Hf. subst x.
  apply list_elem_of_In, in_map_iff in Hx as (item & Hname & Hin).
  specialize (Hcurrent item Hin). rewrite Hname in Hcurrent.
  change (existsb (named (WebTorrent.name f)) (rendered s) = true) in Hcurrent.
  congruence.
Qed.

Lemma effect_queue_cases (q : list DownloadQueueItem) :
  fst (downloadQueueEffect q) = q \/
  exists n, fst (downloadQueueEffect q) = update_named n mark_preparing q.
Proof.
  unfold downloadQueueEffect.
  destruct (existsb in_flight q); [left; reflexivity|].
  destruct (find is_queued q); [right; eexists|left]; reflexivity.
Qed.

(** The render committed with the effect shows every name of the queue
    that the effect leaves. *)
Lemma effect_rendered (q : list DownloadQueueItem) (i : DownloadQueueItem) :
  In i (fst (downloadQueueEffect q)) -> existsb (named (file_name i)) q = true.
Proof.
  intros Hi.
  destruct (effect_queue_cases q) as [Hq | [n Hq]]; rewrite Hq in Hi;
    [apply named_self; exact Hi|].
  apply update_named_origin in Hi as (i0 & Hi0 & Hfile & _); [|reflexivity].
  rewrite (existsb_named_file i i0 _ Hfile). apply named_self. exact Hi0.
Qed.

Lemma effect_invariant (s : QueueState) :
  queue_invariant s ->
  let s' :=
    {| rendered := downloadQueue s;
       downloadQueue := fst (downloadQueueEffect (downloadQueue s));
       outstanding :=
         match snd (downloadQueueEffect (downloadQueue s)) with
         | Some f => outstanding s ++ [WebTorrent.name f]
         | None => outstanding s
         end |} in
  queue_invariant s' /\ rendered_current s'.
Proof.
  intros [Hnd Hout] s'.
  split; [split; [|apply effect_flight_accounted; exact Hout]|].
  - unfold s'. cbn [downloadQueue].
    destruct (effect_queue_cases (downloadQueue s)) as [-> | [n ->]]; [exact Hnd|].
    rewrite update_named_names by reflexivity. exact Hnd.
  - unfold rendered_current, s'. cbn [rendered downloadQueue]. intros i.
    apply effect_rendered.
Qed.

Lemma callback_invariant (s : QueueState) (fileName : string)
    (err blobUrl : option string) :
  queue_invariant s ->
  existsb (String.eqb fileName) (outstanding s) = true ->
  let visited :=
    map (fun q => {| rendered := rendered s; downloadQueue := q;
                     outstanding := remove_one fileName (outstanding s) |})
        (getBlobURL_callback fileName err blobUrl (downloadQueue s)) in
  (forall s', In s' visited -> in_flight_count (downloadQueue s') <= 1) /\
  queue_invariant (List.last visited s) /\
  (rendered_current s -> rendered_current (List.last visited s)).
Proof.
  intros [Hnd Hout] Hpending visited.
  destruct (outstanding_single s fileName Hout Hpending) as (_ & _ & _ & Hnamed).
  assert (Hlast : List.last visited s
            = {| rendered := rendered s;
                 downloadQueue :=
                   List.last (getBlobURL_callback fileName err blobUrl (downloadQueue s))
                     (downloadQueue s);
                 outstanding := remove_one fileName (outstanding s) |})
    by (apply callback_last_state, getBlobURL_callback_nonempty).
  assert (Hinv : queue_invariant (List.last visited s)).
  { rewrite Hlast. split; [|apply callback_flight_accounted; assumption].
    cbn [downloadQueue].
    destruct (getBlobURL_callback_last fileName err blobUrl (downloadQueue s))
      as (f & -> & Hfile & _).
    rewrite update_named_names by exact Hfile. exact Hnd. }
  split; [|split; [exact Hinv|]].
  - intros s' Hs'. unfold visited in Hs'.
    apply in_map_iff in Hs' as (q & <- & Hq). cbn [downloadQueue].
    assert (Hstep : forall f, (forall i, file (f i) = file i) ->
              in_flight_count (update_named fileName f (downloadQueue s)) <= 1).
    { intros f Hfile. apply (in_flight_count_named fileName).
      - rewrite update_named_names by exact Hfile. exact Hnd.
      - apply update_named_in_flight; assumption. }
    unfold getBlobURL_callback in Hq.
    destruct err as [message|];
      [|destruct blobUrl as [u|]; [destruct (truthy_string u)|]];
      cbn [In] in Hq;
      try (destruct Hq as [<- | []]; apply Hstep; reflexivity).
    destruct Hq as [<- | [<- | []]]; [apply Hstep; reflexivity|].
    apply (in_flight_count_named fileName).
    + rewrite !update_named_names by reflexivity. exact Hnd.
    + apply update_named_in_flight; [reflexivity|].
      apply update_named_in_flight; [reflexivity | exact Hnamed].
  - intros Hcurrent. rewrite Hlast. unfold rendered_current.
    cbn [downloadQueue rendered].
    destruct (getBlobURL_callback_last fileName err blobUrl (downloadQueue s))
      as (f & -> & Hfile & _).
    intros i Hi. apply update_named_origin in Hi as (i0 & Hi0 & Hsame & _);
      [|exact Hfile].
    rewrite (existsb_named_file i i0 _ Hsame). apply Hcurrent. exact Hi0.
Qed.

Lemma queue_step_invariant (e : QueueEvent) (s : QueueState) (stale : bool) :
  rendered_between_enqueues stale [e] = true ->
  queue_invariant s -> (stale = false -> rendered_current s) ->
  (forall s', In s' (queue_step e s) -> in_flight_count (downloadQueue s') <= 1) /\
  queue_invariant (List.last (queue_step e s) s) /\
  (match e with
   | Enqueue _ => True
   | RunEffect => rendered_current (List.last (queue_step e s) s)
   | BlobCallback _ _ _ =>
       rendered_current s -> rendered_current (List.last (queue_step e s) s)
   end).
Proof.
  intros Hevents Hinv Hcurrent.
  destruct e as [f | | fileName err blobUrl]; cbn [queue_step].
  - cbn in Hevents. destruct stale; [discriminate Hevents|].
    pose proof (enqueue_invariant s f Hinv (Hcurrent eq_refl)) as H.
    split; [|split; [exact H | exact I]].
    intros s' [<- | []]. apply queue_invariant_count. exact H.
  - pose proof (effect_invariant s Hinv) as H.
    destruct (downloadQueueEffect (downloadQueue s)) as [q started].
    cbn [fst snd] in H. cbv zeta in H. destruct H as [H Hc].
    split; [|split; [exact H | exact Hc]].
    intros s' [<- | []]. apply queue_invariant_count. exact H.
  - destruct (existsb (String.eqb fileName) (outstanding s)) eqn:E.
    + apply callback_invariant; assumption.
    + split; [|split; [exact Hinv | auto]].
      intros s' [<- | []]. apply queue_invariant_count. exact Hinv.
Qed.

Lemma queue_run_invariant (events : list QueueEvent) (s : QueueState) (stale : bool) :
  rendered_between_enqueues stale events = true ->
  queue_invariant s -> (stale = false -> rendered_current s) ->
  forall s', In s' (queue_run events s) -> in_flight_count (downloadQueue s') <= 1.
Proof.
  revert s stale.
  induction events as [|e events IH]; intros s stale Hevents Hinv Hcurrent s';
    cbn [queue_run].
  - intros [<- | []]. apply queue_invariant_count. exact Hinv.
  - assert (Hone : rendered_between_enqueues stale [e] = true).
    { destruct e; cbn in *; [|reflexivity|reflexivity].
      apply andb_true_iff in Hevents as [-> _]. reflexivity. }
    destruct (queue_step_invariant e s stale Hone Hinv Hcurrent)
      as (Hvisited & Hlast & Hrendered).
    intros [<- | Hin]; [apply queue_invariant_count; exact Hinv|].
    apply in_app_or in Hin as [Hin | Hin];
      [apply Hvisited, In_removelast; exact Hin|].
    destruct e as [f | | fileName err blobUrl].
    + cbn in Hevents. apply andb_true_iff in Hevents as [_ Hevents].
      apply (IH _ true Hevents Hlast); [discriminate | exact Hin].
    + cbn in Hevents.
      apply (IH _ false Hevents Hlast); [intros _; exact Hrendered | exact Hin].
    + cbn in Hevents.
      apply (IH _ stale Hevents Hlast); [|exact Hin].
      intros Hstale. apply Hrendered, Hcurrent, Hstale.
Qed.

Lemma initialQueue_invariant : queue_invariant initialQueue.
Proof. split; cbn; [apply NoDup_nil_2 | intros i []]. Qed.

(** What the queue does achieve: as long as a render is committed between
    any two calls of the handler, it never holds more than one item in
    flight, in any state it goes through; and the handler leaves the state
    as it is when the render it belongs to shows the file's name. *)
Lemma single_flight_when_rendered :
  (forall (events : list QueueEvent) (s : QueueState),
     rendered_between_enqueues false events = true ->
     In s (queue_run events initialQueue) ->
     in_flight_count (downloadQueue s) <= 1) /\
  (forall (downloadQueue prev : list DownloadQueueItem) (f : WebTorrent.TorrentFile),
     (exists item, In item downloadQueue /\ file_name item = WebTorrent.name f) ->
     handleAddToDownloadQueue downloadQueue prev f = prev).
Proof.
  split.
  - intros events s Hevents.
    apply (queue_run_invariant events initialQueue false Hevents initialQueue_invariant).
    intros _ i [].
  - exact enqueue_present.
Qed.


End download_queue.

(** ** Subtitle registry: the timing offset *)

Section subtitle_offset.
Import UnifiedPlayer Spec Examples.

Lemma Qplus_0_r_eq (x : Q) : (x + 0)%Q = x.
Proof.
  destruct x as [n d]. unfold Qplus. cbn.
  rewrite Z.mul_1_r, Z.add_0_r, Pos.mul_1_r. reflexivity.
Qed.

Lemma shifted_zero (c : DOM.TextTrackCue) : shifted 0 c = c.
Proof.
  destruct c as [id [s e]]. unfold shifted. cbn.
  rewrite !Qplus_0_r_eq. reflexivity.
Qed.

Lemma rememberCues_other (originals : gmap positive DOM.CueTimes)
    (cues : list DOM.TextTrackCue) (k : positive) :
  ~ In k (map DOM.identity cues) -> rememberCues originals cues !! k = originals !! k.
Proof.
  unfold rememberCues. revert originals.
  induction cues as [|a cues IH]; intros originals Hk; cbn; [reflexivity|].
  rewrite IH by (intros H; apply Hk; right; exact H).
  apply lookup_insert_ne. intros E. apply Hk. left. exact E.
Qed.

Lemma rememberCues_lookup (originals : gmap positive DOM.CueTimes)
    (cues : list DOM.TextTrackCue) (c : DOM.TextTrackCue) :
  NoDup (map DOM.identity cues) -> In c cues ->
  rememberCues originals cues !! DOM.identity c = Some (DOM.timing c).
Proof.
  revert originals. induction cues as [|a cues IH]; intros originals Hnd Hin;
    [contradiction|].
  cbn in Hnd. apply NoDup_cons in Hnd as [Hnotin Hnd].
  destruct Hin as [-> | Hin].
  - change (rememberCues originals (c :: cues))
      with (rememberCues (<[DOM.identity c := DOM.timing c]> originals) cues).
    rewrite rememberCues_other, lookup_insert_eq; [reflexivity|].
    intros H. apply Hnotin, list_elem_of_In. exact H.
  - change (rememberCues originals (a :: cues))
      with (rememberCues (<[DOM.identity a := DOM.timing a]> originals) cues).
    apply IH; assumption.
Qed.

(** On a cue list that stays the same, the offset is applied as intended:
    the first application remembers every cue, and each application,
    whatever came before, leaves every cue at its first times plus the
    offset; offset [0] gives the first times back. *)
Lemma applyOffset_fixed_cue_list (originals : gmap positive DOM.CueTimes)
    (cues : list DOM.TextTrackCue) (o1 o2 : Q) :
  NoDup (map DOM.identity cues) ->
  (forall c, In c cues -> originals !! DOM.identity c = None) ->
  let first := applyOffset_cues o1 originals cues in
  let second := applyOffset_cues o2 (fst first) (snd first) in
  snd first = map (shifted o1) cues /\
  fst second = fst first /\
  snd second = map (shifted o2) cues /\
  (o2 = 0%Q -> snd second = cues).
Proof.
  intros Hnd Hfresh first second.
  assert (Hfirst : has_first_cue originals cues = false).
  { destruct cues as [|c cues]; [reflexivity|]. cbn.
    rewrite (Hfresh c) by (left; reflexivity). reflexivity. }
  assert (Hshift : forall o c, In c cues ->
            shiftCue (rememberCues originals cues) o c = shifted o c).
  { intros o c Hc. unfold shiftCue.
    rewrite (rememberCues_lookup originals cues c Hnd Hc). reflexivity. }
  assert (H1 : first = (rememberCues originals cues, map (shifted o1) cues)).
  { unfold first, applyOffset_cues. rewrite Hfirst. f_equal.
    apply map_ext_in. intros c Hc. apply Hshift. exact Hc. }
  assert (H2 : second = (rememberCues originals cues, map (shifted o2) cues)).
  { unfold second. rewrite H1. cbn [fst snd]. unfold applyOffset_cues.
    assert (has_first_cue (rememberCues originals cues) (map (shifted o1) cues)
            = negb (match cues with [] => true | _ => false end)) as ->.
    { destruct cues as [|c cues]; [reflexivity|]. cbn [map has_first_cue shifted DOM.identity].
      rewrite (rememberCues_lookup originals (c :: cues) c Hnd) by (left; reflexivity).
      reflexivity. }
    assert (Hmap : map (shiftCue (rememberCues originals cues) o2) (map (shifted o1) cues)
                   = map (shifted o2) cues).
    { rewrite map_map. apply map_ext_in. intros c Hc. unfold shiftCue.
      cbn [shifted DOM.identity].
      rewrite (rememberCues_lookup originals cues c Hnd Hc). reflexivity. }
    destruct cues as [|c cues]; [reflexivity|]. cbn [negb]. rewrite Hmap. reflexivity. }
  rewrite H2, H1. cbn [fst snd].
  split; [reflexivity|]. split; [reflexivity|]. split; [reflexivity|].
  intros ->. rewrite <- (map_id cues) at 2. apply map_ext. apply shifted_zero.
Qed.

(** C6 at a cue list that grows.  A track lists one cue, from 10 s to
    12 s, and the offset 2 is applied: the cue is remembered and moved to
    12-14.  The track then gains an earlier cue, from 5 s to 6 s, which
    becomes [track.cues[0]], and the offset is set back to 0.  The new first
    cue is not in the map, so every cue is stored again with its present
    times: the moved cue stays at 12-14 instead of returning to 10-12. *)
Lemma offset_zero_does_not_restore :
  let active := Some english_external in
  let after_two := offsetEffect active 2 ∅ (Some (video_with_cues [cue 1 10 12])) in
  let after_zero :=
    offsetEffect active 0 (fst after_two)
      (Some (video_with_cues [cue 2 5 6; cue 1 12 14])) in
  fst after_two !! 1%positive
  = Some {| DOM.startTime := 10; DOM.endTime := 12 |} /\
  snd after_two = Some (video_with_cues [cue 1 12 14]) /\
  fst after_zero !! 1%positive
  = Some {| DOM.startTime := 12; DOM.endTime := 14 |} /\
  snd after_zero = Some (video_with_cues [cue 2 5 6; cue 1 12 14]).
Proof.
  cbv zeta. split; [reflexivity|]. split; [reflexivity|].
  split; reflexivity.
Qed.

End subtitle_offset.

(** ** Live streams: the proxy retry *)

Section live_loader.
Import Player Spec Examples.

Lemma log_session (originalUrl : string) (requested : list string)
    (entries : list ConsoleEntry) (s : LoaderState) :
  proxied_session originalUrl requested s ->
  proxied_session originalUrl requested (log entries s).
Proof. intros H. exact H. Qed.

Lemma with_hls_session (originalUrl : string) (requested : list string)
    (f : Hls.Instance -> Hls.Instance) (s : LoaderState) :
  (forall h, Hls.source (f h) = Hls.source h) ->
  proxied_session originalUrl requested s ->
  proxied_session originalUrl requested (with_hls f s).
Proof.
  intros Hf (Hm & Hr & h & Hh & Hs). split; [exact Hm|]. split; [exact Hr|].
  exists (f h). cbn. rewrite Hh. cbn. split; [reflexivity|].
  rewrite Hf. exact Hs.
Qed.

Lemma onError_proxy_session (platform : Platform) (originalUrl : string)
    (requested : list string) (data : Hls.ErrorData) (s : LoaderState) :
  proxied_session originalUrl requested s ->
  proxied_session originalUrl requested (onError platform originalUrl true data s).
Proof.
  intros H. unfold onError. rewrite andb_false_r.
  destruct (Hls.fatal data); [|apply log_session; exact H].
  destruct (Hls.type data);
    try (apply log_session, log_session; exact H);
    apply with_hls_session; try reflexivity; apply log_session, log_session; exact H.
Qed.

Lemma dispatch_proxy_session (platform : Platform) (originalUrl : string)
    (requested : list string) (e : LoaderEvent) (s : LoaderState) :
  proxied_session originalUrl requested s ->
  proxied_session originalUrl requested (dispatch platform originalUrl e s).
Proof.
  intros H. destruct e as [data|]; [|exact H]. cbn.
  destruct H as (Hm & Hr & h & Hh & Hs). rewrite Hh.
  apply onError_proxy_session. split; [exact Hm|]. split; [exact Hr|]. eauto.
Qed.

Lemma dispatch_all_proxy_session (platform : Platform) (originalUrl : string)
    (requested : list string) (events : list LoaderEvent) (s : LoaderState) :
  proxied_session originalUrl requested s ->
  proxied_session originalUrl requested (dispatch_all platform originalUrl events s).
Proof.
  unfold dispatch_all. revert s.
  induction events as [|e events IH]; intros s H; cbn; [exact H|].
  apply IH. apply dispatch_proxy_session. exact H.
Qed.

(** C8, as the code has it.  Where hls.js is supported, a channel is first
    requested at its own URL; a manifest-load failure of that direct
    attempt makes one more request, for the proxy address followed by the
    encoded original URL.  Whatever errors follow, another manifest-load
    failure included, no further request is made and the proxied instance
    stays in place with the loader mounted.  A manifest-load failure of the
    proxied attempt is written to the console as an error, and when it is
    fatal the instance is asked once to start loading again. *)
Theorem live_load_retries_once_through_proxy (platform : Platform)
    (originalUrl : string) (failure : Hls.ErrorData) :
  Hls_isSupported platform = true ->
  is_manifest_load_error failure = true ->
  let proxiedUrl := proxy +:+ encodeURIComponent originalUrl in
  let direct := start platform originalUrl in
  let retried := dispatch platform originalUrl (HlsError failure) direct in
  requested direct = [originalUrl] /\
  requested retried = [originalUrl; proxiedUrl] /\
  proxied_session originalUrl [originalUrl; proxiedUrl] retried /\
  (forall events,
     proxied_session originalUrl [originalUrl; proxiedUrl]
       (dispatch_all platform originalUrl events retried)) /\
  (forall fatal,
     let failed := dispatch platform originalUrl (manifestLoadFailure fatal) retried in
     requested failed = [originalUrl; proxiedUrl] /\
     isMounted failed = true /\
     In (console_error
           ("HLS.js error: type: networkError, details: manifestLoadError, fatal: "
            +:+ bool_text fatal)) (console failed) /\
     hls failed
     = Some ({| Hls.source := proxiedUrl;
                Hls.startLoad_calls := if fatal then 1 else 0;
                Hls.recoverMediaError_calls := 0 |}, true)).
Proof.
  intros Hsupported Hfailure proxiedUrl direct retried.
  assert (Hdirect : direct =
    {| isMounted := true;
       hls := Some ({| Hls.source := originalUrl; Hls.startLoad_calls := 0;
                       Hls.recoverMediaError_calls := 0 |}, false);
       video_src := None; requested := [originalUrl]; console := [] |}).
  { unfold direct, start, attemptLoad. cbn. rewrite Hsupported. reflexivity. }
  assert (Hretried : exists entries, retried =
    {| isMounted := true;
       hls := Some ({| Hls.source := proxiedUrl; Hls.startLoad_calls := 0;
                       Hls.recoverMediaError_calls := 0 |}, true);
       video_src := None; requested := [originalUrl; proxiedUrl];
       console := entries |}).
  { unfold retried. rewrite Hdirect. cbn [dispatch hls]. unfold onError.
    rewrite Hfailure. cbn [negb andb]. unfold attemptLoad. cbn.
    rewrite Hsupported. eexists. reflexivity. }
  destruct Hretried as [entries Hretried].
  assert (Hsession : proxied_session originalUrl [originalUrl; proxiedUrl] retried).
  { rewrite Hretried. split; [reflexivity|]. split; [reflexivity|].
    eexists. split; reflexivity. }
  split; [rewrite Hdirect; reflexivity|].
  split; [rewrite Hretried; reflexivity|].
  split; [exact Hsession|].
  split; [intros events; apply dispatch_all_proxy_session; exact Hsession|].
  intros fatal failed. unfold failed. rewrite Hretried.
  destruct fatal; cbn; (split; [reflexivity|]); (split; [reflexivity|]);
    (split; [|reflexivity]); rewrite ?in_app_iff; cbn [In]; auto 6.
Qed.

Lemma live_load_retries_once_through_proxy_witness :
  requested
    (dispatch_all hls_platform channel_url
       [manifestLoadFailure true; manifestLoadFailure true; manifestLoadFailure false]
       (start hls_platform channel_url))
  = [ channel_url;
      "https://api.allorigins.win/raw?url=http%3A%2F%2Ftv.example%2Flive%2Fone.m3u8" ].
Proof.
  pose proof (live_load_retries_once_through_proxy hls_platform channel_url
                {| Hls.type := Hls.NETWORK_ERROR; Hls.details := Hls.MANIFEST_LOAD_ERROR;
                   Hls.fatal := true; Hls.response := None |}
                eq_refl eq_refl) as H.
  cbv zeta in H. destruct H as (_ & _ & _ & Hall & _).
  destruct (Hall [manifestLoadFailure true; manifestLoadFailure false])
    as (_ & Hrequested & _).
  exact Hrequested.
Defined.

(** C8, as stated, fails where hls.js is not supported and the element
    plays the stream itself: the channel URL is assigned to [video.src],
    and when that load fails nothing retries through the proxy; the only
    request ever made is the direct one. *)
Lemma native_load_is_not_retried :
  Hls_isSupported native_platform = false /\
  video_src (start native_platform channel_url) = Some channel_url /\
  requested
    (dispatch_all native_platform channel_url
       [VideoError; manifestLoadFailure true] (start native_platform channel_url))
  = [channel_url] /\
  ~ In (proxy +:+ encodeURIComponent channel_url)
       (requested
          (dispatch_all native_platform channel_url
             [VideoError; manifestLoadFailure true] (start native_platform channel_url))).
Proof.
  split; [reflexivity|]. split; [reflexivity|]. split; [reflexivity|].
  intros [H | []]. discriminate H.
Qed.

End live_loader.

(* ================================================================== *)
(** * Further properties of the storage helpers *)
(* ================================================================== *)

Section position_table.
Import Storage.

(** X1. Positions behave as a table keyed by media identity: a recorded
    time other than 0 is recalled as it was recorded, a cleared identity
    recalls nothing, and neither operation changes what any other identity
    recalls or the recent-magnets entry. *)
Theorem position_record_clear_recall (ls : localStorage) (id : string) (t : Q) :
  ~ (t == 0)%Q ->
  getPlaybackPosition (setPlaybackPosition ls id t) id = Some t /\
  getPlaybackPosition (clearPlaybackPosition ls id) id = None /\
  (forall other, other <> id ->
     getPlaybackPosition (setPlaybackPosition ls id t) other
     = getPlaybackPosition ls other /\
     getPlaybackPosition (clearPlaybackPosition ls id) other
     = getPlaybackPosition ls other) /\
  nexo_recent_magnets (setPlaybackPosition ls id t) = nexo_recent_magnets ls /\
  nexo_recent_magnets (clearPlaybackPosition ls id) = nexo_recent_magnets ls.
Proof.
  intros Ht. split; [|split; [|split; [|split]]].
  - rewrite getPlaybackPosition_set, decide_True by reflexivity.
    cbn. unfold truthy_number.
    destruct (Qeq_bool t 0) eqn:E; [|reflexivity].
    apply Qeq_bool_iff in E. contradiction.
  - rewrite getPlaybackPosition_clear, decide_True by reflexivity. reflexivity.
  - intros other Hne.
    rewrite getPlaybackPosition_set, getPlaybackPosition_clear.
    rewrite !decide_False by congruence. split; reflexivity.
  - reflexivity.
  - unfold clearPlaybackPosition.
    destruct (nexo_playback_positions ls) as [[| |positions]|]; reflexivity.
Qed.

Lemma position_record_clear_recall_witness :
  getPlaybackPosition
    (setPlaybackPosition (Examples.storage_with_position Examples.movie_id 50)
       "iptv-channel-http://tv/1.m3u8" 12) "iptv-channel-http://tv/1.m3u8"
  = Some 12%Q.
Proof.
  apply (position_record_clear_recall
           (Examples.storage_with_position Examples.movie_id 50)
           "iptv-channel-http://tv/1.m3u8" 12%Q).
  intros H. discriminate H.
Defined.

End position_table.

Section expiring_cache.
Import Cache.
Context {T : Type}.



(** X3. Saving under one address does not change what a read of any other
    address returns. *)
Theorem cache_save_keeps_others (now later : Q)
    (stored : option (text (gmap string (CachedData T))))
    (url other : string) (value : T) (durationMs : Q) :
  other <> url ->
  fst (getFromCache later (saveToCache now stored url value durationMs) other)
  = fst (getFromCache later stored other).
Proof.
  intros Hne. unfold getFromCache, saveToCache. cbn.
  rewrite lookup_insert_ne by congruence.
  destruct stored as [[| |cache]|]; cbn; try reflexivity.
  destruct (cache !! other) as [entry|]; [|reflexivity].
  destruct (num_lt later (expiresAt entry)); reflexivity.
Qed.

(** X4. A read at or after the expiry time returns nothing and deletes
    that one record: a later read of the same address finds nothing either
    and writes nothing, and the records of other addresses stay readable. *)
Theorem cache_expired_entry_removed (now later again : Q)
    (stored : option (text (gmap string (CachedData T))))
    (url : string) (value : T) (durationMs : Q) :
  (now + durationMs <= later)%Q ->
  let saved := saveToCache now stored url value durationMs in
  let after := snd (getFromCache later saved url) in
  fst (getFromCache later saved url) = None /\
  getFromCache again after url = (None, after) /\
  (forall other, other <> url ->
     fst (getFromCache again after other) = fst (getFromCache again saved other)).
Proof.
  intros Hexpired saved after.
  assert (Hstale : num_lt later (now + durationMs) = false).
  { unfold num_lt. apply num_gt_false. exact Hexpired. }
  unfold after, saved, getFromCache, saveToCache. cbn.
  rewrite lookup_insert_eq. cbn. rewrite Hstale. cbn.
  rewrite lookup_delete_eq.
  split; [reflexivity|]. split; [reflexivity|].
  intros other Hne.
  rewrite lookup_delete_ne by congruence.
  match goal with |- context [?m !! other] => destruct (m !! other) as [entry|] end;
    [|reflexivity].
  destruct (num_lt again (expiresAt entry)); reflexivity.
Qed.

End expiring_cache.


Lemma cache_save_keeps_others_witness :
  fst (Cache.getChaptersFromCache 1000
         (Cache.cacheChapters 0 None "Movie-5400" Examples.sample_chapters)
         "Other-60")
  = None.
Proof.
  pose proof (cache_save_keeps_others 0 1000 None "Movie-5400" "Other-60"
                Examples.sample_chapters Cache.GEMINI_CACHE_DURATION_MS) as H.
  unfold Cache.getChaptersFromCache, Cache.cacheChapters. rewrite H; [reflexivity|].
  discriminate.
Defined.

Lemma cache_expired_entry_removed_witness :
  fst (Cache.getChaptersFromCache 604800000
         (Cache.cacheChapters 0 None "Movie-5400" Examples.sample_chapters)
         "Movie-5400")
  = None.
Proof.
  apply (cache_expired_entry_removed 0 604800000 0 None "Movie-5400"
           Examples.sample_chapters Cache.GEMINI_CACHE_DURATION_MS).
  cbn. discriminate.
Defined.

Section list_facts.
Context {A : Type}.

Lemma capped_firstn (max : nat) (l : list A) : History.capped max l = firstn max l.
Proof.
  unfold History.capped. destruct (Nat.ltb max (List.length l)) eqn:E; [reflexivity|].
  apply Nat.ltb_ge in E. symmetry. apply firstn_all2. exact E.
Qed.

Lemma In_firstn_In (n : nat) (l : list A) (x : A) : In x (firstn n l) -> In x l.
Proof.
  intros H. rewrite <- (firstn_skipn n l). apply in_or_app. left. exact H.
Qed.



Lemma filter_idem (f : A -> bool) (l : list A) :
  List.filter f (List.filter f l) = List.filter f l.
Proof.
  induction l as [|a l IH]; cbn; [reflexivity|].
  destruct (f a) eqn:E; cbn; rewrite ?E, IH; reflexivity.
Qed.

Lemma filter_all (f : A -> bool) (l : list A) :
  (forall x, In x l -> f x = true) -> List.filter f l = l.
Proof.
  induction l as [|a l IH]; cbn; intros H; [reflexivity|].
  rewrite (H a) by (left; reflexivity). f_equal. apply IH.
  intros x Hx. apply H. right. exact Hx.
Qed.

End list_facts.

Section epg_cache.
Import Cache MoreTypes.





End epg_cache.

Section subtitle_settings.
Import Settings MoreTypes.

(** X6. Subtitle settings that are saved are read back unchanged; with
    nothing stored, an empty string or unreadable text the defaults are
    returned (normal size, white, background on, offset 0); and of a stored
    object every field it has is kept, while each field it lacks, whichever
    and however many, gets its default. *)
Theorem subtitle_settings_round_trip :
  (forall settings, getSubtitleSettings (setSubtitleSettings settings) = settings) /\
  getSubtitleSettings None = defaultSubtitleSettings /\
  getSubtitleSettings (Some EmptyText) = defaultSubtitleSettings /\
  (forall raw, getSubtitleSettings (Some (BadText raw)) = defaultSubtitleSettings) /\
  (forall parsed,
     let settings := getSubtitleSettings (Some (JsonText parsed)) in
     match stored_size parsed with
     | Some s => size settings = s
     | None => size settings = normal
     end /\
     match stored_color parsed with
     | Some c => color settings = c
     | None => color settings = white
     end /\
     match stored_background parsed with
     | Some b => background settings = b
     | None => background settings = true
     end /\
     match stored_offset parsed with
     | Some o => offset settings = o
     | None => offset settings = 0%Q
     end).
Proof.
  split; [|split; [|split; [|split]]].
  - intros [s c b o]. reflexivity.
  - reflexivity.
  - reflexivity.
  - intros raw. reflexivity.
  - intros [[s|] [c|] [b|] [o|]]; cbn; repeat split.
Qed.

End subtitle_settings.

Section playlist_history.
Import Run History.



End playlist_history.

Section recent_magnets.
Import Storage History.

Lemma differs_from_self (magnet : string) : differs_from magnet (JString magnet) = false.
Proof. cbn. rewrite String.eqb_refl. reflexivity. Qed.

Lemma getRecentMagnets_after_set (ls : localStorage) (items : list json) :
  getRecentMagnets (setItem_RECENT_MAGNETS_KEY (JSON_stringify (JArray items)) ls) = items.
Proof. reflexivity. Qed.

Lemma addRecentMagnet_list (ls : localStorage) (magnet : string) :
  startsWith magnet "magnet:?" = true ->
  getRecentMagnets (addRecentMagnet ls magnet)
  = JString magnet :: firstn 4 (List.filter (differs_from magnet) (getRecentMagnets ls)).
Proof.
  intros Hm. unfold addRecentMagnet. rewrite Hm. cbn [negb].
  rewrite getRecentMagnets_after_set, capped_firstn. reflexivity.
Qed.



(** X10. The first magnet link added to a storage that holds no list is
    stored together with the built-in example, which the empty storage
    only displayed: the list becomes the link followed by the example. *)
Theorem first_magnet_keeps_example (ls : localStorage) (magnet : string) :
  nexo_recent_magnets ls = None ->
  startsWith magnet "magnet:?" = true ->
  magnet <> EXAMPLE_MAGNET ->
  getRecentMagnets (addRecentMagnet ls magnet)
  = [JString magnet; JString EXAMPLE_MAGNET].
Proof.
  intros Hnone Hm Hne. rewrite addRecentMagnet_list by exact Hm.
  assert (getRecentMagnets ls = [JString EXAMPLE_MAGNET]) as ->
    by (unfold getRecentMagnets; rewrite Hnone; reflexivity).
  cbn [List.filter differs_from].
  assert (String.eqb EXAMPLE_MAGNET magnet = false) as ->
    by (apply String.eqb_neq; congruence).
  reflexivity.
Qed.

Lemma first_magnet_keeps_example_witness :
  getRecentMagnets
    (addRecentMagnet (Examples.storage_with_magnets None) "magnet:?xt=urn:btih:aa")
  = [JString "magnet:?xt=urn:btih:aa"; JString EXAMPLE_MAGNET].
Proof.
  apply (first_magnet_keeps_example (Examples.storage_with_magnets None)
           "magnet:?xt=urn:btih:aa"); [reflexivity | reflexivity | discriminate].
Defined.

(** X11. Adding the same text twice in a row is the same as adding it
    once. *)
Theorem addRecentMagnet_idempotent (ls : localStorage) (magnet : string) :
  addRecentMagnet (addRecentMagnet ls magnet) magnet = addRecentMagnet ls magnet.
Proof.
  destruct (startsWith magnet "magnet:?") eqn:Hm.
  - set (others := List.filter (differs_from magnet) (getRecentMagnets ls)).
    assert (Hfirst : addRecentMagnet ls magnet
                     = setItem_RECENT_MAGNETS_KEY
                         (JSON_stringify (JArray (JString magnet :: firstn 4 others))) ls).
    { unfold addRecentMagnet. rewrite Hm. cbn [negb]. fold others.
      rewrite capped_firstn. reflexivity. }
    rewrite Hfirst. unfold addRecentMagnet at 1. rewrite Hm. cbn [negb].
    rewrite getRecentMagnets_after_set, capped_firstn.
    cbn [List.filter]. rewrite differs_from_self.
    rewrite filter_all.
    + rewrite (firstn_cons 4), firstn_firstn, Nat.min_id. reflexivity.
    + intros x Hx. apply In_firstn_In, List.filter_In in Hx. tauto.
  - unfold addRecentMagnet. rewrite Hm. reflexivity.
Qed.

End recent_magnets.

Section favorites.
Import Run MoreTypes Favorites.

Lemma existsb_has_url (u : string) (favorites : list FavoritePlaylist) :
  existsb (has_url u) favorites = true <-> In u (map playlist_url favorites).
Proof.
  rewrite existsb_exists, in_map_iff. split.
  - intros (fav & Hin & H). apply String.eqb_eq in H. eauto.
  - intros (fav & H & Hin). exists fav. split; [exact Hin|].
    apply String.eqb_eq. exact H.
Qed.

(** X12. Favorite playlists never hold one address twice: if the stored
    addresses are pairwise distinct they still are after a playlist is
    added, and the added address is among them.  Adding a playlist whose
    address is already a favorite writes nothing, so the existing name and
    guide address stay. *)
Theorem addFavoritePlaylist_distinct (stored : option (text (list FavoritePlaylist)))
    (favorites : list FavoritePlaylist) (playlist : FavoritePlaylist) :
  getFavoritePlaylists stored = Returned favorites ->
  NoDup (map playlist_url favorites) ->
  exists stored' favorites',
    addFavoritePlaylist stored playlist = Returned stored' /\
    getFavoritePlaylists stored' = Returned favorites' /\
    NoDup (map playlist_url favorites') /\
    In (playlist_url playlist) (map playlist_url favorites') /\
    (In (playlist_url playlist) (map playlist_url favorites) -> stored' = stored).
Proof.
  intros Hread Hnd. unfold addFavoritePlaylist. rewrite Hread. cbn [bind].
  destruct (existsb (has_url (playlist_url playlist)) favorites) eqn:E; cbn [negb].
  - exists stored, favorites. apply existsb_has_url in E. auto.
  - exists (setFavoritePlaylists (favorites ++ [playlist])), (favorites ++ [playlist]).
    split; [reflexivity|]. split; [reflexivity|].
    assert (Hfresh : ~ In (playlist_url playlist) (map playlist_url favorites)).
    { intros H. apply existsb_has_url in H. congruence. }
    split; [|split].
    + rewrite map_app. apply NoDup_app. split; [exact Hnd|].
      split; [|apply NoDup_singleton].
      intros x Hx Hp. apply list_elem_of_singleton in Hp. subst x.
      apply Hfresh, list_elem_of_In. exact Hx.
    + rewrite map_app. apply in_or_app. right. left. reflexivity.
    + intros H. contradiction.
Qed.

Lemma addFavoritePlaylist_distinct_witness :
  exists stored',
    addFavoritePlaylist
      (Some (JsonText [ {| playlist_name := "Home"; playlist_url := "http://a/list.m3u";
                           epgUrl := Some "http://a/guide.xml" |} ]))
      {| playlist_name := "Again"; playlist_url := "http://a/list.m3u"; epgUrl := None |}
    = Returned stored' /\
    stored' = Some (JsonText [ {| playlist_name := "Home";
                                  playlist_url := "http://a/list.m3u";
                                  epgUrl := Some "http://a/guide.xml" |} ]).
Proof.
  destruct (addFavoritePlaylist_distinct
              (Some (JsonText [ {| playlist_name := "Home";
                                   playlist_url := "http://a/list.m3u";
                                   epgUrl := Some "http://a/guide.xml" |} ]))
              [ {| playlist_name := "Home"; playlist_url := "http://a/list.m3u";
                   epgUrl := Some "http://a/guide.xml" |} ]
              {| playlist_name := "Again"; playlist_url := "http://a/list.m3u";
                 epgUrl := None |} eq_refl)
    as (stored' & favorites' & Hadd & _ & _ & _ & Hsame).
  - cbn. apply NoDup_singleton.
  - exists stored'. split; [exact Hadd|]. apply Hsame. left. reflexivity.
Defined.

(** X13. Editing a favorite playlist keeps the list's addresses, order and
    length, leaves every playlist with another address as it is, and never
    removes a guide address: a playlist that had one still has one, even
    when the new guide address is missing or empty. *)
Theorem updateFavoritePlaylist_keeps_guide
    (stored : option (text (list FavoritePlaylist)))
    (favorites : list FavoritePlaylist) (u newName : string)
    (newEpgUrl : option string) :
  getFavoritePlaylists stored = Returned favorites ->
  exists favorites',
    updateFavoritePlaylist stored u newName newEpgUrl
    = Returned (Some (JsonText favorites')) /\
    map playlist_url favorites' = map playlist_url favorites /\
    forall i fav, favorites !! i = Some fav ->
      exists fav', favorites' !! i = Some fav' /\
        (playlist_url fav <> u -> fav' = fav) /\
        (playlist_url fav = u -> playlist_name fav' = newName) /\
        (epgUrl fav <> None -> epgUrl fav' <> None) /\
        (newEpgUrl = None \/ newEpgUrl = Some "" -> epgUrl fav' = epgUrl fav).
Proof.
  intros Hread. unfold updateFavoritePlaylist. rewrite Hread. cbn [bind].
  eexists. split; [reflexivity|]. split.
  - rewrite map_map. apply map_ext. intros fav.
    destruct (has_url u fav); reflexivity.
  - intros i fav Hi.
    exists (if has_url u fav
            then {| playlist_name := newName; playlist_url := playlist_url fav;
                    epgUrl := or_epgUrl newEpgUrl (epgUrl fav) |}
            else fav).
    split.
    + change (map ?f favorites) with (f <$> favorites).
      rewrite list_lookup_fmap, Hi. reflexivity.
    + unfold has_url. destruct (String.eqb (playlist_url fav) u) eqn:E.
      * apply String.eqb_eq in E. cbn.
        split; [congruence|]. split; [reflexivity|]. split.
        -- intros Hold. unfold or_epgUrl. destruct newEpgUrl as [s|]; [|exact Hold].
           destruct (truthy_string s); [discriminate | exact Hold].
        -- intros [-> | ->]; reflexivity.
      * apply String.eqb_neq in E.
        split; [reflexivity|]. split; [congruence|]. split; [auto|].
        intros _. reflexivity.
Qed.

Lemma updateFavoritePlaylist_keeps_guide_witness :
  exists favorites',
    updateFavoritePlaylist
      (Some (JsonText [ {| playlist_name := "Home"; playlist_url := "http://a/list.m3u";
                           epgUrl := Some "http://a/guide.xml" |} ]))
      "http://a/list.m3u" "Living room" (Some "")
    = Returned (Some (JsonText favorites')) /\
    map playlist_url favorites' = ["http://a/list.m3u"].
Proof.
  destruct (updateFavoritePlaylist_keeps_guide
              (Some (JsonText [ {| playlist_name := "Home";
                                   playlist_url := "http://a/list.m3u";
                                   epgUrl := Some "http://a/guide.xml" |} ]))
              [ {| playlist_name := "Home"; playlist_url := "http://a/list.m3u";
                   epgUrl := Some "http://a/guide.xml" |} ]
              "http://a/list.m3u" "Living room" (Some "") eq_refl)
    as (favorites' & Hupdate & Hurls & _).
  exists favorites'. split; assumption.
Defined.

(** X14. Toggling a channel flips whether it is a favorite and changes no
    other channel's status; what is stored is the new list; and toggling a
    channel that was not a favorite twice gives back the list there was. *)
Theorem toggleFavorite_flips (favorites : list Channel) (channel : Channel) :
  let toggled := toggleFavorite favorites channel in
  isFavorite (fst toggled) channel = negb (isFavorite favorites channel) /\
  getFavoriteChannels (snd toggled) = Returned (fst toggled) /\
  (forall other, url other <> url channel ->
     isFavorite (fst toggled) other = isFavorite favorites other) /\
  (isFavorite favorites channel = false ->
   fst (toggleFavorite (fst toggled) channel) = favorites).
Proof.
  set (keep := fun fav : Channel => negb (String.eqb (url fav) (url channel))).
  assert (Hfilter : forall other,
            isFavorite (List.filter keep favorites) other
            = isFavorite favorites other && negb (String.eqb (url other) (url channel))).
  { intros other. unfold isFavorite.
    induction favorites as [|fav favorites IH]; [reflexivity|]. cbn.
    unfold keep at 1. destruct (String.eqb (url fav) (url channel)) eqn:E1; cbn.
    - rewrite IH. apply String.eqb_eq in E1.
      destruct (String.eqb (url fav) (url other)) eqn:E2; [|reflexivity].
      apply String.eqb_eq in E2. cbn.
      assert (String.eqb (url other) (url channel) = true) as ->
        by (apply String.eqb_eq; congruence).
      cbn. rewrite andb_false_r. reflexivity.
    - rewrite IH. destruct (String.eqb (url fav) (url other)) eqn:E2; [|reflexivity].
      apply String.eqb_eq in E2. cbn. rewrite <- E2, E1. reflexivity. }
  assert (Happ : forall other,
            isFavorite (favorites ++ [channel]) other
            = isFavorite favorites other || String.eqb (url channel) (url other)).
  { intros other. unfold isFavorite. rewrite existsb_app. cbn.
    rewrite orb_false_r. reflexivity. }
  intros toggled. unfold toggled, toggleFavorite. fold keep.
  destruct (isFavorite favorites channel) eqn:Hfav; cbn [fst snd negb].
  - split; [|split; [reflexivity|split]].
    + rewrite Hfilter, String.eqb_refl. apply andb_false_r.
    + intros other Hne. rewrite Hfilter.
      assert (String.eqb (url other) (url channel) = false) as ->
        by (apply String.eqb_neq; exact Hne).
      apply andb_true_r.
    + discriminate.
  - split; [|split; [reflexivity|split]].
    + rewrite Happ, String.eqb_refl. apply orb_true_r.
    + intros other Hne. rewrite Happ.
      assert (String.eqb (url channel) (url other) = false) as ->
        by (apply String.eqb_neq; congruence).
      apply orb_false_r.
    + intros _. rewrite Happ, String.eqb_refl, orb_true_r.
      rewrite List.filter_app. cbn. unfold keep at 2. rewrite String.eqb_refl. cbn.
      rewrite app_nil_r. apply filter_all.
      intros fav Hin. unfold keep.
      destruct (String.eqb (url fav) (url channel)) eqn:E; [|reflexivity].
      exfalso. unfold isFavorite in Hfav.
      assert (existsb (fun fav => String.eqb (url fav) (url channel)) favorites = true)
        by (apply existsb_exists; eauto).
      congruence.
Qed.

Lemma toggleFavorite_flips_witness :
  fst (toggleFavorite
         (fst (toggleFavorite []
                 {| name := "One"; url := "http://tv.example/one.m3u8"; logo := None;
                    group := None; tvgId := Some "one.tv" |}))
         {| name := "One"; url := "http://tv.example/one.m3u8"; logo := None;
            group := None; tvgId := Some "one.tv" |})
  = [].
Proof.
  apply (toggleFavorite_flips []
           {| name := "One"; url := "http://tv.example/one.m3u8"; logo := None;
              group := None; tvgId := Some "one.tv" |}).
  reflexivity.
Defined.

End favorites.
Section time_remaining.
Import Controls.

Lemma Qfloor_unique (x : Q) (k : Z) :
  (inject_Z k <= x)%Q -> (x < inject_Z k + 1)%Q -> Qfloor x = k.
Proof.
  intros Hle Hlt.
  pose proof (Qfloor_le x) as H1. pose proof (Qlt_floor x) as H2.
  rewrite inject_Z_plus in H2. change (inject_Z 1) with 1%Q in H2.
  assert (Ha : (inject_Z k < inject_Z (Qfloor x) + 1)%Q) by lra.
  assert (Hb : (inject_Z (Qfloor x) < inject_Z k + 1)%Q) by lra.
  change 1%Q with (inject_Z 1) in Ha, Hb.
  rewrite <- inject_Z_plus in Ha, Hb.
  rewrite <- Zlt_Qlt in Ha, Hb. lia.
Qed.

Lemma Qfloor_bounds (x : Q) :
  (inject_Z (Qfloor x) <= x)%Q /\ (x < inject_Z (Qfloor x) + 1)%Q.
Proof.
  split; [apply Qfloor_le|].
  pose proof (Qlt_floor x) as H. rewrite inject_Z_plus in H. exact H.
Qed.

Lemma truncate_nonneg (x : Q) : (0 <= x)%Q -> truncate x = Qfloor x.
Proof.
  destruct x as [n d]. unfold Qle, truncate, Qfloor. cbn. intros H.
  apply Z.quot_div_nonneg; lia.
Qed.

Lemma time_decomposition (t : Q) :
  (0 <= t)%Q ->
  let hours := Qfloor (t / 3600) in
  let minutes := Qfloor (remainder t 3600 / 60) in
  let seconds := Qfloor (remainder t 60) in
  (0 <= hours)%Z /\ (0 <= minutes < 60)%Z /\ (0 <= seconds < 60)%Z /\
  (hours * 3600 + minutes * 60 + seconds = Qfloor t)%Z.
Proof.
  intros Ht. cbv zeta.
  assert (H3600 : (0 <= t / 3600)%Q) by (apply Qle_shift_div_l; lra).
  assert (H60 : (0 <= t / 60)%Q) by (apply Qle_shift_div_l; lra).
  unfold remainder.
  rewrite (truncate_nonneg _ H3600), (truncate_nonneg _ H60).
  set (hours := Qfloor (t / 3600)).
  set (k := Qfloor (t / 60)).
  set (minutes := Qfloor ((t - 3600 * inject_Z hours) / 60)).
  set (seconds := Qfloor (t - 60 * inject_Z k)).
  destruct (Qfloor_bounds (t / 3600)) as [Hh1 Hh2]. fold hours in Hh1, Hh2.
  destruct (Qfloor_bounds (t / 60)) as [Hk1 Hk2]. fold k in Hk1, Hk2.
  destruct (Qfloor_bounds ((t - 3600 * inject_Z hours) / 60)) as [Hm1 Hm2].
  fold minutes in Hm1, Hm2.
  destruct (Qfloor_bounds (t - 60 * inject_Z k)) as [Hs1 Hs2].
  fold seconds in Hs1, Hs2.
  destruct (Qfloor_bounds t) as [Hf1 Hf2].
  assert (E3600 : (t / 3600 == t * (1 # 3600))%Q) by (field).
  assert (E60 : (t / 60 == t * (1 # 60))%Q) by (field).
  assert (Em : ((t - 3600 * inject_Z hours) / 60
                == (t - 3600 * inject_Z hours) * (1 # 60))%Q) by (field).
  rewrite E3600 in Hh1, Hh2. rewrite E60 in Hk1, Hk2. rewrite Em in Hm1, Hm2.
  assert (Hk : k = (60 * hours + minutes)%Z).
  { unfold k. apply Qfloor_unique.
    - rewrite inject_Z_plus, inject_Z_mult, E60. change (inject_Z 60) with 60%Q. lra.
    - rewrite inject_Z_plus, inject_Z_mult, E60. change (inject_Z 60) with 60%Q. lra. }
  assert (Hfl : Qfloor t = (60 * k + seconds)%Z).
  { apply Qfloor_unique.
    - rewrite inject_Z_plus, inject_Z_mult. change (inject_Z 60) with 60%Q. lra.
    - rewrite inject_Z_plus, inject_Z_mult. change (inject_Z 60) with 60%Q. lra. }
  assert (Hh : (0 <= hours)%Z).
  { assert ((inject_Z 0 < inject_Z (hours + 1))%Q).
    { rewrite inject_Z_plus. change (inject_Z 0) with 0%Q. change (inject_Z 1) with 1%Q. lra. }
    rewrite <- Zlt_Qlt in H. lia. }
  assert (Hm : (0 <= minutes < 60)%Z).
  { split.
    - assert ((inject_Z 0 < inject_Z (minutes + 1))%Q).
      { rewrite inject_Z_plus. change (inject_Z 0) with 0%Q. change (inject_Z 1) with 1%Q. lra. }
      rewrite <- Zlt_Qlt in H. lia.
    - rewrite Zlt_Qlt. change (inject_Z 60) with 60%Q. lra. }
  assert (Hs : (0 <= seconds < 60)%Z).
  { split.
    - assert ((inject_Z 0 < inject_Z (seconds + 1))%Q).
      { rewrite inject_Z_plus. change (inject_Z 0) with 0%Q. change (inject_Z 1) with 1%Q. lra. }
      rewrite <- Zlt_Qlt in H. lia.
    - rewrite Zlt_Qlt. change (inject_Z 60) with 60%Q. lra. }
  repeat split; try lia.
Qed.

Lemma truthy_append_l (a b : string) :
  truthy_string a = true -> truthy_string (a +:+ b) = true.
Proof. destruct a; [discriminate | reflexivity]. Qed.

Lemma truthy_append_r (a b : string) :
  truthy_string b = true -> truthy_string (a +:+ b) = true.
Proof. intros H. destruct a; [exact H | reflexivity]. Qed.

Lemma truthy_concat (sep : string) (parts : list string) :
  parts <> [] -> Forall (fun p => truthy_string p = true) parts ->
  truthy_string (String.concat sep parts) = true.
Proof.
  destruct parts as [|p parts]; [congruence|]. intros _ Hall.
  inversion Hall as [|? ? Hp _]; subst. cbn.
  destruct parts; [exact Hp | apply truthy_append_l; exact Hp].
Qed.

Lemma time_parts_truthy (hours minutes seconds : Z) :
  Forall (fun p => truthy_string p = true) (time_parts hours minutes seconds).
Proof.
  unfold time_parts.
  destruct (0 <? hours)%Z, (0 <? minutes)%Z, ((hours =? 0)%Z && (0 <? seconds)%Z);
    repeat constructor; apply truthy_append_r; reflexivity.
Qed.

(** X15. The time-remaining label: a negative number of seconds gives the
    infinity sign and less than one second gives [Done]; from one second
    on, the label joins the parts for the whole hours, minutes and seconds
    of the rounded-down time (minutes and seconds below 60, seconds only
    shown under one hour), at least one part is present, and the fallback
    text of three dots is never used. *)
Theorem formatTimeRemaining_cases (t : Q) :
  ((t < 0)%Q -> formatTimeRemaining t = "∞") /\
  ((0 <= t)%Q -> (t < 1)%Q -> formatTimeRemaining t = "Done") /\
  ((1 <= t)%Q ->
   exists hours minutes seconds : Z,
     (0 <= hours)%Z /\ (0 <= minutes < 60)%Z /\ (0 <= seconds < 60)%Z /\
     (hours * 3600 + minutes * 60 + seconds = Qfloor t)%Z /\
     time_parts hours minutes seconds <> [] /\
     formatTimeRemaining t = String.concat " " (time_parts hours minutes seconds)).
Proof.
  unfold formatTimeRemaining. split; [|split].
  - intros H. apply num_lt_spec in H. rewrite H. reflexivity.
  - intros H0 H1.
    assert (num_lt t 0 = false) as -> by (unfold num_lt; apply num_gt_false; exact H0).
    apply num_lt_spec in H1. rewrite H1. reflexivity.
  - intros H1.
    assert (num_lt t 0 = false) as -> by (unfold num_lt; apply num_gt_false; lra).
    assert (num_lt t 1 = false) as -> by (unfold num_lt; apply num_gt_false; exact H1).
    cbv zeta.
    destruct (time_decomposition t ltac:(lra)) as (Hh & Hm & Hs & Hsum).
    cbv zeta in Hh, Hm, Hs, Hsum.
    set (hours := Qfloor (t / 3600)) in *.
    set (minutes := Qfloor (remainder t 3600 / 60)) in *.
    set (seconds := Qfloor (remainder t 60)) in *.
    exists hours, minutes, seconds.
    assert (Hfloor : (1 <= Qfloor t)%Z)
      by (change 1%Z with (Qfloor 1); apply Qfloor_resp_le; exact H1).
    assert (Hparts : time_parts hours minutes seconds <> []).
    { unfold time_parts.
      destruct (0 <? hours)%Z eqn:Eh; [discriminate|].
      destruct (0 <? minutes)%Z eqn:Em; [discriminate|].
      apply Z.ltb_ge in Eh, Em.
      assert (hours = 0%Z) as -> by lia.
      assert ((0 <? seconds)%Z = true) as -> by (apply Z.ltb_lt; lia).
      discriminate. }
    repeat (split; [assumption|]).
    unfold or_string.
    rewrite truthy_concat; [reflexivity | exact Hparts | apply time_parts_truthy].
Qed.

Lemma formatTimeRemaining_cases_witness :
  formatTimeRemaining (1 # 2) = "Done" /\
  exists hours minutes seconds : Z,
    (hours * 3600 + minutes * 60 + seconds = 3725)%Z /\
    formatTimeRemaining (7451 # 2) = String.concat " " (time_parts hours minutes seconds).
Proof.
  split.
  - apply (proj1 (proj2 (formatTimeRemaining_cases (1 # 2)))); [discriminate | reflexivity].
  - destruct (proj2 (proj2 (formatTimeRemaining_cases (7451 # 2))))
      as (h & m & s & _ & _ & _ & Hsum & _ & Hlabel); [discriminate|].
    exists h, m, s. split; [exact Hsum | exact Hlabel].
Defined.

End time_remaining.

Section sound.
Import Controls.





End sound.

Set Warnings "-clear-no-such-hyp".

Section priorities.
Import Controls.

(** X17. Prioritizing is a toggle: it flips whether the name is in the
    set and no other name's membership, and doing it twice gives back the
    set.  With nothing prioritized every file of the torrent is selected,
    so taking the priority off the only prioritized file selects every
    file again; with something prioritized exactly the files whose name is
    in the set are selected. *)
Theorem priority_toggle (prev : gset string) (fileName : string)
    (files : list WebTorrent.TorrentFile) :
  (fileName ∈ handleTogglePriority prev fileName <-> fileName ∉ prev) /\
  (forall other, other <> fileName ->
     (other ∈ handleTogglePriority prev fileName <-> other ∈ prev)) /\
  handleTogglePriority (handleTogglePriority prev fileName) fileName = prev /\
  prioritySelection ∅ files = map (fun _ => true) files /\
  prioritySelection (handleTogglePriority {[fileName]} fileName) files
  = map (fun _ => true) files /\
  (prev <> ∅ ->
   prioritySelection prev files
   = map (fun f => bool_decide (WebTorrent.name f ∈ prev)) files).
Proof.
  unfold handleTogglePriority. split; [|split; [|split; [|split; [|split]]]].
  - destruct (decide (fileName ∈ prev)) as [Hin|Hin].
    + rewrite (bool_decide_eq_true_2 _ Hin). set_solver.
    + rewrite (bool_decide_eq_false_2 _ Hin). set_solver.
  - intros other Hne. destruct (decide (fileName ∈ prev)) as [Hin|Hin].
    + rewrite (bool_decide_eq_true_2 _ Hin). set_solver.
    + rewrite (bool_decide_eq_false_2 _ Hin). set_solver.
  - destruct (decide (fileName ∈ prev)) as [Hin|Hin].
    + rewrite (bool_decide_eq_true_2 _ Hin).
      assert (Hout : fileName ∉ prev ∖ {[fileName]}) by set_solver.
      rewrite (bool_decide_eq_false_2 _ Hout).
      apply set_eq. intros x. destruct (decide (x = fileName)); set_solver.
    + rewrite (bool_decide_eq_false_2 _ Hin).
      assert (Hnow : fileName ∈ prev ∪ {[fileName]}) by set_solver.
      rewrite (bool_decide_eq_true_2 _ Hnow).
      apply set_eq. intros x. destruct (decide (x = fileName)); set_solver.
  - unfold prioritySelection. rewrite size_empty.
    rewrite bool_decide_eq_false_2 by lia. reflexivity.
  - assert (Hin : fileName ∈ ({[fileName]} : gset string)) by set_solver.
    rewrite (bool_decide_eq_true_2 _ Hin).
    assert (({[fileName]} : gset string) ∖ {[fileName]} = ∅) as -> by set_solver.
    unfold prioritySelection. rewrite size_empty.
    rewrite bool_decide_eq_false_2 by lia. reflexivity.
  - intros Hne. unfold prioritySelection.
    rewrite bool_decide_eq_true_2; [reflexivity|].
    destruct (decide (size prev = 0)) as [Hz|Hz]; [|lia].
    apply size_empty_iff, leibniz_equiv in Hz. contradiction.
Qed.

Lemma priority_toggle_witness :
  prioritySelection {["episode-02.mkv"]} [Examples.file_a; Examples.file_b]
  = [false; true].
Proof.
  rewrite (proj2 (proj2 (proj2 (proj2 (proj2
             (priority_toggle {["episode-02.mkv"]} "episode-02.mkv"
                [Examples.file_a; Examples.file_b])))))).
  - reflexivity.
  - intros H. apply (f_equal size) in H. rewrite size_singleton, size_empty in H.
    discriminate H.
Defined.

End priorities.

Section file_list.
Import Controls.

Lemma sort_insert_Permutation {A} (compare : A -> A -> Z) (x : A) (l : list A) :
  Permutation (sort_insert compare x l) (x :: l).
Proof.
  induction l as [|y l IH]; cbn; [reflexivity|].
  destruct (compare x y <=? 0)%Z; [reflexivity|].
  rewrite IH. apply perm_swap.
Qed.

Lemma Array_sort_Permutation {A} (compare : A -> A -> Z) (l : list A) :
  Permutation (Array_sort compare l) l.
Proof.
  induction l as [|x l IH]; cbn; [reflexivity|].
  rewrite sort_insert_Permutation. constructor. exact IH.
Qed.

Lemma sort_insert_sorted {A} (compare : A -> A -> Z) (key : A -> Z) (x : A) (l : list A) :
  (forall a b, (compare a b <= 0)%Z <-> (key a <= key b)%Z) ->
  StronglySorted (fun a b => (key a <= key b)%Z) l ->
  StronglySorted (fun a b => (key a <= key b)%Z) (sort_insert compare x l).
Proof.
  intros Hcompare. induction l as [|y l IH]; cbn; intros Hs.
  - constructor; constructor.
  - inversion Hs as [|? ? Hrest Hall]; subst.
    destruct (compare x y <=? 0)%Z eqn:E.
    + apply Z.leb_le, Hcompare in E. constructor; [exact Hs|].
      constructor; [exact E|]. eapply List.Forall_impl; [|exact Hall].
      intros z Hz. cbv beta in *. lia.
    + apply Z.leb_gt in E.
      assert (Hxy : (key y <= key x)%Z).
      { destruct (Z.le_gt_cases (key x) (key y)) as [H|H]; [|lia].
        apply Hcompare in H. lia. }
      constructor; [apply IH; exact Hrest|].
      rewrite List.Forall_forall. intros z Hz.
      apply (Permutation_in _ (sort_insert_Permutation compare x l)) in Hz
        as [<- | Hz]; [exact Hxy|].
      rewrite List.Forall_forall in Hall. apply Hall. exact Hz.
Qed.

Lemma Array_sort_sorted {A} (compare : A -> A -> Z) (key : A -> Z) (l : list A) :
  (forall a b, (compare a b <= 0)%Z <-> (key a <= key b)%Z) ->
  StronglySorted (fun a b => (key a <= key b)%Z) (Array_sort compare l).
Proof.
  intros Hcompare. induction l as [|x l IH]; cbn; [constructor|].
  apply sort_insert_sorted; assumption.
Qed.

Lemma StronglySorted_impl {A} (R S : A -> A -> Prop) (l : list A) :
  (forall a b, R a b -> S a b) -> StronglySorted R l -> StronglySorted S l.
Proof.
  intros HRS. induction 1 as [|x l Hs IH Hall]; constructor; [exact IH|].
  eapply List.Forall_impl; [|exact Hall]. intros z. apply HRS.
Qed.

Lemma displayedFiles_Permutation (toLowerCase : string -> string)
    (localeCompare : string -> string -> Z)
    (files : list WebTorrent.TorrentFile) (torrentFileFilter torrentFileSort : string) :
  Permutation
    (displayedFiles toLowerCase localeCompare (Some files) torrentFileFilter torrentFileSort)
    (List.filter
       (fun f => includes (toLowerCase (WebTorrent.name f)) (toLowerCase torrentFileFilter))
       files).
Proof.
  unfold displayedFiles.
  destruct (String.eqb torrentFileSort "name_asc"); [apply Array_sort_Permutation|].
  destruct (String.eqb torrentFileSort "name_desc"); [apply Array_sort_Permutation|].
  destruct (String.eqb torrentFileSort "size_desc"); [apply Array_sort_Permutation|].
  destruct (String.eqb torrentFileSort "size_asc"); [apply Array_sort_Permutation|].
  reflexivity.
Qed.

(** X18. Whatever the sort order, the collation and the letters that
    [toLowerCase] folds, the files displayed are the files of the torrent
    whose lower-cased name contains the lower-cased filter text, each as
    many times as the torrent lists it; when the lower-cased empty string
    is empty, an empty filter hides no file; and without a torrent nothing
    is displayed. *)
Theorem displayedFiles_content (toLowerCase : string -> string)
    (localeCompare : string -> string -> Z)
    (files : list WebTorrent.TorrentFile) (torrentFileFilter torrentFileSort : string) :
  Permutation
    (displayedFiles toLowerCase localeCompare (Some files) torrentFileFilter torrentFileSort)
    (List.filter
       (fun f => includes (toLowerCase (WebTorrent.name f)) (toLowerCase torrentFileFilter))
       files) /\
  (forall f,
     In f (displayedFiles toLowerCase localeCompare (Some files) torrentFileFilter
             torrentFileSort) <->
     In f files /\
     exists pre post,
       toLowerCase (WebTorrent.name f) = pre +:+ toLowerCase torrentFileFilter +:+ post) /\
  (toLowerCase "" = "" ->
   Permutation (displayedFiles toLowerCase localeCompare (Some files) "" torrentFileSort)
     files) /\
  displayedFiles toLowerCase localeCompare None torrentFileFilter torrentFileSort = [].
Proof.
  pose proof (displayedFiles_Permutation toLowerCase localeCompare files torrentFileFilter
                torrentFileSort) as Hperm.
  split; [exact Hperm|]. split; [|split; [|reflexivity]].
  - intros f. rewrite <- includes_spec. split.
    + intros H. apply (Permutation_in _ Hperm), List.filter_In in H. exact H.
    + intros H. apply (Permutation_in _ (Permutation_sym Hperm)), List.filter_In.
      exact H.
  - intros Hempty.
    rewrite (displayedFiles_Permutation toLowerCase localeCompare files "" torrentFileSort).
    rewrite Hempty, filter_all; [reflexivity|].
    intros f _. cbn. destruct (toLowerCase (WebTorrent.name f)); reflexivity.
Qed.

(** X19. Sorted by size, the displayed files are in order: from largest
    to smallest for [size_desc], from smallest to largest for [size_asc];
    with a sort name that is none of the four known ones the files that
    pass the filter stay in the order of the torrent. *)
Theorem displayedFiles_size_order (toLowerCase : string -> string)
    (localeCompare : string -> string -> Z)
    (files : list WebTorrent.TorrentFile) (torrentFileFilter : string) :
  StronglySorted (fun a b => (WebTorrent.length b <= WebTorrent.length a)%N)
    (displayedFiles toLowerCase localeCompare (Some files) torrentFileFilter "size_desc") /\
  StronglySorted (fun a b => (WebTorrent.length a <= WebTorrent.length b)%N)
    (displayedFiles toLowerCase localeCompare (Some files) torrentFileFilter "size_asc") /\
  (forall torrentFileSort,
     ~ In torrentFileSort ["name_asc"; "name_desc"; "size_desc"; "size_asc"] ->
     displayedFiles toLowerCase localeCompare (Some files) torrentFileFilter torrentFileSort
     = List.filter
         (fun f => includes (toLowerCase (WebTorrent.name f))
                            (toLowerCase torrentFileFilter)) files).
Proof.
  split; [|split].
  - unfold displayedFiles. cbn [String.eqb Ascii.eqb Bool.eqb andb].
    eapply StronglySorted_impl;
      [|apply (Array_sort_sorted _ (fun f => (- Z.of_N (WebTorrent.length f))%Z))].
    + intros a b H. cbv beta in H. lia.
    + intros a b. lia.
  - unfold displayedFiles. cbn [String.eqb Ascii.eqb Bool.eqb andb].
    eapply StronglySorted_impl;
      [|apply (Array_sort_sorted _ (fun f => Z.of_N (WebTorrent.length f)))].
    + intros a b H. cbv beta in H. lia.
    + intros a b. lia.
  - intros torrentFileSort Hother. unfold displayedFiles.
    destruct (String.eqb torrentFileSort "name_asc") eqn:E1;
      [apply String.eqb_eq in E1; exfalso; apply Hother; rewrite E1; cbn; tauto|].
    destruct (String.eqb torrentFileSort "name_desc") eqn:E2;
      [apply String.eqb_eq in E2; exfalso; apply Hother; rewrite E2; cbn; tauto|].
    destruct (String.eqb torrentFileSort "size_desc") eqn:E3;
      [apply String.eqb_eq in E3; exfalso; apply Hother; rewrite E3; cbn; tauto|].
    destruct (String.eqb torrentFileSort "size_asc") eqn:E4;
      [apply String.eqb_eq in E4; exfalso; apply Hother; rewrite E4; cbn; tauto|].
    reflexivity.
Qed.

End file_list.

Section media_identities.
Import Controls.

(** X20. Media identities of different kinds of source never coincide, so
    a position recorded for a local file, a channel or a torrent file is
    never recalled for a source of another kind; no identity is empty or a
    name that objects inherit; and two channels have the same identity only
    if they have the same address. *)
Theorem media_identities_apart (fileName : string) (fileSize lastModified : N)
    (channelUrl otherUrl infoHash torrentFile : string) :
  local_mediaId fileName fileSize lastModified <> iptv_mediaId channelUrl /\
  local_mediaId fileName fileSize lastModified <> torrent_mediaId infoHash torrentFile /\
  iptv_mediaId channelUrl <> torrent_mediaId infoHash torrentFile /\
  (iptv_mediaId channelUrl = iptv_mediaId otherUrl -> channelUrl = otherUrl) /\
  (forall id,
     In id [ local_mediaId fileName fileSize lastModified; iptv_mediaId channelUrl;
             torrent_mediaId infoHash torrentFile ] ->
     truthy_string id = true /\ ~ In id Object_prototype_names).
Proof.
  unfold local_mediaId, iptv_mediaId, torrent_mediaId.
  split; [discriminate|]. split; [discriminate|]. split; [discriminate|].
  split; [intros H; injection H as H; exact H|].
  intros id [<- | [<- | [<- | []]]]; (split; [reflexivity|]);
    unfold Object_prototype_names; cbn;
    intros H; repeat (destruct H as [H | H]; [discriminate H|]); exact H.
Qed.

End media_identities.

Section programme_guide.
Import MoreTypes Guide.

Lemma num_ge_spec (a b : Q) : num_ge a b = true <-> (b <= a)%Q.
Proof. unfold num_ge. apply Qle_bool_iff. Qed.

Lemma on_air_spec (now : Q) (p : EpgProgram) :
  on_air now p = true <-> (start p <= now)%Q /\ (now < end_ p)%Q.
Proof.
  unfold on_air. rewrite andb_true_iff, num_ge_spec, num_lt_spec. reflexivity.
Qed.

(** X21. In the sidebar, the programme shown for a channel is one of the
    programmes the guide lists under the channel's guide identity, it is on
    air now (it has started and has not ended), and its progress is at
    least 0 and below 100 percent.  Without a guide, or for a channel
    without a guide identity, no programme is shown and the progress
    is 0. *)
Theorem useCurrentProgram_on_air (now : Q) (channel : Channel)
    (epgData : option (list (string * list EpgProgram))) :
  (forall p progress,
     useCurrentProgram now channel epgData = (Some p, progress) ->
     (exists id programs,
        tvgId channel = Some id /\ channelPrograms channel epgData = Some programs /\
        In p programs) /\
     (start p <= now)%Q /\ (now < end_ p)%Q /\
     (0 <= progress)%Q /\ (progress < 100)%Q) /\
  (epgData = None \/ tvgId channel = None \/ tvgId channel = Some "" ->
   useCurrentProgram now channel epgData = (None, 0%Q)).
Proof.
  split.
  - intros p progress H. unfold useCurrentProgram in H.
    destruct (channelPrograms channel epgData) as [programs|] eqn:Hprog;
      [|discriminate H].
    destruct (find (on_air now) programs) as [q|] eqn:Hfind; [|discriminate H].
    injection H as -> <-.
    apply find_some in Hfind as [Hin Hair]. apply on_air_spec in Hair as [H1 H2].
    split.
    + assert (Hid : exists id, tvgId channel = Some id).
      { unfold channelPrograms in Hprog.
        destruct epgData as [epg|]; [|discriminate Hprog].
        destruct (tvgId channel) as [id|]; [eauto | discriminate Hprog]. }
      destruct Hid as [id Hid]. exists id, programs. auto.
    + split; [exact H1|]. split; [exact H2|].
      assert (Hd : (0 < end_ p - start p)%Q) by lra.
      split.
      * apply Qmult_le_0_compat; [|discriminate].
        apply Qle_shift_div_l; [exact Hd | lra].
      * assert (Hlt : ((now - start p) / (end_ p - start p) < 1)%Q)
          by (apply Qlt_shift_div_r; [exact Hd | lra]).
        lra.
  - unfold useCurrentProgram, channelPrograms.
    intros [-> | [-> | ->]]; [reflexivity | |].
    + destruct epgData; reflexivity.
    + destruct epgData; reflexivity.
Qed.

(** X22. In the media information, the programme announced as next starts
    at or after the end of the programme on air, so it has not started
    yet; both are programmes of the channel.  When nothing is on air no
    next programme is announced, whatever the guide lists for later. *)
Theorem findPrograms_next_follows (now : Q) (channel : Channel)
    (epgData : option (list (string * list EpgProgram))) :
  (forall current next,
     findPrograms now channel epgData = (Some current, Some next) ->
     (end_ current <= start next)%Q /\ (now < start next)%Q /\
     (start current <= now)%Q /\ (now < end_ current)%Q /\
     exists programs, channelPrograms channel epgData = Some programs /\
                      In current programs /\ In next programs) /\
  (forall next, findPrograms now channel epgData <> (None, Some next)).
Proof.
  unfold findPrograms. split.
  - intros current next H.
    destruct (channelPrograms channel epgData) as [programs|]; [|discriminate H].
    destruct (find (on_air now) programs) as [c|] eqn:Hc; [|discriminate H].
    destruct (find (fun p => num_ge (start p) (end_ c)) programs) as [n|] eqn:Hn;
      [|discriminate H].
    injection H as -> ->.
    apply find_some in Hc as [Hcin Hair]. apply on_air_spec in Hair as [H1 H2].
    apply find_some in Hn as [Hnin Hge]. apply num_ge_spec in Hge.
    split; [exact Hge|]. split; [lra|]. split; [exact H1|]. split; [exact H2|].
    exists programs. auto.
  - intros next H.
    destruct (channelPrograms channel epgData) as [programs|]; [|discriminate H].
    destruct (find (on_air now) programs); discriminate H.
Qed.

End programme_guide.

Lemma useCurrentProgram_on_air_witness :
  exists progress,
    Guide.useCurrentProgram 900000 GuideExamples.channel_one
      (Some GuideExamples.guide_one)
    = (Some GuideExamples.news, progress) /\
    (0 <= progress)%Q /\ (progress < 100)%Q.
Proof.
  eexists. split; [reflexivity|].
  pose proof (proj1 (useCurrentProgram_on_air 900000 GuideExamples.channel_one
                       (Some GuideExamples.guide_one))
                GuideExamples.news _ eq_refl) as (_ & _ & _ & H3 & H4).
  split; [exact H3 | exact H4].
Defined.

Lemma findPrograms_next_follows_witness :
  Guide.findPrograms 900000 GuideExamples.channel_one (Some GuideExamples.guide_one)
  = (Some GuideExamples.news, Some GuideExamples.weather) /\
  (900000 < MoreTypes.start GuideExamples.weather)%Q.
Proof.
  split; [reflexivity|].
  pose proof (proj1 (findPrograms_next_follows 900000 GuideExamples.channel_one
                       (Some GuideExamples.guide_one))
                GuideExamples.news GuideExamples.weather eq_refl) as (_ & H & _).
  exact H.
Defined.

(* ================================================================== *)
(** * Further properties of the player *)
(* ================================================================== *)

Section skip_and_resume.
Import Types Storage UnifiedPlayer.



(** X24. A saved position of 5 seconds or less is not offered, and
    neither is a missing one: the resume effect then leaves the offer as it
    was and starts playback.  Without a media identity the effect does
    nothing at all. *)
Theorem resume_not_offered_early (ls : localStorage) (mediaId : string)
    (v : DOM.HTMLVideoElement) (previous : option Q) :
  mediaId <> "" ->
  (getPlaybackPosition ls mediaId = None \/
   exists t, getPlaybackPosition ls mediaId = Some t /\ (t <= 5)%Q) ->
  resumeEffect ls (Some mediaId) (Some v) previous = (Some (DOM.play v), previous) /\
  resumeEffect ls None (Some v) previous = (Some v, previous) /\
  resumeEffect ls (Some "") (Some v) previous = (Some v, previous).
Proof.
  intros Hid Hsaved. split; [|split; reflexivity].
  unfold resumeEffect, truthy_mediaId.
  assert (truthy_string mediaId = true) as ->
    by (destruct mediaId; [congruence | reflexivity]).
  destruct Hsaved as [-> | (t & -> & Ht)]; [reflexivity|].
  assert (num_gt t 5 = false) as -> by (apply num_gt_false; exact Ht).
  rewrite andb_false_r. reflexivity.
Qed.

Lemma resume_not_offered_early_witness :
  resumeEffect (Examples.storage_with_position Examples.movie_id 3)
    (Some Examples.movie_id) (Some (Examples.video_at 0)) None
  = (Some (DOM.play (Examples.video_at 0)), None).
Proof.
  apply (resume_not_offered_early (Examples.storage_with_position Examples.movie_id 3)
           Examples.movie_id (Examples.video_at 0) None); [discriminate|].
  right. exists 3%Q. split; [reflexivity | discriminate].
Defined.

Lemma callback_branches (ls : localStorage) (mediaId : string) (time duration : Q) :
  mediaId <> "" -> (0 < time)%Q -> (0 < duration)%Q ->
  timeUpdateTimeout_callback (Some mediaId) time duration ls
  = if num_gt (time / duration) (95 # 100)
    then clearPlaybackPosition ls mediaId
    else setPlaybackPosition ls mediaId time.
Proof.
  intros Hid Ht Hd. unfold timeUpdateTimeout_callback.
  assert (truthy_string mediaId = true) as ->
    by (destruct mediaId; [congruence | reflexivity]).
  assert (num_gt time 0 = true) as -> by (apply num_gt_spec; exact Ht).
  assert (num_gt duration 0 = true) as -> by (apply num_gt_spec; exact Hd).
  reflexivity.
Qed.

(** X25. Content that was watched to its last twentieth does not prompt a
    resume when it is opened again: after the recorder's write at
    [time / duration > 0.95], the resume effect for the same identity makes
    no offer and starts playback, whatever position was stored before. *)
Theorem finished_content_not_resumed (ls : localStorage) (mediaId : string)
    (time duration : Q) (v : DOM.HTMLVideoElement) :
  mediaId <> "" -> (0 < duration)%Q -> (95 # 100 < time / duration)%Q ->
  resumeEffect (timeUpdateTimeout_callback (Some mediaId) time duration ls)
    (Some mediaId) (Some v) None
  = (Some (DOM.play v), None).
Proof.
  intros Hid Hd Hr.
  rewrite callback_branches;
    [|exact Hid | eapply finished_ratio_positive; eassumption | exact Hd].
  assert (num_gt (time / duration) (95 # 100) = true) as ->
    by (apply num_gt_spec; exact Hr).
  unfold resumeEffect, truthy_mediaId.
  assert (truthy_string mediaId = true) as ->
    by (destruct mediaId; [congruence | reflexivity]).
  rewrite getPlaybackPosition_clear, decide_True by reflexivity. reflexivity.
Qed.

Lemma finished_content_not_resumed_witness :
  resumeEffect
    (timeUpdateTimeout_callback (Some Examples.movie_id) 1450 1500
       (Examples.storage_with_position Examples.movie_id 700))
    (Some Examples.movie_id) (Some (Examples.video_at 0)) None
  = (Some (DOM.play (Examples.video_at 0)), None).
Proof.
  apply (finished_content_not_resumed
           (Examples.storage_with_position Examples.movie_id 700) Examples.movie_id
           1450%Q 1500%Q (Examples.video_at 0));
    [discriminate | reflexivity | reflexivity].
Defined.

(** X26. A position that the recorder writes is the one offered when the
    same content is opened again: after a write at a time above 5 seconds
    with [time / duration] at most 0.95, the resume effect offers exactly
    that time, and accepting the offer moves playback there. *)
Theorem recorded_position_offered (ls : localStorage) (mediaId : string)
    (time duration : Q) (v : DOM.HTMLVideoElement) :
  mediaId <> "" -> (5 < time)%Q -> (0 < duration)%Q ->
  (time / duration <= 95 # 100)%Q ->
  let ls' := timeUpdateTimeout_callback (Some mediaId) time duration ls in
  resumeEffect ls' (Some mediaId) (Some v) None = (Some v, Some time) /\
  handleResumePlayback true (Some v) (Some time)
  = (Some (DOM.play (DOM.set_currentTime time v)), None).
Proof.
  intros Hid Ht Hd Hr ls'.
  assert (Htruthy : truthy_number time = true) by (apply truthy_number_gt5; exact Ht).
  split.
  - unfold ls'. rewrite callback_branches; [|exact Hid | lra | exact Hd].
    assert (num_gt (time / duration) (95 # 100) = false) as ->
      by (apply num_gt_false; exact Hr).
    unfold resumeEffect, truthy_mediaId.
    assert (truthy_string mediaId = true) as ->
      by (destruct mediaId; [congruence | reflexivity]).
    rewrite getPlaybackPosition_set, decide_True by reflexivity.
    unfold or_null. rewrite Htruthy. cbn iota. rewrite Htruthy.
    assert (num_gt time 5 = true) as -> by (apply num_gt_spec; exact Ht).
    reflexivity.
  - unfold handleResumePlayback. cbn [andb]. rewrite Htruthy. reflexivity.
Qed.

Lemma recorded_position_offered_witness :
  resumeEffect
    (timeUpdateTimeout_callback (Some Examples.movie_id) 700 1500
       (Examples.storage_with_magnets None))
    (Some Examples.movie_id) (Some (Examples.video_at 0)) None
  = (Some (Examples.video_at 0), Some 700%Q).
Proof.
  apply (recorded_position_offered (Examples.storage_with_magnets None)
           Examples.movie_id 700%Q 1500%Q (Examples.video_at 0));
    [discriminate | reflexivity | reflexivity | cbn; discriminate].
Defined.

(** X27. Writes are coalesced by the timer: while a write is pending,
    time updates change neither the time nor the identity it will write;
    so of the updates between two firings of the timer only the first is
    written, and once the timer has fired the next update is taken
    again. *)
Theorem first_update_is_written
    (updates : list (option (list Chapter) * option string * DOM.HTMLVideoElement))
    (chapters : option (list Chapter)) (mediaId : option string)
    (first later : DOM.HTMLVideoElement) (s : TimeState) (ls : localStorage) :
  timeUpdateTimeoutRef s = None ->
  let run := fold_left (fun st u => onTimeUpdate (fst (fst u)) (snd (fst u)) (snd u) st) in
  let pending := run updates (onTimeUpdate chapters mediaId first s) in
  timeUpdateTimeoutRef pending
  = Some {| captured_mediaId := mediaId; captured_time := DOM.currentTime first |} /\
  snd (timeUpdateTimeout_fires later pending ls)
  = timeUpdateTimeout_callback mediaId (DOM.currentTime first) (DOM.duration later) ls /\
  timeUpdateTimeoutRef (fst (timeUpdateTimeout_fires later pending ls)) = None.
Proof.
  intros Hidle run pending.
  assert (Hkeep : forall us st p,
            timeUpdateTimeoutRef st = Some p -> timeUpdateTimeoutRef (run us st) = Some p).
  { induction us as [|u us IH]; intros st p Hp; [exact Hp|].
    cbn. apply IH. cbn. rewrite Hp. reflexivity. }
  assert (Hpending : timeUpdateTimeoutRef pending
            = Some {| captured_mediaId := mediaId;
                      captured_time := DOM.currentTime first |}).
  { unfold pending. apply Hkeep. cbn. rewrite Hidle. reflexivity. }
  split; [exact Hpending|].
  unfold timeUpdateTimeout_fires. rewrite Hpending. split; reflexivity.
Qed.

Lemma first_update_is_written_witness :
  timeUpdateTimeoutRef
    (fold_left (fun st u => onTimeUpdate (fst (fst u)) (snd (fst u)) (snd u) st)
       [(None, Some Examples.movie_id, Examples.video_at 1450)]
       (onTimeUpdate None (Some Examples.movie_id) (Examples.video_at 700)
          Examples.idle_TimeState))
  = Some {| captured_mediaId := Some Examples.movie_id; captured_time := 700 |}.
Proof.
  apply (first_update_is_written
           [(None, Some Examples.movie_id, Examples.video_at 1450)]
           None (Some Examples.movie_id) (Examples.video_at 700) (Examples.video_at 700)
           Examples.idle_TimeState (Examples.storage_with_magnets None) eq_refl).
Defined.

End skip_and_resume.

(** ** Download queue: order and settled items *)

Section download_queue_order.
Import UnifiedPlayer Spec Examples.


Lemma update_named_unnamed (n : string) (f : DownloadQueueItem -> DownloadQueueItem)
    (q : list DownloadQueueItem) :
  (forall i, In i q -> named n i = false) -> update_named n f q = q.
Proof.
  intros H. unfold update_named. rewrite <- (map_id q) at 2.
  apply map_ext_in. intros i Hi. rewrite (H i Hi). reflexivity.
Qed.


















(** X29. The queue effect serves the queue in order: when no item is in
    flight it starts the earliest item that is still queued, calling
    [getBlobURL] for its file, and changes nothing but the status of that
    item; when an item is in flight, or when nothing is queued, it starts
    nothing and leaves the queue as it is. *)
Theorem downloadQueueEffect_starts_earliest (earlier later : list DownloadQueueItem)
    (next : DownloadQueueItem) :
  NoDup (map file_name (earlier ++ next :: later)) ->
  (forall i, In i (earlier ++ next :: later) -> in_flight i = false) ->
  (forall i, In i earlier -> status i <> Queued) ->
  status next = Queued ->
  downloadQueueEffect (earlier ++ next :: later)
  = (earlier ++ mark_preparing next :: later, Some (file next)) /\
  (forall q,
     (exists i, In i q /\ in_flight i = true) \/ (forall i, In i q -> status i <> Queued) ->
     downloadQueueEffect q = (q, None)).
Proof.
  intros Hnd Hidle Hearlier Hnext. split.
  - unfold downloadQueueEffect.
    assert (existsb in_flight (earlier ++ next :: later) = false) as ->.
    { destruct (existsb in_flight (earlier ++ next :: later)) eqn:E; [|reflexivity].
      apply existsb_exists in E as (i & Hi & Hfl). rewrite (Hidle i Hi) in Hfl.
      discriminate Hfl. }
    assert (find is_queued (earlier ++ next :: later) = Some next) as ->.
    { apply find_first_split. exists earlier, later. split; [reflexivity|].
      split; [unfold is_queued; rewrite Hnext; reflexivity|].
      apply List.Forall_forall. intros i Hi. specialize (Hearlier i Hi).
      unfold is_queued. destruct (status i); congruence. }
    f_equal. unfold update_named. rewrite map_app. cbn [map].
    unfold named at 2. rewrite String.eqb_refl.
    assert (Hothers : forall i, In i earlier \/ In i later ->
              named (WebTorrent.name (file next)) i = false).
    { intros i Hi. destruct (named (WebTorrent.name (file next)) i) eqn:Hn; [|reflexivity].
      apply String.eqb_eq in Hn. exfalso.
      rewrite map_app in Hnd. cbn [map] in Hnd.
      apply NoDup_app in Hnd as (_ & Hapart & Hrest).
      apply NoDup_cons in Hrest as [Hfresh _].
      assert (Hname : file_name i = file_name next) by exact Hn.
      destruct Hi as [Hi | Hi].
      - apply (Hapart (file_name next)); [|left].
        rewrite <- Hname. apply list_elem_of_In, in_map. exact Hi.
      - apply Hfresh. rewrite <- Hname. apply list_elem_of_In, in_map. exact Hi. }
    f_equal; [|f_equal].
    + apply (update_named_unnamed _ mark_preparing). intros i Hi. apply Hothers. tauto.
    + apply (update_named_unnamed _ mark_preparing). intros i Hi. apply Hothers. tauto.
  - intros q [(i & Hi & Hfl) | Hnone]; unfold downloadQueueEffect.
    + assert (existsb in_flight q = true) as -> by (apply existsb_exists; eauto).
      reflexivity.
    + destruct (existsb in_flight q); [reflexivity|].
      destruct (find is_queued q) as [n|] eqn:Hfind; [|reflexivity].
      apply find_some in Hfind as [Hn Hq]. specialize (Hnone n Hn).
      unfold is_queued in Hq. destruct (status n); congruence.
Qed.

Lemma downloadQueueEffect_starts_earliest_witness :
  downloadQueueEffect
    ([{| file := file_a; status := Done; error := None; url := Some "blob:nexo/77" |}]
     ++ {| file := file_b; status := Queued; error := None; url := None |} :: [])
  = ([{| file := file_a; status := Done; error := None; url := Some "blob:nexo/77" |}]
     ++ mark_preparing {| file := file_b; status := Queued; error := None; url := None |}
     :: [],
     Some file_b).
Proof.
  apply (downloadQueueEffect_starts_earliest
           [{| file := file_a; status := Done; error := None;
               url := Some "blob:nexo/77" |}] []
           {| file := file_b; status := Queued; error := None; url := None |}).
  - cbn. apply NoDup_cons_2; [|apply NoDup_singleton].
    intros H. apply list_elem_of_singleton in H. discriminate H.
  - intros i [<- | [<- | []]]; reflexivity.
  - intros i [<- | []]. discriminate.
  - reflexivity.
Defined.

End download_queue_order.

(** ** Live loader: the requests it can make *)

Section live_loader_requests.
Import Player Examples.

Lemma onError_other_requests (platform : Platform) (originalUrl : string)
    (isProxyAttempt : bool) (data : Hls.ErrorData) (s : LoaderState) :
  is_manifest_load_error data && negb isProxyAttempt = false ->
  let s' := onError platform originalUrl isProxyAttempt data s in
  requested s' = requested s /\ video_src s' = video_src s /\
  isMounted s' = isMounted s /\
  forall h, hls s = Some (h, isProxyAttempt) ->
    exists h', hls s' = Some (h', isProxyAttempt) /\ Hls.source h' = Hls.source h.
Proof.
  intros Hother. unfold onError. rewrite Hother.
  destruct (Hls.fatal data); [destruct (Hls.type data)|]; cbn;
    (split; [reflexivity|]; split; [reflexivity|]; split; [reflexivity|]);
    intros h ->; cbn; eexists; (split; [reflexivity|]); reflexivity.
Qed.

Lemma dispatch_requests (platform : Platform) (originalUrl : string)
    (e : LoaderEvent) (s : LoaderState) :
  let proxiedUrl := proxy +:+ encodeURIComponent originalUrl in
  isMounted s = true ->
  (hls s = None /\ (requested s = [] \/ requested s = [originalUrl]) \/
   (exists h, hls s = Some (h, false) /\ Hls.source h = originalUrl) /\
   requested s = [originalUrl] /\ Hls_isSupported platform = true \/
   (exists h, hls s = Some (h, true) /\ Hls.source h = proxiedUrl) /\
   requested s = [originalUrl; proxiedUrl]) ->
  let s' := dispatch platform originalUrl e s in
  isMounted s' = true /\ video_src s' = video_src s /\
  (hls s' = None /\ (requested s' = [] \/ requested s' = [originalUrl]) \/
   (exists h, hls s' = Some (h, false) /\ Hls.source h = originalUrl) /\
   requested s' = [originalUrl] /\ Hls_isSupported platform = true \/
   (exists h, hls s' = Some (h, true) /\ Hls.source h = proxiedUrl) /\
   requested s' = [originalUrl; proxiedUrl]).
Proof.
  intros proxiedUrl Hmounted Hinv.
  destruct e as [data|]; cbn [dispatch]; [|auto].
  destruct Hinv as [[Hnone Hreq] | [((h & Hh & Hsrc) & Hreq & Hsup) | ((h & Hh & Hsrc) & Hreq)]].
  - rewrite Hnone. auto.
  - rewrite Hh.
    destruct (is_manifest_load_error data && negb false) eqn:Hm.
    + unfold onError. rewrite Hm. unfold attemptLoad. cbn. rewrite Hmounted, Hsup. cbn.
      split; [reflexivity|]. split; [reflexivity|]. right. right.
      split; [eexists; split; reflexivity|]. rewrite Hreq. reflexivity.
    + destruct (onError_other_requests platform originalUrl false data s Hm)
        as (Hr & Hv & Hmo & Hhls).
      destruct (Hhls h Hh) as (h' & Hh' & Hsrc').
      split; [congruence|]. split; [exact Hv|]. right. left.
      split; [exists h'; split; [exact Hh' | congruence]|].
      split; [congruence | exact Hsup].
  - rewrite Hh.
    assert (Hm : is_manifest_load_error data && negb true = false) by apply andb_false_r.
    destruct (onError_other_requests platform originalUrl true data s Hm)
      as (Hr & Hv & Hmo & Hhls).
    destruct (Hhls h Hh) as (h' & Hh' & Hsrc').
    split; [congruence|]. split; [exact Hv|]. right. right.
    split; [exists h'; split; [exact Hh' | congruence]|]. congruence.
Qed.

(** X30. On any platform and whatever errors the player reports, the
    loader of a channel requests at most two addresses: the channel's own,
    and after it the proxy address followed by the encoded original URL.
    The media element's own source is never the proxied address, the live
    instance always loads the address requested last, and an error that is
    not a manifest-load failure makes no request. *)
Theorem loader_requests_bounded (platform : Platform) (originalUrl : string)
    (events : list LoaderEvent) :
  let proxiedUrl := proxy +:+ encodeURIComponent originalUrl in
  let s := dispatch_all platform originalUrl events (start platform originalUrl) in
  (requested s = [] \/ requested s = [originalUrl] \/
   requested s = [originalUrl; proxiedUrl]) /\
  (video_src s = None \/ video_src s = Some originalUrl) /\
  (forall h isProxyAttempt,
     hls s = Some (h, isProxyAttempt) ->
     Hls.source h = List.last (requested s) originalUrl /\
     Hls.source h = if isProxyAttempt then proxiedUrl else originalUrl) /\
  (forall data st,
     is_manifest_load_error data = false ->
     requested (dispatch platform originalUrl (HlsError data) st) = requested st).
Proof.
  intros proxiedUrl s.
  assert (Hrun : forall evs st,
    isMounted st = true ->
    (hls st = None /\ (requested st = [] \/ requested st = [originalUrl]) \/
     (exists h, hls st = Some (h, false) /\ Hls.source h = originalUrl) /\
     requested st = [originalUrl] /\ Hls_isSupported platform = true \/
     (exists h, hls st = Some (h, true) /\ Hls.source h = proxiedUrl) /\
     requested st = [originalUrl; proxiedUrl]) ->
    let st' := dispatch_all platform originalUrl evs st in
    video_src st' = video_src st /\
    (hls st' = None /\ (requested st' = [] \/ requested st' = [originalUrl]) \/
     (exists h, hls st' = Some (h, false) /\ Hls.source h = originalUrl) /\
     requested st' = [originalUrl] /\ Hls_isSupported platform = true \/
     (exists h, hls st' = Some (h, true) /\ Hls.source h = proxiedUrl) /\
     requested st' = [originalUrl; proxiedUrl])).
  { induction evs as [|e evs IH]; intros st Hm Hinv; cbn; [auto|].
    destruct (dispatch_requests platform originalUrl e st Hm Hinv) as (Hm' & Hv & Hinv').
    destruct (IH _ Hm' Hinv') as [Hv' Hinv''].
    split; [|exact Hinv'']. etransitivity; [exact Hv' | exact Hv]. }
  assert (Hstart : isMounted (start platform originalUrl) = true /\
    (video_src (start platform originalUrl) = None \/
     video_src (start platform originalUrl) = Some originalUrl) /\
    (hls (start platform originalUrl) = None /\
       (requested (start platform originalUrl) = [] \/
        requested (start platform originalUrl) = [originalUrl]) \/
     (exists h, hls (start platform originalUrl) = Some (h, false) /\
                Hls.source h = originalUrl) /\
     requested (start platform originalUrl) = [originalUrl] /\
     Hls_isSupported platform = true \/
     (exists h, hls (start platform originalUrl) = Some (h, true) /\
                Hls.source h = proxiedUrl) /\
     requested (start platform originalUrl) = [originalUrl; proxiedUrl])).
  { unfold start, attemptLoad. cbn.
    destruct (Hls_isSupported platform) eqn:Hsup; cbn.
    - split; [reflexivity|]. split; [left; reflexivity|]. right. left.
      split; [eexists; split; reflexivity|]. split; reflexivity.
    - destruct (canPlayType_mpegurl platform); cbn;
        (split; [reflexivity|]); (split; [auto|]); left; auto. }
  destruct Hstart as (Hm & Hv & Hinv).
  destruct (Hrun events _ Hm Hinv) as [Hv' Hinv'].
  fold s in Hv', Hinv'.
  split; [|split; [|split]].
  - destruct Hinv' as [[_ [H | H]] | [(_ & H & _) | (_ & H)]]; auto.
  - rewrite Hv'. exact Hv.
  - intros h p Hh.
    destruct Hinv' as [[Hnone _] | [((h' & Hh' & Hsrc) & Hreq & _) | ((h' & Hh' & Hsrc) & Hreq)]].
    + congruence.
    + rewrite Hh in Hh'. injection Hh' as <- ->. rewrite Hreq. cbn. auto.
    + rewrite Hh in Hh'. injection Hh' as <- ->. rewrite Hreq. cbn. auto.
  - intros data st Hother. cbn [dispatch].
    destruct (hls st) as [[h p]|]; [|reflexivity].
    apply onError_other_requests. rewrite Hother. reflexivity.
Qed.

End live_loader_requests.

(** ** Instances of the properties above *)

Lemma displayedFiles_content_witness :
  Permutation
    (Controls.displayedFiles toLowerCase (fun _ _ => 0%Z)
       (Some [FileExamples.trailer; FileExamples.feature; FileExamples.extras])
       "" "size_asc")
    [FileExamples.trailer; FileExamples.feature; FileExamples.extras].
Proof.
  apply (proj1 (proj2 (proj2 (displayedFiles_content toLowerCase (fun _ _ => 0%Z)
                                [FileExamples.trailer; FileExamples.feature;
                                 FileExamples.extras] "" "size_asc")))).
  reflexivity.
Defined.

Lemma displayedFiles_size_order_witness :
  Controls.displayedFiles toLowerCase (fun _ _ => 0%Z)
    (Some [FileExamples.trailer; FileExamples.feature; FileExamples.extras])
    "MKV" "size_asc"
  = [FileExamples.extras; FileExamples.feature] /\
  StronglySorted (fun a b => (WebTorrent.length b <= WebTorrent.length a)%N)
    [FileExamples.feature; FileExamples.extras; FileExamples.trailer] /\
  Controls.displayedFiles toLowerCase (fun _ _ => 0%Z)
    (Some [FileExamples.trailer; FileExamples.feature; FileExamples.extras])
    "MKV" "newest"
  = [FileExamples.feature; FileExamples.extras].
Proof.
  split; [reflexivity|]. split.
  - exact (proj1 (displayedFiles_size_order toLowerCase (fun _ _ => 0%Z)
                    [FileExamples.trailer; FileExamples.feature; FileExamples.extras]
                    "")).
  - rewrite (proj2 (proj2 (displayedFiles_size_order toLowerCase (fun _ _ => 0%Z)
                             [FileExamples.trailer; FileExamples.feature;
                              FileExamples.extras] "MKV")) "newest").
    + reflexivity.
    + cbn. intros H. repeat (destruct H as [H | H]; [discriminate H|]). exact H.
Defined.

Lemma media_identities_apart_witness :
  truthy_string (Controls.iptv_mediaId Examples.channel_url) = true /\
  ~ In (Controls.iptv_mediaId Examples.channel_url) Controls.Object_prototype_names.
Proof.
  apply (proj2 (proj2 (proj2 (proj2
           (media_identities_apart "movie.mp4" 1000 1700000000000 Examples.channel_url
              Examples.channel_url "7943aa61faf369a2106790bfae6002d6438b2b57"
              "episode-01.mkv"))))).
  right. left. reflexivity.
Defined.

Lemma loader_requests_bounded_witness :
  Player.requested
    (Player.dispatch Examples.hls_platform Examples.channel_url
       (Player.HlsError {| Hls.type := Hls.MEDIA_ERROR;
                           Hls.details := Hls.OTHER_DETAIL "bufferStalledError";
                           Hls.fatal := true; Hls.response := None |})
       (Player.start Examples.hls_platform Examples.channel_url))
  = [Examples.channel_url].
Proof.
  rewrite (proj2 (proj2 (proj2 (loader_requests_bounded Examples.hls_platform
                                  Examples.channel_url [])))).
  - reflexivity.
  - reflexivity.
Defined.
